(** * Archivers: pagination, extraction and text normalisation

    A shallow embedding of the pipeline of the three archivers
    (slack-archiver/index.js, google-archiver/gmail-archiver.js and
    google-archiver/calendar-archiver.js) and the properties stated about it.

    JavaScript strings are sequences of UTF-16 code units; regular
    expressions are given the backtracking semantics of ECMAScript. *)

From Stdlib Require Import List NArith ZArith Lia Bool String Ascii DecimalString.
From Stdlib Require Import Sorting.Sorted Sorting.Permutation.
From stdpp Require Import gmap.
Import ListNotations.

Set Default Proof Using "Type".

(** ** JavaScript strings *)

Module JS.

(** A string is the list of its UTF-16 code units. *)
Definition jsstring := list N.

(** ASCII literals of the source are written as Rocq strings. *)
Definition str (s : string) : jsstring :=
  List.map N_of_ascii (list_ascii_of_string s).

Definition NL : N := 10.
Definition CR : N := 13.
Definition QUOT : N := 34.

Definition jsstring_eqb (a b : jsstring) : bool :=
  if decide (a = b) then true else false.

(** [!s] for a string: only the empty string is falsy. *)
Definition truthy (s : jsstring) : bool :=
  match s with [] => false | _ => true end.

(** [x || y] on optional strings ([undefined], [null] and [''] are falsy). *)
Definition or_else (x : option jsstring) (y : jsstring) : jsstring :=
  match x with
  | Some (c :: s) => c :: s
  | _ => y
  end.

(** *** Character classes *)

Definition in_range (lo hi c : N) : bool := (lo <=? c)%N && (c <=? hi)%N.

Definition is_digit (c : N) : bool := in_range 48 57 c.
Definition is_upper (c : N) : bool := in_range 65 90 c.
Definition is_lower (c : N) : bool := in_range 97 122 c.
Definition is_alpha (c : N) : bool := is_upper c || is_lower c.

(** [\w] *)
Definition is_word (c : N) : bool := is_alpha c || is_digit c || (c =? 95)%N.

(** LineTerminator: LF, CR, LS, PS. *)
Definition is_line_terminator (c : N) : bool :=
  (c =? 10)%N || (c =? 13)%N || (c =? 8232)%N || (c =? 8233)%N.

(** [\s], also the characters removed by [String.prototype.trim]:
    WhiteSpace and LineTerminator. *)
Definition is_space (c : N) : bool :=
  in_range 9 13 c || (c =? 32)%N || (c =? 160)%N || (c =? 5760)%N
  || in_range 8192 8202 c || (c =? 8232)%N || (c =? 8233)%N
  || (c =? 8239)%N || (c =? 8287)%N || (c =? 12288)%N || (c =? 65279)%N.

(** Canonicalisation of the [i] flag (no [u] flag): the upper-case mapping,
    which for the ASCII letters of the patterns only identifies a letter with
    its other case. *)
Definition upcase (c : N) : N := if is_lower c then (c - 32)%N else c.

(** The character classes of the patterns. *)
Inductive cset :=
| One (c : N)      (* a literal code unit *)
| OneI (c : N)     (* a literal under the [i] flag *)
| Except (c : N)   (* [[^c]] *)
| Any              (* [[\s\S]] *)
| Space            (* [\s] *)
| NonSpace         (* [[^\s]] *)
| Digit            (* [\d] *)
| HexI             (* [[0-9a-f]] under the [i] flag *)
| AzDashI          (* [[a-z-]] under the [i] flag *)
| Blank            (* [[ \t]] *)
| Brace            (* [[{}]] *)
| NonAlnumI        (* [[^a-z0-9]] under the [i] flag *).

Definition cset_mem (cs : cset) (c : N) : bool :=
  match cs with
  | One a => (c =? a)%N
  | OneI a => (upcase c =? upcase a)%N
  | Except a => negb (c =? a)%N
  | Any => true
  | Space => is_space c
  | NonSpace => negb (is_space c)
  | Digit => is_digit c
  | HexI => is_digit c || in_range 97 102 c || in_range 65 70 c
  | AzDashI => is_alpha c || (c =? 45)%N
  | Blank => (c =? 32)%N || (c =? 9)%N
  | Brace => (c =? 123)%N || (c =? 125)%N
  | NonAlnumI => negb (is_alpha c || is_digit c)
  end.

(** *** Regular expressions *)

Inductive regex :=
| Eps
| Chr (cs : cset)
| Seq (r1 r2 : regex)
| Alt (r1 r2 : regex)
| Star (greedy : bool) (r : regex)
| Bol (multiline : bool)
| Eol (multiline : bool)
| WordB.

Declare Scope regex_scope.
Delimit Scope regex_scope with re.
Bind Scope regex_scope with regex.
Infix "·" := Seq (at level 40, left associativity) : regex_scope.
Infix "∣" := Alt (at level 50, left associativity) : regex_scope.

(** [r+], [r?], [r{2,}], [r{3,}] and [r{3,6}] by their definitions. *)
Definition Plus (r : regex) : regex := Seq r (Star true r).
Definition Opt (r : regex) : regex := Alt r Eps.
Definition AtLeast2 (r : regex) : regex := Seq r (Seq r (Star true r)).
Definition AtLeast3 (r : regex) : regex := Seq r (AtLeast2 r).
Definition From3To6 (r : regex) : regex :=
  Seq r (Seq r (Seq r (Opt (Seq r (Opt (Seq r (Opt r))))))).

(** A literal, case-sensitive or under the [i] flag. *)
Fixpoint lit (s : jsstring) : regex :=
  match s with
  | [] => Eps
  | [c] => Chr (One c)
  | c :: s' => Seq (Chr (One c)) (lit s')
  end.

Fixpoint lit_i (s : jsstring) : regex :=
  match s with
  | [] => Eps
  | [c] => Chr (OneI c)
  | c :: s' => Seq (Chr (OneI c)) (lit_i s')
  end.

(** The backtracking matcher, in continuation-passing style.  A position is
    the code unit before it (if any) and the rest of the input; the
    continuation [k] is what remains to be matched.  The result is the input
    left after the whole match.  An iteration of a star that consumes nothing
    is rejected, as in RepeatMatcher. *)
Definition cont := option N -> jsstring -> option jsstring.

Definition at_bol (multiline : bool) (prev : option N) : bool :=
  match prev with
  | None => true
  | Some c => multiline && is_line_terminator c
  end.

Definition at_eol (multiline : bool) (s : jsstring) : bool :=
  match s with
  | [] => true
  | c :: _ => multiline && is_line_terminator c
  end.

Definition word_before (prev : option N) : bool :=
  match prev with Some c => is_word c | None => false end.

Definition word_after (s : jsstring) : bool :=
  match s with c :: _ => is_word c | [] => false end.

Definition first_of {A} (x y : option A) : option A :=
  match x with Some v => Some v | None => y end.

(** The iterations of a star whose body is matched by [m]; [n] bounds their
    number by the length of the input, each iteration consuming some of it. *)
Fixpoint star_loop (m : cont -> cont) (greedy : bool) (k : cont) (n : nat)
  (prev : option N) (s : jsstring) {struct n} : option jsstring :=
  let again :=
    match n with
    | O => None
    | S n' =>
        m (fun prev' s' =>
             if (length s' <? length s)%nat then star_loop m greedy k n' prev' s'
             else None)
          prev s
    end in
  if greedy then first_of again (k prev s)
  else first_of (k prev s) again.

Fixpoint rmatch (r : regex) (k : cont) (prev : option N) (s : jsstring)
  {struct r} : option jsstring :=
  match r with
  | Eps => k prev s
  | Chr cs =>
      match s with
      | c :: s' => if cset_mem cs c then k (Some c) s' else None
      | [] => None
      end
  | Seq r1 r2 => rmatch r1 (rmatch r2 k) prev s
  | Alt r1 r2 => first_of (rmatch r1 k prev s) (rmatch r2 k prev s)
  | Star greedy r1 => star_loop (rmatch r1) greedy k (length s) prev s
  | Bol m => if at_bol m prev then k prev s else None
  | Eol m => if at_eol m s then k prev s else None
  | WordB => if xorb (word_before prev) (word_after s) then k prev s else None
  end.

(** One attempt at one position: the number of code units matched. *)
Definition match_here (r : regex) (prev : option N) (s : jsstring)
  : option nat :=
  match rmatch r (fun _ s' => Some s') prev s with
  | Some s' => Some (length s - length s')
  | None => None
  end.

(** [s.replace(/r/g, rep)]: matches are found left to right, each search
    starting where the previous match ended (one unit further after an empty
    match).  [skip] counts the units of the current match still to drop. *)
Fixpoint replace_from (r : regex) (rep : jsstring) (skip : nat)
  (prev : option N) (s : jsstring) {struct s} : jsstring :=
  match skip with
  | S k =>
      match s with
      | c :: s' => replace_from r rep k (Some c) s'
      | [] => []
      end
  | O =>
      match match_here r prev s with
      | Some (S k) =>
          rep ++ match s with
                 | c :: s' => replace_from r rep k (Some c) s'
                 | [] => []
                 end
      | Some O =>
          rep ++ match s with
                 | c :: s' => c :: replace_from r rep 0 (Some c) s'
                 | [] => []
                 end
      | None =>
          match s with
          | c :: s' => c :: replace_from r rep 0 (Some c) s'
          | [] => []
          end
      end
  end.

Definition replace_all (r : regex) (rep : jsstring) (s : jsstring) : jsstring :=
  replace_from r rep 0 None s.

(** [s.match(/r/)] used as a condition: a match at some position. *)
Fixpoint matches_from (r : regex) (prev : option N) (s : jsstring) : bool :=
  match match_here r prev s with
  | Some _ => true
  | None =>
      match s with
      | c :: s' => matches_from r (Some c) s'
      | [] => false
      end
  end.

Definition matches (r : regex) (s : jsstring) : bool := matches_from r None s.

(** *** String methods *)

Fixpoint trim_start (s : jsstring) : jsstring :=
  match s with
  | c :: s' => if is_space c then trim_start s' else s
  | [] => []
  end.

Definition trim_end (s : jsstring) : jsstring := rev (trim_start (rev s)).

Definition trim (s : jsstring) : jsstring := trim_end (trim_start s).

(** [s.split(sep)] for a separator of one code unit. *)
Fixpoint split (sep : N) (s : jsstring) : list jsstring :=
  match s with
  | [] => [[]]
  | c :: s' =>
      if (c =? sep)%N then [] :: split sep s'
      else match split sep s' with
           | l :: ls => (c :: l) :: ls
           | [] => [[c]]
           end
  end.

Fixpoint join (sep : jsstring) (ls : list jsstring) : jsstring :=
  match ls with
  | [] => []
  | [l] => l
  | l :: ls' => l ++ sep ++ join sep ls'
  end.

(** [String(n)] for a natural number. *)
Definition decimal (n : N) : jsstring :=
  str (NilZero.string_of_uint (N.to_uint n)).

(** [String(n)] for an integer. *)
Definition decimalZ (n : Z) : jsstring :=
  match n with
  | Z.neg p => str "-" ++ decimal (N.pos p)
  | _ => decimal (Z.to_N n)
  end.

(** [String(n)] for a number whose value is the integer [n].  A double holds
    every integer up to 2^53, and there the digits are those of [n]; beyond,
    [Number::toString] gives the shortest digits that read back as the same
    double, in exponent notation from 10^21 on: [inexact] stands for that
    part of it. *)
Definition number_text (inexact : Z -> jsstring) (n : Z) : jsstring :=
  if (Z.abs n <=? 2 ^ 53)%Z then decimalZ n else inexact n.

(** *** Plain objects used as maps *)

(** The properties that an object literal inherits from [Object.prototype]. *)
Definition object_prototype_keys : list string :=
  ["constructor"; "__defineGetter__"; "__defineSetter__"; "hasOwnProperty";
   "__lookupGetter__"; "__lookupSetter__"; "isPrototypeOf";
   "propertyIsEnumerable"; "toString"; "valueOf"; "__proto__";
   "toLocaleString"]%string.

Definition inherited (key : jsstring) : bool :=
  existsb (fun k => jsstring_eqb key (str k)) object_prototype_keys.

(** What reading [object[key]] gives when the own properties hold strings:
    the own property, else the property of [Object.prototype], else
    [undefined]. *)
Inductive property :=
| Own (value : jsstring)
| Proto (key : jsstring)
| Missing.

Definition js_get (own : gmap jsstring jsstring) (key : jsstring) : property :=
  match own !! key with
  | Some v => Own v
  | None => if inherited key then Proto key else Missing
  end.

(** [object[key] = value] for a string: an own property is set, except
    under [__proto__], where the inherited setter is called and leaves the
    object as it is, the value being neither an object nor [null]. *)
Definition js_set (own : gmap jsstring jsstring) (key value : jsstring)
  : gmap jsstring jsstring :=
  if jsstring_eqb key (str "__proto__") then own else <[key := value]> own.

(** [/[^a-z0-9]/gi], the pattern that sanitises file names. *)
Definition re_unsafe : regex := Chr NonAlnumI.

End JS.
Import JS.

(** ** Effects: remote calls, pacing delays and files

    The archivers are sequential [async] code.  A run is modelled in a state
    and exception monad; what the outside world sees of it (requests, pacing
    delays, files written) is logged as a sequence of events.  The loops that
    follow cursors take fuel and run out of it with [Timeout], which no
    handler catches. *)

Module Run.

Inductive event :=
| Fetch (endpoint : string) (key : jsstring) (cursor : option jsstring) (limit : N)
| Lookup (id : jsstring)
| Delay (ms : N)
| Write (name content : jsstring).

Inductive res (S A : Type) :=
| Ret (a : A) (s : S)
| Exn (s : S)
| Timeout.
Arguments Ret {S A} a s.
Arguments Exn {S A} s.
Arguments Timeout {S A}.

Definition M (S A : Type) : Type := S -> res S A.

Definition ret {S A} (a : A) : M S A := fun s => Ret a s.
Definition throw {S A} : M S A := fun s => Exn s.
Definition timeout {S A} : M S A := fun _ => Timeout.

Definition bind {S A B} (m : M S A) (f : A -> M S B) : M S B :=
  fun s =>
    match m s with
    | Ret a s' => f a s'
    | Exn s' => Exn s'
    | Timeout => Timeout
    end.

(** [try { m } catch (error) { h }] *)
Definition try_catch {S A} (m : M S A) (h : M S A) : M S A :=
  fun s =>
    match m s with
    | Ret a s' => Ret a s'
    | Exn s' => h s'
    | Timeout => Timeout
    end.

Definition is_fetch (e : event) : bool :=
  match e with Fetch _ _ _ _ => true | _ => false end.
Definition is_delay (e : event) : bool :=
  match e with Delay _ => true | _ => false end.
Definition is_lookup_of (id : jsstring) (e : event) : bool :=
  match e with Lookup i => jsstring_eqb i id | _ => false end.

Definition count (p : event -> bool) (t : list event) : nat :=
  length (List.filter p t).

(** The operations on a state that is only the log. *)
Definition log_emit (e : event) : M (list event) unit :=
  fun t => Ret tt (t ++ [e]).

Definition log_call {A} (e : event) (response : option A) : M (list event) A :=
  fun t => match response with Some a => Ret a (t ++ [e]) | None => Exn (t ++ [e]) end.

(** A cursor that lets a [do ... while (cursor)] loop go on. *)
Definition more (cursor : option jsstring) : bool :=
  match cursor with Some c => truthy c | None => false end.

End Run.
Import Run.

#[global] Instance run_ret {S} : MRet (M S) := fun A a => ret a.
#[global] Instance run_bind {S} : MBind (M S) := fun A B f m => bind m f.

(** [Array.prototype.sort] with a numeric comparator: the sort is stable, and
    with a consistent comparator its result is the stable sorted permutation,
    computed here by insertion. *)
Section JsSort.
Context {A : Type} (cmp : A -> A -> Z).

Fixpoint sort_insert (x : A) (l : list A) : list A :=
  match l with
  | [] => [x]
  | y :: l' => if (cmp x y <=? 0)%Z then x :: y :: l' else y :: sort_insert x l'
  end.

Definition js_sort (l : list A) : list A := fold_right sort_insert [] l.
End JsSort.

(** ** slack-archiver/index.js *)

Module SlackArchiver.

Record user := { real_name : option jsstring; name : option jsstring }.

Record attachment := { title : option jsstring; fallback : option jsstring }.

Record file := { file_name : option jsstring; mimetype : option jsstring }.

Record message := {
  ts : jsstring;
  msg_user : option jsstring;
  bot_id : option jsstring;
  username : option jsstring;
  text : option jsstring;
  attachments : option (list attachment);
  files : option (list file);
  reply_count : option Z
}.

Record conversation := { conv_id : jsstring; conv_name : option jsstring }.

(** A page of a cursor-paginated listing: the items and
    [response_metadata?.next_cursor]. *)
Definition page (A : Type) : Type := (list A * option jsstring)%type.

(** [this.userCache] and the log of the run. *)
Record world := {
  userCache : gmap jsstring (option user);
  events : list event
}.

Definition emit (e : event) : M world unit :=
  fun w => Ret tt {| userCache := userCache w; events := events w ++ [e] |}.

Definition cache_set (id : jsstring) (u : option user) : M world unit :=
  fun w => Ret tt {| userCache := <[id := u]> (userCache w); events := events w |}.

Definition cache_get (id : jsstring) : M world (option (option user)) :=
  fun w => Ret (userCache w !! id) w.

(** A remote call: the request is logged, and the call returns or throws. *)
Definition call {A} (e : event) (response : option A) : M world A :=
  fun w =>
    match emit e w with
    | Ret _ w' => match response with Some a => Ret a w' | None => Exn w' end
    | Exn w' => Exn w'
    | Timeout => Timeout
    end.

(** A remote call whose response depends on the moment it is made: the log
    of the run so far stands for that moment. *)
Definition call_at {A} (e : event) (response : list event -> option A) : M world A :=
  fun w => call e (response (events w)) w.

(** A template literal prints a missing value as [undefined]. *)
Definition tpl (x : option jsstring) : jsstring :=
  match x with Some s => s | None => str "undefined" end.

Section Archiver.

(** The Slack Web API, as seen through [this.client]: each method maps a
    request to a response, or throws ([None]).  An enumeration asks each
    cursor once; [users.info] may be asked for one identifier again and
    again, and what it answers (a user, a response without [user], or a
    failure) may change from one query to the next: it depends on the log
    of the run at the time of the query. *)
Variable conversations_list : option jsstring -> option (page conversation).
Variable conversations_history :
  jsstring -> option jsstring -> option (page message).
Variable users_info : list event -> jsstring -> option (option user).

(** [parseFloat] on a timestamp, in microseconds: Slack's timestamps are
    decimal strings with six fractional digits, which [parseFloat] reads
    without loss of order. *)
Variable parseFloat : jsstring -> Z.
(** [new Date(parseFloat(ts) * 1000).toISOString().replace('T', ' ')
    .substring(0, 19)]; [None] when the time stamp gives no valid date and
    [toISOString] throws a RangeError. *)
Variable dateStr : jsstring -> option jsstring.
(** [String(n)] beyond 2^53, see [number_text]. *)
Variable inexact_text : Z -> jsstring.
(** [new Date().toISOString()] at the time of the export. *)
Variable now : jsstring.
(** Whether [fs.writeFile] succeeds for a file name. *)
Variable disk_ok : jsstring -> bool.

Fixpoint conversations_loop (fuel : nat) (cursor : option jsstring)
  (conversations : list conversation) : M world (list conversation) :=
  match fuel with
  | O => timeout
  | S fuel' =>
      result ← call (Fetch "conversations.list" [] cursor 200)
                     (conversations_list cursor);
      let conversations := conversations ++ fst result in
      let cursor := snd result in
      if more cursor then conversations_loop fuel' cursor conversations
      else ret conversations
  end.

Definition getConversations (fuel : nat) : M world (list conversation) :=
  try_catch (conversations_loop fuel None []) (ret []).

Fixpoint history_loop (fuel : nat) (channelId : jsstring)
  (cursor : option jsstring) (messages : list message)
  : M world (list message) :=
  match fuel with
  | O => timeout
  | S fuel' =>
      result ← call (Fetch "conversations.history" channelId cursor 200)
                     (conversations_history channelId cursor);
      let messages := messages ++ fst result in
      let cursor := snd result in
      (* Add a small delay to respect rate limits *)
      emit (Delay 1000) ;;
      if more cursor then history_loop fuel' channelId cursor messages
      else ret messages
  end.

(** [(a, b) => parseFloat(a.ts) - parseFloat(b.ts)] *)
Definition by_ts (a b : message) : Z := (parseFloat (ts a) - parseFloat (ts b))%Z.

Definition getConversationHistory (fuel : nat) (channelId : jsstring)
  : M world (list message) :=
  try_catch
    (messages ← history_loop fuel channelId None [];
     (* Sort messages by timestamp (oldest first) *)
     ret (js_sort by_ts messages))
    (ret []).

Definition getUserInfo (userId : jsstring) : M world (option user) :=
  cached ← cache_get userId;
  match cached with
  | Some u => ret u
  | None =>
      try_catch
        (result ← call_at (Lookup userId) (fun log => users_info log userId);
         cache_set userId result ;;
         ret result)
        (ret None)
  end.

(** [userInfo?.real_name || userInfo?.name || message.user] *)
Definition display_name (userInfo : option user) (id : jsstring) : jsstring :=
  match userInfo with
  | Some u => or_else (real_name u) (or_else (name u) id)
  | None => id
  end.

(** The numbered lines of the attachment and file listings. *)
Fixpoint numbered {A} (line : A -> jsstring) (i : N) (l : list A) : jsstring :=
  match l with
  | [] => []
  | x :: l' =>
      [NL] ++ str "    " ++ decimal (i + 1) ++ str ". " ++ line x
      ++ numbered line (i + 1) l'
  end.

Definition formatMessage (message : message) : M world jsstring :=
  dateStr ← match dateStr (ts message) with
            | Some d => ret d
            | None => throw
            end;
  (* Get user name if available *)
  userName ←
    match msg_user message with
    | Some (c :: u) =>
        userInfo ← getUserInfo (c :: u);
        ret (display_name userInfo (c :: u))
    | _ =>
        match bot_id message with
        | Some (c :: b) =>
            ret (str "Bot (" ++ or_else (username message) (c :: b) ++ str ")")
        | _ =>
            match username message with
            | Some (c :: n) => ret (c :: n)
            | _ => ret (str "Unknown User")
            end
        end
    end;
  let formatted :=
    str "[" ++ dateStr ++ str "] " ++ userName ++ str ":" ++ [NL] in
  let formatted := formatted ++ or_else (text message) (str "(No text content)") in
  let formatted :=
    match attachments message with
    | Some (a :: atts) =>
        formatted ++ [NL] ++ str "  Attachments:"
        ++ numbered (fun att => or_else (title att)
                                  (or_else (fallback att) (str "Attachment")))
             0 (a :: atts)
    | _ => formatted
    end in
  let formatted :=
    match files message with
    | Some (f :: fs) =>
        formatted ++ [NL] ++ str "  Files:"
        ++ numbered (fun file => tpl (file_name file) ++ str " ("
                                 ++ tpl (mimetype file) ++ str ")")
             0 (f :: fs)
    | _ => formatted
    end in
  let formatted :=
    match reply_count message with
    | Some n =>
        if (0 <? n)%Z then
          formatted ++ [NL] ++ str "  [Thread with " ++ number_text inexact_text n
          ++ str " replies]"
        else formatted
    | None => formatted
    end in
  ret (formatted ++ [NL; NL]).

Definition channel_name (c : conversation) : jsstring :=
  or_else (conv_name c) (conv_id c).

(** [for (const message of messages) content += await this.formatMessage(message)] *)
Fixpoint format_all (messages : list message) (content : jsstring)
  : M world jsstring :=
  match messages with
  | [] => ret content
  | m :: rest =>
      formatted ← formatMessage m;
      format_all rest (content ++ formatted)
  end.

Definition file_header (c : conversation) (count : nat) : jsstring :=
  str "# Slack Archive: " ++ channel_name c ++ [NL]
  ++ str "# Channel ID: " ++ conv_id c ++ [NL]
  ++ str "# Exported: " ++ now ++ [NL]
  ++ str "# Total Messages: " ++ decimal (N.of_nat count) ++ [NL]
  ++ str "# " ++ concat (repeat (str "=") 50) ++ [NL; NL].

Definition saveConversation (c : conversation) (messages : list message)
  : M world unit :=
  let fileName := replace_all re_unsafe (str "_") (channel_name c) ++ str ".txt" in
  content ← format_all messages (file_header c (length messages));
  if disk_ok fileName then emit (Write fileName content) else throw.

(** The loop of [archive] over the conversations, with its two counters. *)
Fixpoint archive_loop (fuel : nat) (conversations : list conversation)
  (successCount errorCount : nat) : M world (nat * nat) :=
  match conversations with
  | [] => ret (successCount, errorCount)
  | c :: rest =>
      ok ← try_catch
              (messages ← getConversationHistory fuel (conv_id c);
               match messages with
               | _ :: _ => saveConversation c messages ;; ret (Some true)
               | [] => ret None
               end)
              (ret (Some false));
      match ok with
      | Some true => archive_loop fuel rest (S successCount) errorCount
      | Some false => archive_loop fuel rest successCount (S errorCount)
      | None => archive_loop fuel rest successCount errorCount
      end
  end.

Definition archive (fuel : nat) : M world (nat * nat) :=
  conversations ← getConversations fuel;
  match conversations with
  | [] => ret (0, 0)%nat
  | _ => archive_loop fuel conversations 0 0
  end.

End Archiver.

End SlackArchiver.

(** ** google-archiver/gmail-archiver.js *)

Module GmailArchiver.

Local Open Scope regex_scope.
Local Open Scope char_scope.

Definition code (a : ascii) : N := N_of_ascii a.

(** *** The patterns of [cleanText], in source order *)

(** [/<style[^>]*>[\s\S]*?<\/style>/gi] *)
Definition re_style_block : regex :=
  lit_i (str "<style") · Star true (Chr (Except (code ">"))) · Chr (One (code ">"))
  · Star false (Chr Any) · lit_i (str "</style>").

(** [/style\s*=\s*Q[^Q]*Q/gi], Q the double quote *)
Definition re_style_dq : regex :=
  lit_i (str "style") · Star true (Chr Space) · Chr (One (code "="))
  · Star true (Chr Space) · Chr (One QUOT) · Star true (Chr (Except QUOT))
  · Chr (One QUOT).

(** [/style\s*=\s*'[^']*'/gi] *)
Definition re_style_sq : regex :=
  lit_i (str "style") · Star true (Chr Space) · Chr (One (code "="))
  · Star true (Chr Space) · Chr (One (code "'"))
  · Star true (Chr (Except (code "'"))) · Chr (One (code "'")).

(** [/<script[^>]*>[\s\S]*?<\/script>/gi] *)
Definition re_script_block : regex :=
  lit_i (str "<script") · Star true (Chr (Except (code ">"))) · Chr (One (code ">"))
  · Star false (Chr Any) · lit_i (str "</script>").

(** [/<!--[\s\S]*?-->/g] *)
Definition re_comment : regex :=
  lit (str "<!--") · Star false (Chr Any) · lit (str "-->").

(** [/<\/?[^>]+>/g] *)
Definition re_tag : regex :=
  Chr (One (code "<")) · Opt (Chr (One (code "/")))
  · Plus (Chr (Except (code ">"))) · Chr (One (code ">")).

(** [/\{[^}]*\}/g] *)
Definition re_css_block : regex :=
  Chr (One (code "{")) · Star true (Chr (Except (code "}"))) · Chr (One (code "}")).

(** The common tail [:\s*[^;]+;?] of the property patterns. *)
Definition css_value : regex :=
  Chr (One (code ":")) · Star true (Chr Space)
  · Plus (Chr (Except (code ";"))) · Opt (Chr (One (code ";"))).

(** [/font-[a-z-]+:\s*[^;]+;?/gi] *)
Definition re_font : regex :=
  lit_i (str "font-") · Plus (Chr AzDashI) · css_value.
(** [/color:\s*[^;]+;?/gi] *)
Definition re_color : regex := lit_i (str "color") · css_value.
(** [/background[a-z-]*:\s*[^;]+;?/gi] *)
Definition re_background : regex :=
  lit_i (str "background") · Star true (Chr AzDashI) · css_value.
(** [/margin[a-z-]*:\s*[^;]+;?/gi] *)
Definition re_margin : regex :=
  lit_i (str "margin") · Star true (Chr AzDashI) · css_value.
(** [/padding[a-z-]*:\s*[^;]+;?/gi] *)
Definition re_padding : regex :=
  lit_i (str "padding") · Star true (Chr AzDashI) · css_value.
(** [/border[a-z-]*:\s*[^;]+;?/gi] *)
Definition re_border : regex :=
  lit_i (str "border") · Star true (Chr AzDashI) · css_value.
(** [/width:\s*[^;]+;?/gi] *)
Definition re_width : regex := lit_i (str "width") · css_value.
(** [/height:\s*[^;]+;?/gi] *)
Definition re_height : regex := lit_i (str "height") · css_value.
(** [/display:\s*[^;]+;?/gi] *)
Definition re_display : regex := lit_i (str "display") · css_value.
(** [/position:\s*[^;]+;?/gi] *)
Definition re_position : regex := lit_i (str "position") · css_value.
(** [/text-[a-z-]+:\s*[^;]+;?/gi] *)
Definition re_text : regex :=
  lit_i (str "text-") · Plus (Chr AzDashI) · css_value.

(** [/=3D/g], [/=20/g], [/=\r?\n/g] *)
Definition re_qp_eq : regex := lit (str "=3D").
Definition re_qp_space : regex := lit (str "=20").
Definition re_qp_soft : regex :=
  Chr (One (code "=")) · Opt (Chr (One CR)) · Chr (One NL).

(** The [entities] table, in the order of its keys. *)
Definition entities : list (jsstring * jsstring) :=
  [ (str "&nbsp;", str " ");
    (str "&lt;", str "<");
    (str "&gt;", str ">");
    (str "&amp;", str "&");
    (str "&quot;", [QUOT]);
    (str "&#39;", str "'");
    (str "&apos;", str "'");
    (str "&ldquo;", [QUOT]);
    (str "&rdquo;", [QUOT]);
    (str "&lsquo;", str "'");
    (str "&rsquo;", str "'");
    (str "&ndash;", [8211%N]);
    (str "&mdash;", [8212%N]);
    (str "&hellip;", [8230%N]);
    (str "&copy;", [169%N]);
    (str "&reg;", [174%N]);
    (str "&trade;", [8482%N]) ].

(** [for (const [entity, replacement] of Object.entries(entities))
       text = text.replace(new RegExp(entity, 'g'), replacement)] *)
Definition decode_entities (text : jsstring) : jsstring :=
  fold_left (fun t e => replace_all (lit (fst e)) (snd e) t) entities text.

(** [/&#\d+;/g] and [/&#x[0-9a-f]+;/gi] *)
Definition re_num_entity : regex :=
  lit (str "&#") · Plus (Chr Digit) · Chr (One (code ";")).
Definition re_hex_entity : regex :=
  lit (str "&#") · Chr (OneI (code "x")) · Plus (Chr HexI) · Chr (One (code ";")).

(** [/https?:\/\/[^\s]*\.(css|js|gif|png|jpg|jpeg)\b[^\s]*/gi] *)
Definition re_asset_url : regex :=
  lit_i (str "http") · Opt (Chr (OneI (code "s"))) · lit (str "://")
  · Star true (Chr NonSpace) · Chr (One (code "."))
  · (lit_i (str "css") ∣ lit_i (str "js") ∣ lit_i (str "gif")
     ∣ lit_i (str "png") ∣ lit_i (str "jpg") ∣ lit_i (str "jpeg"))
  · WordB · Star true (Chr NonSpace).

(** [/\r\n/g], [/\r/g], [/\n{3,}/g], [/[ \t]{2,}/g], [/^\s+/gm], [/\s+$/gm] *)
Definition re_crlf : regex := Chr (One CR) · Chr (One NL).
Definition re_cr : regex := Chr (One CR).
Definition re_blank_lines : regex := AtLeast3 (Chr (One NL)).
Definition re_blanks : regex := AtLeast2 (Chr Blank).
Definition re_lead_ws : regex := Bol true · Plus (Chr Space).
Definition re_trail_ws : regex := Plus (Chr Space) · Eol true.

(** The patterns of the line filter. *)

(** [/^(font-|color:|background|margin|padding|border|width:|height:|display:|position:|text-)/i] *)
Definition re_css_line : regex :=
  Bol false
  · (lit_i (str "font-") ∣ lit_i (str "color:") ∣ lit_i (str "background")
     ∣ lit_i (str "margin") ∣ lit_i (str "padding") ∣ lit_i (str "border")
     ∣ lit_i (str "width:") ∣ lit_i (str "height:") ∣ lit_i (str "display:")
     ∣ lit_i (str "position:") ∣ lit_i (str "text-")).
(** [/^\d+px/] *)
Definition re_px_line : regex := Bol false · Plus (Chr Digit) · lit (str "px").
(** [/^rgb\(/] *)
Definition re_rgb_line : regex := Bol false · lit (str "rgb(").
(** [/^#[0-9a-f]{3,6}$/i] *)
Definition re_hex_color_line : regex :=
  Bol false · Chr (One (code "#")) · From3To6 (Chr HexI) · Eol false.
(** [/^\s*[{}]\s*$/] *)
Definition re_brace_line : regex :=
  Bol false · Star true (Chr Space) · Chr Brace
  · Star true (Chr Space) · Eol false.

(** The callback of [filter]: [true] keeps the line. *)
Definition keep_line (line : jsstring) : bool :=
  let trimmed := trim line in
  if negb (truthy trimmed) then true
  else if matches re_css_line trimmed then false
  else if matches re_px_line trimmed then false
  else if matches re_rgb_line trimmed then false
  else if matches re_hex_color_line trimmed then false
  else if jsstring_eqb trimmed (str ";") then false
  else if matches re_brace_line trimmed then false
  else true.

(** The argument of [cleanText]: a string, or a missing body. *)
Inductive text_arg :=
| Undefined
| Null
| Text (s : jsstring).

(** The body of [cleanText] after the guard, one [let] per statement. *)
Definition clean_steps (text : jsstring) : jsstring :=
  let text := replace_all re_style_block [] text in
  let text := replace_all re_style_dq [] text in
  let text := replace_all re_style_sq [] text in
  let text := replace_all re_script_block [] text in
  let text := replace_all re_comment [] text in
  let text := replace_all re_tag [] text in
  let text := replace_all re_css_block [] text in
  let text := replace_all re_font [] text in
  let text := replace_all re_color [] text in
  let text := replace_all re_background [] text in
  let text := replace_all re_margin [] text in
  let text := replace_all re_padding [] text in
  let text := replace_all re_border [] text in
  let text := replace_all re_width [] text in
  let text := replace_all re_height [] text in
  let text := replace_all re_display [] text in
  let text := replace_all re_position [] text in
  let text := replace_all re_text [] text in
  let text := replace_all re_qp_eq (str "=") text in
  let text := replace_all re_qp_space (str " ") text in
  let text := replace_all re_qp_soft [] text in
  let text := decode_entities text in
  let text := replace_all re_num_entity [] text in
  let text := replace_all re_hex_entity [] text in
  let text := replace_all re_asset_url (str "[removed styling/tracking URL]") text in
  let text := replace_all re_crlf [NL] text in
  let text := replace_all re_cr [NL] text in
  let text := replace_all re_blank_lines [NL; NL] text in
  let text := replace_all re_blanks (str " ") text in
  let text := replace_all re_lead_ws [] text in
  let text := replace_all re_trail_ws [] text in
  let text := join [NL] (List.filter keep_line (split NL text)) in
  trim text.

Definition cleanText (text : text_arg) : jsstring :=
  match text with
  | Text (c :: s) => clean_steps (c :: s)
  | _ => []
  end.

(** *** Message parts *)

Record part_body := { data : option jsstring; size : option N }.

(** A MIME part of a message payload; [parts] is missing on a leaf. *)
Inductive part :=
| Part (mimeType : option jsstring) (filename : option jsstring)
       (body : option part_body) (parts : option (list part)).

Definition mimeType_of (p : part) : option jsstring :=
  match p with Part m _ _ _ => m end.
Definition filename_of (p : part) : option jsstring :=
  match p with Part _ f _ _ => f end.
Definition body_of (p : part) : option part_body :=
  match p with Part _ _ b _ => b end.
Definition parts_of (p : part) : option (list part) :=
  match p with Part _ _ _ ps => ps end.

(** [part.body && part.body.data], as the data when it is truthy. *)
Definition body_data (b : option part_body) : option jsstring :=
  match b with
  | Some {| data := Some (c :: d) |} => Some (c :: d)
  | _ => None
  end.

Definition mime_is (m : option jsstring) (kind : string) : bool :=
  match m with Some s => jsstring_eqb s (str kind) | None => false end.

Record attachment := {
  att_filename : jsstring;
  att_mimeType : option jsstring;
  att_size : option N
}.

Section Extraction.

(** [Buffer.from(s, 'base64').toString('utf-8')] *)
Variable buffer_base64_utf8 : jsstring -> jsstring.
(** [this.includeMarkup] *)
Variable includeMarkup : bool.

Definition decodeBase64 (d : option jsstring) : jsstring :=
  match d with
  | Some (c :: s) =>
      buffer_base64_utf8
        (replace_all (Chr (One (code "_"))) (str "/")
           (replace_all (Chr (One (code "-"))) (str "+") (c :: s)))
  | _ => []
  end.

(** What one part of [payload.parts] adds to the body, given the
    extraction of nested payloads. *)
Definition part_chunk (extract : part -> jsstring) (p : part) : jsstring :=
  match p with
  | Part m _ b ps =>
      match body_data b with
      | Some d =>
          if mime_is m "text/plain" then decodeBase64 (Some d)
          else if includeMarkup && mime_is m "text/html" then
            (* Only include HTML if explicitly requested *)
            [NL] ++ str "--- HTML Content ---" ++ [NL]
            ++ decodeBase64 (Some d)
            ++ [NL] ++ str "--- End HTML ---" ++ [NL]
          else match ps with Some _ => extract p | None => [] end
      | None => match ps with Some _ => extract p | None => [] end
      end
  end.

Fixpoint extractBody (payload : part) : jsstring :=
  match payload with
  | Part _ _ b ps =>
      (* Single part message *)
      let body := match body_data b with
                  | Some d => decodeBase64 (Some d)
                  | None => []
                  end in
      (* Multipart message *)
      let body :=
        match ps with
        | Some l =>
            fold_left (fun body p => body ++ part_chunk extractBody p) l body
        | None => body
        end in
      if includeMarkup then body else cleanText (Text body)
  end.

(** The entry pushed for a part with a file name; [None] is the TypeError
    of [part.body.size] on a part without a body. *)
Definition own_attachment (p : part) : option (list attachment) :=
  match p with
  | Part m (Some (c :: fname)) (Some b) _ =>
      Some [{| att_filename := c :: fname; att_mimeType := m; att_size := size b |}]
  | Part _ (Some (_ :: _)) None _ => None
  | _ => Some []
  end.

Fixpoint extractAttachments (payload : part) : option (list attachment) :=
  match payload with
  | Part _ _ _ (Some l) =>
      fold_left
        (fun acc p =>
           attachments ← acc;
           own ← own_attachment p;
           nested ← match parts_of p with
                    | Some _ => extractAttachments p (* Nested parts *)
                    | None => Some []
                    end;
           Some (attachments ++ own ++ nested))
        l (Some [])
  | Part _ _ _ None => Some []
  end.

End Extraction.

(** *** Listing the messages *)

Record message_ref := { ref_id : jsstring; threadId : jsstring }.

(** [res.data] of [users.messages.list]. *)
Definition list_page : Type := (option (list message_ref) * option jsstring)%type.

Section Listing.

(** [this.gmail.users.messages.list({userId: 'me', q, pageToken, maxResults})],
    which returns or throws ([None]). *)
Variable messages_list : jsstring -> option jsstring -> N -> option list_page.

(** [maxResults && !totalFetched ? Math.min(500, maxResults) : 500] *)
Definition page_limit (maxResults : option N) (totalFetched : N) : N :=
  match maxResults with
  | Some k =>
      if negb (k =? 0)%N && (totalFetched =? 0)%N then N.min 500 k else 500%N
  | None => 500%N
  end.

(** [maxResults && totalFetched >= maxResults] *)
Definition reached (maxResults : option N) (totalFetched : N) : bool :=
  match maxResults with
  | Some k => negb (k =? 0)%N && (k <=? totalFetched)%N
  | None => false
  end.

Fixpoint messages_loop (fuel : nat) (query : jsstring) (maxResults : option N)
  (pageToken : option jsstring) (messages : list message_ref)
  (totalFetched : N) : M (list event) (list message_ref) :=
  match fuel with
  | O => timeout
  | S fuel' =>
      let limit := page_limit maxResults totalFetched in
      res ← log_call (Fetch "users.messages.list" query pageToken limit)
                     (messages_list query pageToken limit);
      let messages :=
        match fst res with Some ms => messages ++ ms | None => messages end in
      let totalFetched :=
        match fst res with
        | Some ms => (totalFetched + N.of_nat (length ms))%N
        | None => totalFetched
        end in
      let pageToken := snd res in
      if reached maxResults totalFetched then ret messages
      else
        (* Rate limit protection *)
        log_emit (Delay 100) ;;
        if more pageToken
        then messages_loop fuel' query maxResults pageToken messages totalFetched
        else ret messages
  end.

Definition getMessages (fuel : nat) (query : jsstring) (maxResults : option N)
  : M (list event) (list message_ref) :=
  try_catch (messages_loop fuel query maxResults None [] 0%N) (ret []).

End Listing.

(** *** Labels, full messages and batches *)

Record label := {
  label_id : jsstring;
  label_name : jsstring;
  label_type : option jsstring
}.

Record header := { header_name : jsstring; header_value : jsstring }.

(** [res.data] of [users.messages.get] with [format: 'full']: the message
    with its payload, and the headers of the payload. *)
Record full_message := {
  msg_id : option jsstring;
  msg_threadId : option jsstring;
  labelIds : option (list jsstring);
  msg_payload : option (option (list header) * part)
}.

(** The keys at which [formatMessage] reads the headers. *)
Inductive header_key := K_from | K_to | K_subject | K_date | K_cc.

Definition key_name (key : header_key) : string :=
  match key with
  | K_from => "from"
  | K_to => "to"
  | K_subject => "subject"
  | K_date => "date"
  | K_cc => "cc"
  end.

(** The options of [archive]. *)
Record archive_options := {
  opt_query : jsstring;
  opt_maxResults : option N;
  includeSpam : bool;
  includeTrash : bool
}.

(** A template literal prints a missing value as [undefined]. *)
Definition tpl (x : option jsstring) : jsstring :=
  match x with Some s => s | None => str "undefined" end.

(** [this.messagesPerFile] *)
Definition messagesPerFile : nat := 100.

(** [l.slice(i, j)] for [i <= j]. *)
Definition slice {A} (i j : nat) (l : list A) : list A := firstn (j - i) (skipn i l).

(** [for (let i = 0; i < messages.length; i += this.messagesPerFile)
       batches.push(messages.slice(i, i + this.messagesPerFile))],
    from the index [i] on; the loop takes at most one turn per message. *)
Fixpoint batches_from {A} (turns i : nat) (messages : list A) : list (list A) :=
  match turns with
  | O => []
  | S turns' =>
      if (i <? length messages)%nat
      then slice i (i + messagesPerFile) messages
           :: batches_from turns' (i + messagesPerFile) messages
      else []
  end.

Definition batches {A} (messages : list A) : list (list A) :=
  batches_from (length messages) 0 messages.

Definition batch_file (label : jsstring) (batchIndex : nat) : jsstring :=
  if jsstring_eqb label (str "all")
  then str "gmail_archive_batch_" ++ decimal (N.of_nat batchIndex + 1) ++ str ".txt"
  else str "gmail_" ++ label ++ str "_batch_" ++ decimal (N.of_nat batchIndex + 1)
       ++ str ".txt".

(** [label.type === 'system' && ['SPAM', 'TRASH', 'DRAFT'].includes(label.id)] *)
Definition skipped (l : label) : bool :=
  match label_type l with
  | Some t =>
      jsstring_eqb t (str "system")
      && (jsstring_eqb (label_id l) (str "SPAM")
          || jsstring_eqb (label_id l) (str "TRASH")
          || jsstring_eqb (label_id l) (str "DRAFT"))
  | None => false
  end.

Section Archive.

Variable buffer_base64_utf8 : jsstring -> jsstring.
Variable includeMarkup : bool.
(** [this.excludePromotions] *)
Variable excludePromotions : bool.
(** [String.prototype.toLowerCase] *)
Variable toLowerCase : jsstring -> jsstring.
(** [String(n)] beyond 2^53, see [number_text]. *)
Variable inexact_text : Z -> jsstring.
Variable messages_list : jsstring -> option jsstring -> N -> option list_page.
(** [this.gmail.users.messages.get({userId: 'me', id, format: 'full'})] and
    [this.gmail.users.labels.list({userId: 'me'})]: each returns [res.data]
    (for the labels, [res.data.labels]) or throws ([None]).  The requests
    carry no page token and no page size, logged as [None] and [0]. *)
Variable messages_get : jsstring -> option (option full_message).
Variable labels_list : option (option (list label)).
(** [new Date().toISOString()] at the time of the export. *)
Variable now : jsstring.
(** Whether [fs.writeFile] succeeds for a file name. *)
Variable disk_ok : jsstring -> bool.

Definition getLabels : M (list event) (list label) :=
  try_catch
    (labels ← log_call (Fetch "users.labels.list" [] None 0) labels_list;
     ret (default [] labels))
    (ret []).

Definition getMessage (messageId : jsstring) : M (list event) (option full_message) :=
  try_catch
    (log_call (Fetch "users.messages.get" messageId None 0) (messages_get messageId))
    (ret None).

(** [headerMap], the own properties of an object literal that is filled
    under the lower-cased names of the headers; it is read with [js_get]. *)
Definition parseHeaders (headers : list header) : gmap jsstring jsstring :=
  fold_left
    (fun headerMap h => js_set headerMap (toLowerCase (header_name h)) (header_value h))
    headers ∅.

(** [headers.key], for the keys that [formatMessage] reads.  None of them
    is a property of [Object.prototype], so what is read is an own property
    or [undefined]. *)
Definition header_at (headers : gmap jsstring jsstring) (key : header_key)
  : option jsstring :=
  match js_get headers (str (key_name key)) with
  | Own v => Some v
  | Proto _ | Missing => None
  end.

(** [headers.key || 'placeholder'] *)
Definition header_or (headers : gmap jsstring jsstring) (key : header_key)
  (placeholder : string) : jsstring :=
  or_else (header_at headers key) (str placeholder).

Definition attachment_line (att : attachment) : jsstring :=
  str "  - " ++ att_filename att ++ str " (" ++ tpl (att_mimeType att) ++ str ", "
  ++ match att_size att with
     | Some n => number_text inexact_text (Z.of_N n)
     | None => str "undefined"
     end
  ++ str " bytes)" ++ [NL].

(** [formatMessage]; [None] is the TypeError of [extractAttachments]. *)
Definition formatMessage (message : option full_message) : option jsstring :=
  match message with
  | Some {| msg_id := id; msg_threadId := thread; labelIds := labels;
            msg_payload := Some (hs, payload) |} =>
      let headers := parseHeaders (default [] hs) in
      let body := extractBody buffer_base64_utf8 includeMarkup payload in
      attachments ← extractAttachments payload;
      let formatted := concat (repeat (str "=") 80) ++ [NL] in
      let formatted := formatted ++ str "Message ID: " ++ tpl id ++ [NL] in
      let formatted := formatted ++ str "Thread ID: " ++ tpl thread ++ [NL] in
      let formatted := formatted ++ str "From: " ++ header_or headers K_from "Unknown"
                       ++ [NL] in
      let formatted := formatted ++ str "To: " ++ header_or headers K_to "Unknown"
                       ++ [NL] in
      let formatted := formatted ++ str "Subject: "
                       ++ header_or headers K_subject "(No Subject)" ++ [NL] in
      let formatted := formatted ++ str "Date: " ++ header_or headers K_date "Unknown"
                       ++ [NL] in
      let formatted :=
        match header_at headers K_cc with
        | Some (c :: cc) => formatted ++ str "CC: " ++ (c :: cc) ++ [NL]
        | _ => formatted
        end in
      let formatted :=
        match labels with
        | Some (l :: ls) =>
            formatted ++ str "Labels: " ++ join (str ", ") (l :: ls) ++ [NL]
        | _ => formatted
        end in
      let formatted :=
        match attachments with
        | _ :: _ =>
            formatted ++ [NL] ++ str "Attachments ("
            ++ decimal (N.of_nat (length attachments)) ++ str "):" ++ [NL]
            ++ concat (List.map attachment_line attachments)
        | [] => formatted
        end in
      let formatted := formatted ++ [NL] ++ concat (repeat (str "-") 80) ++ [NL; NL] in
      let formatted := formatted ++ or_else (Some body) (str "(No text content)" ++ [NL]) in
      let formatted := formatted ++ [NL] ++ concat (repeat (str "=") 80) ++ [NL; NL] in
      Some formatted
  | _ => Some (str "Error: Could not parse message" ++ [NL; NL])
  end.

Definition batch_header (label : jsstring) (batchIndex count : nat) : jsstring :=
  str "# Gmail Archive" ++ [NL]
  ++ str "# Label: " ++ label ++ [NL]
  ++ str "# Batch: " ++ decimal (N.of_nat batchIndex + 1) ++ [NL]
  ++ str "# Messages: " ++ decimal (N.of_nat count) ++ [NL]
  ++ str "# Exported: " ++ now ++ [NL]
  ++ str "#" ++ concat (repeat (str "=") 79) ++ [NL; NL].

(** [for (const messageRef of messages) { ... }] of [saveMessages];
    [processedCount] only feeds the console. *)
Fixpoint save_loop (messages : list message_ref) (content : jsstring)
  : M (list event) jsstring :=
  match messages with
  | [] => ret content
  | messageRef :: rest =>
      fullMessage ← getMessage (ref_id messageRef);
      content ← match fullMessage with
                | Some m =>
                    match formatMessage (Some m) with
                    | Some formatted => ret (content ++ formatted)
                    | None => throw
                    end
                | None => ret content
                end;
      (* Rate limit protection *)
      log_emit (Delay 200) ;;
      save_loop rest content
  end.

Definition saveMessages (messages : list message_ref) (label : jsstring)
  (batchIndex : nat) : M (list event) unit :=
  let fileName := batch_file label batchIndex in
  content ← save_loop messages (batch_header label batchIndex (length messages));
  if disk_ok fileName then log_emit (Write fileName content) else throw.

(** [for (let i = 0; i < batches.length; i++)
       await this.saveMessages(batches[i], label, i)], from the index [i] on. *)
Fixpoint save_batches (batches : list (list message_ref)) (label : jsstring)
  (i : nat) : M (list event) unit :=
  match batches with
  | [] => ret tt
  | batch :: rest => saveMessages batch label i ;; save_batches rest label (S i)
  end.

Definition archiveByQuery (fuel : nat) (query label : jsstring)
  (maxResults : option N) : M (list event) unit :=
  messages ← getMessages messages_list fuel query maxResults;
  match messages with
  | [] => ret tt
  | _ :: _ => (* Process in batches *) save_batches (batches messages) label 0
  end.

Definition fullQuery (options : archive_options) : jsstring :=
  let fullQuery := opt_query options in
  let fullQuery :=
    if includeSpam options then fullQuery else fullQuery ++ str " -in:spam" in
  let fullQuery :=
    if includeTrash options then fullQuery else fullQuery ++ str " -in:trash" in
  if excludePromotions
  then fullQuery ++ str " -category:promotions -category:social -category:updates"
  else fullQuery.

Definition archive (fuel : nat) (options : archive_options) : M (list event) unit :=
  archiveByQuery fuel (trim (fullQuery options)) (str "all") (opt_maxResults options).

(** [for (const label of labels) { ... }] of [archiveByLabels]. *)
Fixpoint labels_loop (fuel : nat) (labels : list label) : M (list event) unit :=
  match labels with
  | [] => ret tt
  | label :: rest =>
      (if skipped label then ret tt
       else archiveByQuery fuel (str "label:" ++ label_id label)
              (replace_all re_unsafe (str "_") (label_name label)) None) ;;
      labels_loop fuel rest
  end.

Definition archiveByLabels (fuel : nat) : M (list event) unit :=
  labels ← getLabels;
  labels_loop fuel labels.

End Archive.

End GmailArchiver.

(** ** google-archiver/calendar-archiver.js *)

Module CalendarArchiver.

Record event_time := { dateTime : option jsstring; date : option jsstring }.

Record cal_event := {
  summary : option jsstring;
  start : option event_time
}.

(** [res.data] of [events.list]. *)
Definition events_page : Type := (option (list cal_event) * option jsstring)%type.

(** An entry of the calendar list. *)
Record calendar := { cal_id : jsstring; cal_summary : option jsstring }.

(** The default order of [Array.prototype.sort]: strings by code units. *)
Fixpoint str_compare (a b : jsstring) : Z :=
  match a, b with
  | [], [] => 0
  | [], _ :: _ => -1
  | _ :: _, [] => 1
  | x :: a', y :: b' =>
      if (x <? y)%N then -1 else if (y <? x)%N then 1 else str_compare a' b'
  end.

(** [s.padStart(2, '0')] *)
Definition padStart2 (s : jsstring) : jsstring :=
  match s with
  | [] => str "00"
  | [c] => str "0" ++ [c]
  | _ => s
  end.

Section Archiver.

(** [this.calendar.events.list({calendarId, timeMin, timeMax,
    maxResults: 250, singleEvents: true, orderBy: 'startTime', pageToken})] *)
Variable events_list :
  jsstring -> jsstring -> jsstring -> option jsstring -> option events_page.

(** [new Date(s)] as milliseconds since the epoch, [None] for an Invalid
    Date; [getFullYear] and [getMonth] read it in the local time zone. *)
Variable date_parse : option jsstring -> option Z.
Variable getFullYear : Z -> Z.
Variable getMonth : Z -> Z.
(** [formatEvent], the text of one event, and the month title
    [toLocaleDateString('en-US', {month: 'long', year: 'numeric'})]. *)
Variable formatEvent : cal_event -> jsstring.
Variable monthName : jsstring -> jsstring.
(** [new Date().toISOString()] at the time of the export. *)
Variable now : jsstring.

Fixpoint events_loop (fuel : nat) (calendarId timeMin timeMax : jsstring)
  (pageToken : option jsstring) (events : list cal_event)
  : M (list event) (list cal_event) :=
  match fuel with
  | O => timeout
  | S fuel' =>
      res ← log_call (Fetch "events.list" calendarId pageToken 250)
                     (events_list calendarId timeMin timeMax pageToken);
      let events :=
        match fst res with Some items => events ++ items | None => events end in
      let pageToken := snd res in
      (* Rate limit protection *)
      log_emit (Delay 100) ;;
      if more pageToken
      then events_loop fuel' calendarId timeMin timeMax pageToken events
      else ret events
  end.

Definition getEvents (fuel : nat) (calendarId timeMin timeMax : jsstring)
  (pageToken : option jsstring) : M (list event) (list cal_event) :=
  try_catch (events_loop fuel calendarId timeMin timeMax pageToken []) (ret []).

(** [event.start?.dateTime || event.start?.date] *)
Definition start_string (e : cal_event) : option jsstring :=
  match start e with
  | Some t =>
      match dateTime t with
      | Some (c :: s) => Some (c :: s)
      | _ => date t
      end
  | None => None
  end.

(** [new Date(event.start?.dateTime || event.start?.date)] *)
Definition eventDate (e : cal_event) : option Z := date_parse (start_string e).

(** [String(n)] for an integer, [NaN] for the fields of an Invalid Date. *)
Definition number_string (n : option Z) : jsstring :=
  match n with
  | Some z => decimalZ z
  | None => str "NaN"
  end.

(** [`${eventDate.getFullYear()}-${String(eventDate.getMonth() + 1).padStart(2, '0')}`] *)
Definition monthKey (e : cal_event) : jsstring :=
  number_string (getFullYear <$> eventDate e) ++ str "-"
  ++ padStart2 (number_string ((fun d => getMonth d + 1)%Z <$> eventDate e)).

(** [eventsByMonth], an object used as a map from month keys to arrays, in
    the order in which its keys were added. *)
Fixpoint push_event (key : jsstring) (e : cal_event)
  (eventsByMonth : list (jsstring * list cal_event))
  : list (jsstring * list cal_event) :=
  match eventsByMonth with
  | [] => [(key, [e])]
  | (k, es) :: rest =>
      if jsstring_eqb k key then (k, es ++ [e]) :: rest
      else (k, es) :: push_event key e rest
  end.

Definition group_by_month (events : list cal_event)
  : list (jsstring * list cal_event) :=
  fold_left (fun byMonth e => push_event (monthKey e) e byMonth) events [].

Fixpoint lookup_month (key : jsstring)
  (eventsByMonth : list (jsstring * list cal_event)) : list cal_event :=
  match eventsByMonth with
  | [] => []
  | (k, es) :: rest => if jsstring_eqb k key then es else lookup_month key rest
  end.

(** [Object.keys(eventsByMonth).sort()] *)
Definition sortedMonths (eventsByMonth : list (jsstring * list cal_event))
  : list jsstring :=
  js_sort str_compare (List.map fst eventsByMonth).

(** The month sections of the file, in the order they are written. *)
Definition month_sections (events : list cal_event)
  : list (jsstring * list cal_event) :=
  let eventsByMonth := group_by_month events in
  List.map (fun key => (key, lookup_month key eventsByMonth))
    (sortedMonths eventsByMonth).

Definition hashes (n : nat) : jsstring := concat (repeat (str "#") n).

Definition section_text (sec : jsstring * list cal_event) : jsstring :=
  [NL] ++ hashes 80 ++ [NL]
  ++ str "# " ++ monthName (fst sec) ++ [NL]
  ++ str "# Events: " ++ decimal (N.of_nat (length (snd sec))) ++ [NL]
  ++ hashes 80 ++ [NL; NL]
  ++ concat (List.map formatEvent (snd sec)).

Definition calendar_file (calendarName : jsstring) (year : option Z) : jsstring :=
  let sanitizedName := replace_all re_unsafe (str "_") calendarName in
  match year with
  | Some y =>
      if (y =? 0)%Z then str "calendar_" ++ sanitizedName ++ str ".txt"
      else str "calendar_" ++ sanitizedName ++ str "_" ++ decimalZ y ++ str ".txt"
  | None => str "calendar_" ++ sanitizedName ++ str ".txt"
  end.

Definition calendar_header (calendarName : jsstring) (count : nat)
  (year : option Z) : jsstring :=
  str "# Calendar Archive: " ++ calendarName ++ [NL]
  ++ match year with
     | Some y => if (y =? 0)%Z then []
                 else str "# Year: " ++ decimalZ y ++ [NL]
     | None => []
     end
  ++ str "# Total Events: " ++ decimal (N.of_nat count) ++ [NL]
  ++ str "# Exported: " ++ now ++ [NL]
  ++ str "#" ++ concat (repeat (str "=") 79) ++ [NL; NL].

Definition saveCalendarEvents (calendarName : jsstring)
  (events : list cal_event) (year : option Z) : M (list event) unit :=
  let fileName := calendar_file calendarName year in
  let content := calendar_header calendarName (length events) year in
  (* Group events by month for better organization *)
  let content :=
    content ++ concat (List.map section_text (month_sections events)) in
  log_emit (Write fileName content).

(** [this.calendar.calendarList.list()], which returns [res.data.items] or
    throws ([None]); the request carries no page token and no page size,
    logged as [None] and [0]. *)
Variable calendar_list : option (option (list calendar)).
(** Whether [fs.writeFile] succeeds for a file name. *)
Variable disk_ok : jsstring -> bool.
(** [new Date(year, 0, 1).toISOString()] and
    [new Date(year, 11, 31, 23, 59, 59).toISOString()] *)
Variable yearStart : Z -> jsstring.
Variable yearEnd : Z -> jsstring.

Definition getCalendarList : M (list event) (list calendar) :=
  try_catch
    (items ← log_call (Fetch "calendarList.list" [] None 0) calendar_list;
     ret (default [] items))
    (ret []).

(** [saveCalendarEvents] with the failure of [fs.writeFile], which nothing
    catches on the way. *)
Definition save_events (calendarName : jsstring) (events : list cal_event)
  (year : option Z) : M (list event) unit :=
  if disk_ok (calendar_file calendarName year)
  then saveCalendarEvents calendarName events year
  else throw.

(** [for (let year = startYear; year <= endYear; year++) { ... }] of
    [archiveCalendar], with the [turns] that are left from [year] on. *)
Fixpoint years_loop (fuel turns : nat) (calendarId calendarName : jsstring)
  (year : Z) : M (list event) unit :=
  match turns with
  | O => ret tt
  | S turns' =>
      events ← getEvents fuel calendarId (yearStart year) (yearEnd year) None;
      match events with
      | _ :: _ => save_events calendarName events (Some year)
      | [] => ret tt
      end ;;
      years_loop fuel turns' calendarId calendarName (year + 1)
  end.

(** [archiveCalendar]; [startYear] and [endYear] are
    [startDate.getFullYear()] and [endDate.getFullYear()], [startISO] and
    [endISO] are [startDate.toISOString()] and [endDate.toISOString()]. *)
Definition archiveCalendar (fuel : nat) (calendarId calendarName : jsstring)
  (startYear endYear : Z) (startISO endISO : jsstring) (byYear : bool)
  : M (list event) unit :=
  if byYear then
    (* Archive year by year *)
    years_loop fuel (Z.to_nat (endYear - startYear + 1)) calendarId calendarName
      startYear
  else
    (* Archive all at once *)
    events ← getEvents fuel calendarId startISO endISO None;
    match events with
    | _ :: _ => save_events calendarName events None
    | [] => ret tt
    end.

End Archiver.

(** *** The selection of calendars *)

(** The value of a digit in a radix. *)
Definition digit_value (radix c : N) : option N :=
  let value :=
    if is_digit c then Some (c - 48)%N
    else if is_lower c then Some (c - 87)%N
    else if is_upper c then Some (c - 55)%N
    else None in
  match value with
  | Some d => if (d <? radix)%N then Some d else None
  | None => None
  end.

(** The number written by the longest prefix of digits, if there is one. *)
Fixpoint digits_value (radix : N) (acc : option N) (s : jsstring) : option N :=
  match s with
  | c :: s' =>
      match digit_value radix c with
      | Some d =>
          digits_value radix
            (Some (match acc with Some a => a * radix + d | None => d end)%N) s'
      | None => acc
      end
  | [] => acc
  end.

(** [parseInt(s)]: leading white space, a sign, [0x] or [0X] for radix 16,
    and the digits up to the first code unit that is none; [None] is [NaN].
    Beyond 2^53 the source rounds the number, which stays beyond it. *)
Definition parseInt (s : jsstring) : option Z :=
  let s := trim_start s in
  let '(sign, s) :=
    match s with
    | 45%N :: r => ((-1)%Z, r)
    | 43%N :: r => (1%Z, r)
    | _ => (1%Z, s)
    end in
  let '(radix, s) :=
    match s with
    | 48%N :: x :: r => if (x =? 120)%N || (x =? 88)%N then (16%N, r) else (10%N, s)
    | _ => (10%N, s)
    end in
  match digits_value radix None s with
  | Some n => Some (sign * Z.of_N n)%Z
  | None => None
  end.

(** The callback of [rl.question] in [promptForCalendarSelection]: the
    calendars that an answer selects; [None] in the result is [undefined]. *)
Definition select_calendars (calendars : list calendar) (answer : jsstring)
  : list (option calendar) :=
  if negb (truthy (trim answer)) || jsstring_eqb (trim answer) (str "0")
  then List.map Some calendars (* All calendars *)
  else
    let selectedIndices :=
      List.filter
        (fun i => match i with
                  | Some z => (0 <=? z)%Z && (z <? Z.of_nat (length calendars))%Z
                  | None => false
                  end)
        (List.map (fun n => (fun z => z - 1)%Z <$> parseInt (trim n))
                  (split 44 answer)) in
    List.map (fun i => match i with
                       | Some z => nth_error calendars (Z.to_nat z)
                       | None => None
                       end)
             selectedIndices.

End CalendarArchiver.

(** * Specification vocabulary *)

(** [trim] leaves no white space at either end. *)
Definition is_trimmed (s : jsstring) : bool :=
  match s with
  | [] => true
  | c :: _ => negb (is_space c) && negb (is_space (List.last s c))
  end.

(** ** Plain text *)

(** The code units on which the patterns of the normaliser hinge: [&], [<],
    [=], [{] and [:]. *)
Definition is_markup (c : N) : bool :=
  (c =? 38)%N || (c =? 60)%N || (c =? 61)%N || (c =? 123)%N || (c =? 58)%N.

(** A code unit of a word: neither white space nor markup. *)
Definition is_plain (c : N) : bool := negb (is_space c) && negb (is_markup c).

(** The separators of words: a space, a tab or a line feed. *)
Definition is_sep (c : N) : bool := (c =? 32)%N || (c =? 9)%N || (c =? 10)%N.

(** Words separated by single separators, with a word at either end;
    [after_sep] tells whether a word has to start here. *)
Fixpoint well_spaced (after_sep : bool) (s : jsstring) : bool :=
  match s with
  | [] => negb after_sep
  | c :: s' =>
      if is_sep c then negb after_sep && well_spaced true s'
      else is_plain c && well_spaced false s'
  end.

(** Plain text: the empty string, or well spaced words on lines none of
    which the line filter drops. *)
Definition plain (s : jsstring) : bool :=
  match s with
  | [] => true
  | _ => well_spaced true s && forallb GmailArchiver.keep_line (split NL s)
  end.

(** The code unit before a position agrees with [after_sep]: inside a word
    it is a code unit of the word. *)
Definition word_before_ok (after_sep : bool) (prev : option N) : Prop :=
  after_sep = false -> exists p, prev = Some p /\ is_space p = false.

(** A class of white space. *)
Definition within_space (cs : cset) : Prop :=
  forall c, cset_mem cs c = true -> is_space c = true.

(** Text without markup: words, spaces, tabs, line feeds and carriage
    returns. *)
Definition is_text (c : N) : bool := is_plain c || is_sep c || (c =? 13)%N.

(** The same without carriage returns. *)
Definition is_unix (c : N) : bool := is_plain c || is_sep c.

Definition is_blank (c : N) : bool := (c =? 32)%N || (c =? 9)%N.

Definition head_in (p : N -> bool) (s : jsstring) : bool :=
  match s with c :: _ => p c | [] => false end.

(** No two blanks in a row. *)
Fixpoint single_blanks (s : jsstring) : bool :=
  match s with
  | [] => true
  | c :: s' => negb (is_blank c && head_in is_blank s') && single_blanks s'
  end.

(** The code unit before the position reached after the code units [w]. *)
Definition prev_after (prev : option N) (w : jsstring) : option N :=
  fold_left (fun _ c => Some c) w prev.

(** The longest prefix in a class, and what follows it. *)
Fixpoint take_while (p : N -> bool) (s : jsstring) : jsstring :=
  match s with
  | c :: s' => if p c then c :: take_while p s' else []
  | [] => []
  end.

Fixpoint drop_while (p : N -> bool) (s : jsstring) : jsstring :=
  match s with
  | c :: s' => if p c then drop_while p s' else s
  | [] => []
  end.

(** Lines that start with a word: at the start of a line ([at_start]) there
    is no white space, and no two blanks follow one another. *)
Fixpoint lines_start_clean (at_start : bool) (s : jsstring) : bool :=
  match s with
  | [] => true
  | c :: s' =>
      if is_plain c then lines_start_clean false s'
      else if (c =? 10)%N then negb at_start && lines_start_clean true s'
      else is_blank c && negb at_start && negb (head_in is_blank s')
           && lines_start_clean false s'
  end.

(** A line of well spaced words. *)
Definition line_ok (l : jsstring) : Prop :=
  well_spaced true l = true /\ ~ In NL l.

(** A class that only holds the code unit [a]. *)
Definition only (a : N) (cs : cset) : bool :=
  match cs with
  | One c => (c =? a)%N
  | OneI c => (c =? a)%N && negb (is_alpha c)
  | _ => false
  end.

(** Every match of [r] goes through the code unit [a]. *)
Fixpoint needs (a : N) (r : regex) : bool :=
  match r with
  | Chr cs => only a cs
  | Seq r1 r2 => needs a r1 || needs a r2
  | Alt r1 r2 => needs a r1 && needs a r2
  | _ => false
  end.

(** What a successful match of the matcher [m] consumed, and where the
    continuation took over; with [must], the match went through [a]. *)
Definition consumes (a : N) (must : bool) (m : cont -> cont) : Prop :=
  forall k prev s res,
    m k prev s = Some res ->
    exists w prev' s',
      s = w ++ s' /\ k prev' s' = Some res /\ (must = true -> In a w).

(** ** Paginated listings *)

Section Pages.
Context {A : Type}.

(** What a cursor-paginated method answers to a cursor, or [None] when the
    call throws. *)
Variable api : option jsstring -> option (list A * option jsstring).

(** [serves c pages]: asked from cursor [c] on, the method answers the
    pages [pages], each but the last carrying the cursor of the next. *)
Inductive serves : option jsstring -> list (list A * option jsstring) -> Prop :=
| serves_last c items next :
    api c = Some (items, next) -> more next = false ->
    serves c [(items, next)]
| serves_more c items next rest :
    api c = Some (items, next) -> more next = true ->
    serves next rest ->
    serves c ((items, next) :: rest).

(** [breaks c pages]: the method answers the pages [pages], and the call
    that follows them throws. *)
Inductive breaks : option jsstring -> list (list A * option jsstring) -> Prop :=
| breaks_now c : api c = None -> breaks c []
| breaks_later c items next rest :
    api c = Some (items, next) -> more next = true ->
    breaks next rest ->
    breaks c ((items, next) :: rest).
End Pages.

(** The items of a sequence of pages, in order. *)
Definition items_of {A} (pages : list (list A * option jsstring)) : list A :=
  concat (List.map fst pages).

(** The cursor in hand after a sequence of pages. *)
Fixpoint cursor_after {A} (cursor : option jsstring)
  (pages : list (list A * option jsstring)) : option jsstring :=
  match pages with
  | [] => cursor
  | (_, next) :: rest => cursor_after next rest
  end.

(** The log of an enumeration: one request per page, each followed by the
    events [pause]. *)
Fixpoint paced {A} (endpoint : string) (key : jsstring) (limit : N)
  (pause : list event) (cursor : option jsstring)
  (pages : list (list A * option jsstring)) : list event :=
  match pages with
  | [] => []
  | (_, next) :: rest =>
      Fetch endpoint key cursor limit :: pause
      ++ paced endpoint key limit pause next rest
  end.

(** A Slack world with further events logged. *)
Definition logged (w : SlackArchiver.world) (evs : list event) : SlackArchiver.world :=
  {| SlackArchiver.userCache := SlackArchiver.userCache w;
     SlackArchiver.events := SlackArchiver.events w ++ evs |}.

(** A Slack world with one more cache entry. *)
Definition cached (w : SlackArchiver.world) (id : jsstring)
  (u : option SlackArchiver.user) : SlackArchiver.world :=
  {| SlackArchiver.userCache := <[id := u]> (SlackArchiver.userCache w);
     SlackArchiver.events := SlackArchiver.events w |}.

(** Ascending order of the parsed timestamps. *)
Definition ts_le (parseFloat : jsstring -> Z) (a b : SlackArchiver.message) : Prop :=
  (parseFloat (SlackArchiver.ts a) <= parseFloat (SlackArchiver.ts b))%Z.

(** ** Identity lookups *)

(** A run that has not started: nothing cached, nothing logged. *)
Definition fresh : SlackArchiver.world :=
  {| SlackArchiver.userCache := ∅; SlackArchiver.events := [] |}.

(** The identity service: what it answers to a query for an identifier,
    made when the log of the run is the one given. *)
Definition identity_service : Type :=
  list event -> jsstring -> option (option SlackArchiver.user).

(** The lookups of a run, one after the other. *)
Fixpoint lookups (users_info : identity_service)
  (ids : list jsstring) : M SlackArchiver.world (list (option SlackArchiver.user)) :=
  match ids with
  | [] => mret []
  | id :: rest =>
      u ← SlackArchiver.getUserInfo users_info id;
      us ← lookups users_info rest;
      mret (u :: us)
  end.

(** The answer that the identity service gave for [id] in the log [t], which
    follows the log [before]: that of the first query for [id] that did not
    fail, if there is one. *)
Fixpoint answer_in (users_info : identity_service) (before t : list event)
  (id : jsstring) : option (option SlackArchiver.user) :=
  match t with
  | [] => None
  | e :: t' =>
      match (if is_lookup_of id e then users_info before id else None) with
      | Some u => Some u
      | None => answer_in users_info (before ++ [e]) t' id
      end
  end.

(** The lookups of [ids] as the log of the run tells them, from the log [t]
    on: a lookup of an identifier for which a query was answered asks
    nothing and returns that answer; any other lookup queries the service,
    and returns its answer, or [null] when the query fails.  The result is
    what the lookups return and the log after them. *)
Fixpoint looked_up (users_info : identity_service) (t : list event)
  (ids : list jsstring) : list (option SlackArchiver.user) * list event :=
  match ids with
  | [] => ([], t)
  | id :: rest =>
      match answer_in users_info [] t id with
      | Some u =>
          let r := looked_up users_info t rest in (u :: fst r, snd r)
      | None =>
          let r := looked_up users_info (t ++ [Lookup id]) rest in
          (match users_info t id with Some u => u | None => None end :: fst r,
           snd r)
      end
  end.

(** The number of lookups of [id] in a sequence of lookups. *)
Definition lookups_of (id : jsstring) (ids : list jsstring) : nat :=
  length (List.filter (jsstring_eqb id) ids).

(** A message whose time stamp gives a valid date. *)
Definition dated (dateStr : jsstring -> option jsstring)
  (m : SlackArchiver.message) : bool :=
  match dateStr (SlackArchiver.ts m) with Some _ => true | None => false end.

(** A record that opens with the time stamp of a message. *)
Definition stamped (dateStr : jsstring -> option jsstring)
  (m : SlackArchiver.message) (r : jsstring) : Prop :=
  exists d who rest,
    dateStr (SlackArchiver.ts m) = Some d
    /\ r = str "[" ++ d ++ str "] " ++ who ++ str ":" ++ [NL] ++ rest.

(** ** Sample services *)

Module Sample.
Import SlackArchiver.

Definition msg (t : string) (u : string) : message :=
  {| ts := str t; msg_user := Some (str u); bot_id := None; username := None;
     text := Some (str "hi"); attachments := None; files := None;
     reply_count := None |}.

(** Whole seconds, read as microseconds. *)
Definition whole_seconds (s : jsstring) : Z :=
  (1000000 * fold_left (fun acc c => 10 * acc + (Z.of_N c - 48)) s 0)%Z.

(** A history of two pages, with time stamps 3, 1 and 2. *)
Definition two_pages : jsstring -> option jsstring -> option (page message) :=
  fun _ cursor =>
    match cursor with
    | None => Some ([msg "3" "U1"; msg "1" "U1"], Some (str "c2"))
    | Some c => if jsstring_eqb c (str "c2") then Some ([msg "2" "U1"], None)
                else None
    end.

Definition two_pages_served : list (page message) :=
  [([msg "3" "U1"; msg "1" "U1"], Some (str "c2")); ([msg "2" "U1"], None)].

(** A history whose second request fails. *)
Definition second_fails : jsstring -> option jsstring -> option (page message) :=
  fun _ cursor =>
    match cursor with
    | None => Some ([msg "3" "U1"], Some (str "c2"))
    | Some _ => None
    end.

(** A history of one page. *)
Definition one_page : jsstring -> option jsstring -> option (page message) :=
  fun _ _ => Some ([msg "1" "U1"], None).

(** A listing of one page, with one conversation. *)
Definition general : conversation :=
  {| conv_id := str "C1"; conv_name := Some (str "general") |}.
Definition one_listing : option jsstring -> option (page conversation) :=
  fun _ => Some ([general], None).

(** An identity service that knows one user, one that is down, and one
    that fails the first query of a run and knows the user from then on. *)
Definition ann : user := {| real_name := Some (str "Ann"); name := Some (str "ann") |}.
Definition knows_ann : list event -> jsstring -> option (option user) :=
  fun _ id => if jsstring_eqb id (str "U1") then Some (Some ann) else None.
Definition service_down : list event -> jsstring -> option (option user) :=
  fun _ _ => None.
Definition wakes_up : list event -> jsstring -> option (option user) :=
  fun log id => match log with [] => None | _ => knows_ann log id end.

(** Lookups of two identifiers, one of them three times. *)
Definition some_lookups : list jsstring := [str "U1"; str "U9"; str "U1"; str "U1"].

(** The date of a time stamp of one digit; any other time stamp gives no
    valid date. *)
Definition iso (t : jsstring) : option jsstring :=
  match t with
  | [c] => if is_digit c then Some (str "1970-01-01 00:00:0" ++ t) else None
  | _ => None
  end.

(** Numbers beyond 2^53 do not occur in the samples. *)
Definition no_inexact (n : Z) : jsstring := [].

End Sample.

(** The log at the end of a run. *)
Definition log_of {A} (r : res SlackArchiver.world A) : list event :=
  match r with
  | Ret _ w => SlackArchiver.events w
  | Exn w => SlackArchiver.events w
  | Timeout => []
  end.

(** The file name of a conversation. *)
Definition file_of (c : SlackArchiver.conversation) : jsstring :=
  replace_all re_unsafe (str "_") (SlackArchiver.channel_name c) ++ str ".txt".

(** The cache only holds answers of the identity service: every entry is
    what the service answered to a query of the log. *)
Definition sound (users_info : identity_service) (w : SlackArchiver.world) : Prop :=
  forall id u,
    SlackArchiver.userCache w !! id = Some u ->
    exists t1 t2,
      SlackArchiver.events w = t1 ++ Lookup id :: t2 /\ users_info t1 id = Some u.

(** The cache holds, for every identifier, the answer that the log holds
    for it. *)
Definition coherent (users_info : identity_service) (w : SlackArchiver.world) : Prop :=
  forall id,
    SlackArchiver.userCache w !! id = answer_in users_info [] (SlackArchiver.events w) id.

(** No query follows a query that the service answered for the same
    identifier. *)
Definition settled (users_info : identity_service) (t : list event) : Prop :=
  forall id t1 t2,
    t = t1 ++ Lookup id :: t2 -> users_info t1 id <> None ->
    count (is_lookup_of id) t2 = 0.

(** ** Listing mail *)

Section MailPages.
Import GmailArchiver.

(** What [users.messages.list] answers for one query, to a page token and
    a page size. *)
Variable api : option jsstring -> N -> option list_page.
(** [maxResults] *)
Variable maxResults : option N.

Definition page_items (pg : list_page) : list message_ref :=
  match fst pg with Some ms => ms | None => [] end.

Definition page_size (pg : list_page) : N := N.of_nat (length (page_items pg)).

(** [goes_on token total pages token' total']: from [token], with [total]
    items in hand, the listing answers the pages [pages], none of which
    brings the total to [maxResults] and each of which carries the token of
    the next; [token'] and [total'] are the token and the total after them. *)
Inductive goes_on : option jsstring -> N -> list list_page
                    -> option jsstring -> N -> Prop :=
| goes_on_nil token total : goes_on token total [] token total
| goes_on_cons token total pg rest token' total' :
    api token (page_limit maxResults total) = Some pg ->
    reached maxResults (total + page_size pg) = false ->
    more (snd pg) = true ->
    goes_on (snd pg) (total + page_size pg) rest token' total' ->
    goes_on token total (pg :: rest) token' total'.
End MailPages.

Definition mail_items (pages : list GmailArchiver.list_page)
  : list GmailArchiver.message_ref :=
  concat (List.map page_items pages).

(** The log of a listing that goes on: request, pause, request, pause. *)
Fixpoint mail_paced (query : jsstring) (maxResults : option N)
  (token : option jsstring) (total : N) (pages : list GmailArchiver.list_page)
  : list event :=
  match pages with
  | [] => []
  | pg :: rest =>
      Fetch "users.messages.list" query token
        (GmailArchiver.page_limit maxResults total)
      :: Delay 100
      :: mail_paced query maxResults (snd pg) (total + page_size pg) rest
  end.

Module MailSample.
Import GmailArchiver.

Definition mail : message_ref := {| ref_id := str "m"; threadId := str "t" |}.

(** A mailbox of 1200 messages, listed by pages of at most the size asked
    for; the page tokens [p2] and [p3] stand for the offsets 500 and 1000. *)
Definition mailbox : list message_ref := repeat mail 1200.

Definition offset_of (token : option jsstring) : nat :=
  match token with
  | None => 0
  | Some t => if jsstring_eqb t (str "p2") then 500 else 1000
  end.

Definition token_at (offset : nat) : option jsstring :=
  if (offset <=? 500)%nat then Some (str "p2") else Some (str "p3").

Definition list_mailbox : jsstring -> option jsstring -> N -> option list_page :=
  fun _ token limit =>
    let offset := offset_of token in
    let items := firstn (N.to_nat limit) (skipn offset mailbox) in
    Some (Some items,
          if (offset + length items <? length mailbox)%nat
          then token_at (offset + length items) else None).

(** A listing whose second request fails. *)
Definition list_then_fail : jsstring -> option jsstring -> N -> option list_page :=
  fun _ token _ =>
    match token with
    | None => Some (Some [mail], Some (str "p2"))
    | Some _ => None
    end.

End MailSample.

(** The value a run returns, [d] when it does not return. *)
Definition value_of {S A} (d : A) (r : res S A) : A :=
  match r with Ret a _ => a | _ => d end.

(** ** Message parts *)

(** [needle] occurs in [hay]. *)
Fixpoint starts_with (needle hay : jsstring) : bool :=
  match needle, hay with
  | [], _ => true
  | c :: n', d :: h' => (c =? d)%N && starts_with n' h'
  | _ :: _, [] => false
  end.

Fixpoint contains (needle hay : jsstring) : bool :=
  starts_with needle hay
  || match hay with
     | [] => false
     | _ :: h' => contains needle h'
     end.

(** Every part that carries a file name has a body, as in the payloads the
    mail service returns. *)
Fixpoint bodies_present (p : GmailArchiver.part) : bool :=
  match p with
  | GmailArchiver.Part _ f b ps =>
      match f, b with
      | Some (_ :: _), None => false
      | _, _ => true
      end
      && match ps with
         | Some l => forallb bodies_present l
         | None => true
         end
  end.

(** The attachments below a part, in the order of the traversal. *)
Fixpoint attachments_below (p : GmailArchiver.part) : list GmailArchiver.attachment :=
  match p with
  | GmailArchiver.Part _ _ _ (Some l) =>
      flat_map
        (fun c =>
           default [] (GmailArchiver.own_attachment c)
           ++ match GmailArchiver.parts_of c with
              | Some _ => attachments_below c
              | None => []
              end)
        l
  | GmailArchiver.Part _ _ _ None => []
  end.

(** The texts that extraction gathers below a payload. *)
Section Gathered.
Import GmailArchiver.
Variable buffer_base64_utf8 : jsstring -> jsstring.
(** [this.includeMarkup] *)
Variable markup : bool.

Definition has_data (p : part) : bool :=
  match body_data (body_of p) with Some _ => true | None => false end.

(** The decoded data of a part, empty when it has none. *)
Definition part_text (p : part) : jsstring :=
  decodeBase64 buffer_base64_utf8 (body_data (body_of p)).

Definition is_plain_text (p : part) : bool :=
  mime_is (mimeType_of p) "text/plain" && has_data p.

Definition is_html (p : part) : bool :=
  mime_is (mimeType_of p) "text/html" && has_data p.

(** The decoded data of the payload itself. *)
Definition own_text (p : part) : list jsstring :=
  if has_data p then [part_text p] else [].

(** What a part of the payload adds, [below] being the texts gathered below
    it: the text of a plain-text part with data, whose parts are not looked
    at; the delimited block of an HTML part with data when markup is kept;
    for any other part that holds parts, the texts below it when markup is
    kept and else their concatenation, normalised; nothing otherwise. *)
Definition gathered_at (c : part) (below : list jsstring) : list jsstring :=
  if is_plain_text c then [part_text c]
  else if markup && is_html c then
    [[NL] ++ str "--- HTML Content ---" ++ [NL] ++ part_text c
     ++ [NL] ++ str "--- End HTML ---" ++ [NL]]
  else match parts_of c with
       | Some _ => if markup then below else [cleanText (Text (concat below))]
       | None => []
       end.

(** The texts gathered below a payload, in the order of the traversal. *)
Fixpoint gathered (p : part) : list jsstring :=
  match p with
  | Part _ _ b ps =>
      match body_data b with
      | Some d => [decodeBase64 buffer_base64_utf8 (Some d)]
      | None => []
      end
      ++ match ps with
         | Some l => flat_map (fun c => gathered_at c (gathered c)) l
         | None => []
         end
  end.

Definition gathered_parts (l : list part) : list jsstring :=
  flat_map (fun c => gathered_at c (gathered c)) l.

End Gathered.

Module PartSample.
Import GmailArchiver.

Definition b64_value (c : N) : N :=
  if is_upper c then c - 65
  else if is_lower c then c - 71
  else if is_digit c then c + 4
  else if (c =? 43)%N then 62
  else 63.

(** [Buffer.from(s, 'base64').toString('utf-8')] on padded base64 text whose
    payload is ASCII. *)
Fixpoint ascii_base64 (s : jsstring) : jsstring :=
  match s with
  | a :: b :: c :: d :: rest =>
      let n := ((b64_value a * 64 + b64_value b) * 64 + b64_value c) * 64
               + b64_value d in
      (if (c =? 61)%N then [n / 65536]
       else if (d =? 61)%N then [n / 65536; (n / 256) mod 256]
       else [n / 65536; (n / 256) mod 256; n mod 256])
      ++ ascii_base64 rest
  | _ => []
  end%N.

(** A PDF attached below a text part whose text is [ hi], with a leading
    space ([IGhp] in base64). *)
Definition pdf : part :=
  Part (Some (str "application/pdf")) (Some (str "a.pdf"))
       (Some {| data := None; size := Some 3%N |}) None.
Definition text_part : part :=
  Part (Some (str "text/plain")) None
       (Some {| data := Some (str "IGhp"); size := Some 3%N |}) (Some [pdf]).
Definition payload : part :=
  Part (Some (str "multipart/mixed")) None
       (Some {| data := None; size := Some 0%N |}) (Some [text_part]).

(** The same message with an HTML alternative ([PGI+] is [<b>]) and a
    forwarded message below it, whose text is [&amp;lt; hi]. *)
Definition html_alternative : part :=
  Part (Some (str "text/html")) None
       (Some {| data := Some (str "PGI+"); size := Some 3%N |}) None.
Definition quoted_text : part :=
  Part (Some (str "text/plain")) None
       (Some {| data := Some (str "JmFtcDtsdDsgaGk="); size := Some 11%N |}) None.
Definition forwarded : part :=
  Part (Some (str "message/rfc822")) None None (Some [quoted_text]).
Definition rich_payload : part :=
  Part (Some (str "multipart/mixed")) None None
       (Some [html_alternative; text_part; forwarded]).

End PartSample.

(** ** Calendar sections *)

(** Strings in ascending order of code units, the order of the default
    [sort]. *)
Definition str_lt (a b : jsstring) : Prop := (CalendarArchiver.str_compare a b < 0)%Z.
Definition str_le (a b : jsstring) : Prop := (CalendarArchiver.str_compare a b <= 0)%Z.

(** [a] starts no later than [b]. *)
Definition starts_by (date_parse : option jsstring -> option Z)
  (a b : CalendarArchiver.cal_event) : Prop :=
  match CalendarArchiver.eventDate date_parse a,
        CalendarArchiver.eventDate date_parse b with
  | Some x, Some y => (x <= y)%Z
  | _, _ => False
  end.

(** The year and month of an event that has a start date. *)
Definition year_month (date_parse : option jsstring -> option Z)
  (getFullYear getMonth : Z -> Z) (e : CalendarArchiver.cal_event)
  (y m : Z) : Prop :=
  exists d, CalendarArchiver.eventDate date_parse e = Some d
            /\ getFullYear d = y /\ getMonth d = m.

(** An event that starts in a year of four digits: it has a start date, in
    a year from 1000 to 9999 and a month from 0 (January) to 11. *)
Definition in_four_digit_year (date_parse : option jsstring -> option Z)
  (getFullYear getMonth : Z -> Z) (e : CalendarArchiver.cal_event) : Prop :=
  exists y m,
    year_month date_parse getFullYear getMonth e y m
    /\ (1000 <= y <= 9999)%Z /\ (0 <= m <= 11)%Z.

(** [a] starts in a month before the month in which [b] starts. *)
Definition month_before (date_parse : option jsstring -> option Z)
  (getFullYear getMonth : Z -> Z) (a b : CalendarArchiver.cal_event) : Prop :=
  exists y1 m1 y2 m2,
    year_month date_parse getFullYear getMonth a y1 m1
    /\ year_month date_parse getFullYear getMonth b y2 m2
    /\ (y1 < y2 \/ (y1 = y2 /\ m1 < m2))%Z.

(** [a] and [b] start in the same month of the same year. *)
Definition same_month (date_parse : option jsstring -> option Z)
  (getFullYear getMonth : Z -> Z) (a b : CalendarArchiver.cal_event) : Prop :=
  exists y m,
    year_month date_parse getFullYear getMonth a y m
    /\ year_month date_parse getFullYear getMonth b y m.

(** The sections of a file are in ascending order of the months: every
    event of a section starts in a month before every event of a later
    section. *)
Definition months_ascend (date_parse : option jsstring -> option Z)
  (getFullYear getMonth : Z -> Z)
  (sections : list (jsstring * list CalendarArchiver.cal_event)) : Prop :=
  StronglySorted
    (fun s1 s2 =>
       forall a b, In a (snd s1) -> In b (snd s2) ->
                   month_before date_parse getFullYear getMonth a b)
    sections.

(** A number of [width] digits checked against its decimal string. *)
Definition four_digits_ok (k : nat) : bool :=
  let y := N.of_nat k in
  let a3 := (y / 1000)%N in
  let a2 := ((y / 100) mod 10)%N in
  let a1 := ((y / 10) mod 10)%N in
  let a0 := (y mod 10)%N in
  jsstring_eqb (decimal y) [48 + a3; 48 + a2; 48 + a1; 48 + a0]%N
  && (a3 <? 10)%N && (a2 <? 10)%N && (a1 <? 10)%N && (a0 <? 10)%N
  && (y =? 1000 * a3 + 100 * a2 + 10 * a1 + a0)%N.

Definition two_digits_ok (k : nat) : bool :=
  let m := N.of_nat k in
  let b1 := (m / 10)%N in
  let b0 := (m mod 10)%N in
  jsstring_eqb (CalendarArchiver.padStart2 (decimal m)) [48 + b1; 48 + b0]%N
  && (b1 <? 10)%N && (b0 <? 10)%N && (m =? 10 * b1 + b0)%N.

Module CalendarSample.
Import CalendarArchiver.

(** A calendar in which the instant of the day YYYY-MM-DD is the number
    YYYYMMDD, read from the digits of the date. *)
Definition parse_day (s : option jsstring) : option Z :=
  match s with
  | Some d =>
      Some (fold_left (fun acc c => if is_digit c then 10 * acc + (Z.of_N c - 48)
                                    else acc) d 0)%Z
  | None => None
  end.
Definition year_of (d : Z) : Z := (d / 10000)%Z.
Definition month_of (d : Z) : Z := ((d / 100) mod 100 - 1)%Z.

Definition on_day (title day : string) : cal_event :=
  {| summary := Some (str title);
     start := Some {| dateTime := None; date := Some (str day) |} |}.

Definition review : cal_event := on_day "review" "2024-01-20".
Definition kickoff : cal_event := on_day "kickoff" "2024-01-10".
Definition retro : cal_event := on_day "retro" "2024-02-02".
Definition founding : cal_event := on_day "founding" "0999-12-31".
Definition jubilee : cal_event := on_day "jubilee" "1000-01-01".

(** A calendar whose events of the first quarter of 2024 are listed in two
    pages, in order of start time. *)
Definition quarter : jsstring -> jsstring -> jsstring -> option jsstring
                     -> option events_page :=
  fun _ _ _ pageToken =>
    match pageToken with
    | None => Some (Some [kickoff; review], Some (str "p2"))
    | Some _ => Some (Some [retro], None)
    end.

Definition quarter_pages : list (list cal_event * option jsstring) :=
  [([kickoff; review], Some (str "p2")); ([retro], None)].

End CalendarSample.

(** * Further vocabulary *)

(** ** Runs *)

Definition is_write (e : event) : bool :=
  match e with Write _ _ => true | _ => false end.

(** However [m] ends, the state it ends in is related by [R] to the state
    it started from. *)
Definition keeps {S A} (R : S -> S -> Prop) (m : M S A) : Prop :=
  forall s, match m s with
            | Ret _ s' => R s s'
            | Exn s' => R s s'
            | Timeout => True
            end.

(** ** The Slack run *)

(** The identifier that [formatMessage] resolves, if any. *)
Definition sender (m : SlackArchiver.message) : option jsstring :=
  match SlackArchiver.msg_user m with
  | Some (c :: u) => Some (c :: u)
  | _ => None
  end.

(** The world after a lookup of [id]: unchanged on a hit, one query further
    on a miss, with the answer cached when there is one. *)
Definition after_lookup (users_info : identity_service)
  (id : jsstring) (w : SlackArchiver.world) : SlackArchiver.world :=
  match SlackArchiver.userCache w !! id with
  | Some _ => w
  | None =>
      match users_info (SlackArchiver.events w) id with
      | Some u => cached (logged w [Lookup id]) id u
      | None => logged w [Lookup id]
      end
  end.

(** The world only grows, and nothing is written: cache entries stay as
    they are, a cache that only holds answers of the identity service still
    does, and the events added are no files. *)
Definition grows_unwritten (users_info : identity_service)
  (w w' : SlackArchiver.world) : Prop :=
  SlackArchiver.userCache w ⊆ SlackArchiver.userCache w'
  /\ (sound users_info w -> sound users_info w')
  /\ exists new, SlackArchiver.events w' = SlackArchiver.events w ++ new
                 /\ count is_write new = 0.

(** A code unit of a sanitised name. *)
Definition sanitised (c : N) : N := if is_alpha c || is_digit c then c else 95%N.

Module RunSample.
Import SlackArchiver Sample.

Definition random : conversation :=
  {| conv_id := str "C2"; conv_name := Some (str "random") |}.

(** A listing of two pages, and one whose second request fails. *)
Definition two_listings : option jsstring -> option (page conversation) :=
  fun cursor =>
    match cursor with
    | None => Some ([general], Some (str "c2"))
    | Some _ => Some ([random], None)
    end.

Definition listing_fails : option jsstring -> option (page conversation) :=
  fun cursor =>
    match cursor with
    | None => Some ([general], Some (str "c2"))
    | Some _ => None
    end.

(** A history of two pages in which two messages bear the time stamp 1. *)
Definition tied_pages : jsstring -> option jsstring -> option (page message) :=
  fun _ cursor =>
    match cursor with
    | None => Some ([msg "2" "U1"; msg "1" "U2"], Some (str "c2"))
    | Some _ => Some ([msg "1" "U1"], None)
    end.

(** A history in which one time stamp is no number. *)
Definition undated_page : jsstring -> option jsstring -> option (page message) :=
  fun _ _ => Some ([msg "x" "U1"; msg "1" "U1"], None).

End RunSample.

(** The messages stamped [v]. *)
Definition stamped_at (parseFloat : jsstring -> Z) (v : Z)
  (m : SlackArchiver.message) : bool :=
  (parseFloat (SlackArchiver.ts m) =? v)%Z.


(** ** Mail *)

(** The standard base64 alphabet for the URL-safe one: [+] for [-] and [/]
    for [_]. *)
Definition standard_alphabet (c : N) : N :=
  if (c =? 45)%N then 43%N else if (c =? 95)%N then 47%N else c.

(** A part with a file name has a body. *)
Definition named_with_body (p : GmailArchiver.part) : bool :=
  match p with
  | GmailArchiver.Part _ (Some (_ :: _)) None _ => false
  | _ => true
  end.

(** Every part below [p] that carries a file name has a body; [p] itself is
    not looked at. *)
Fixpoint named_parts_have_bodies (p : GmailArchiver.part) : bool :=
  match p with
  | GmailArchiver.Part _ _ _ (Some l) =>
      forallb (fun c => named_with_body c && named_parts_have_bodies c) l
  | GmailArchiver.Part _ _ _ None => true
  end.

(** A part that holds no parts and is not plain text with data. *)
Definition other_leaf (p : GmailArchiver.part) : bool :=
  match GmailArchiver.parts_of p with
  | Some _ => false
  | None =>
      negb (GmailArchiver.mime_is (GmailArchiver.mimeType_of p) "text/plain"
            && match GmailArchiver.body_data (GmailArchiver.body_of p) with
               | Some _ => true
               | None => false
               end)
  end.

Module ArchiveSample.
Import GmailArchiver.

(** A message in HTML only: a [multipart/alternative] payload whose one
    part is [text/html] ([PGI+aGk8L2I+], that is [<b>hi</b>]). *)
Definition html_part : part :=
  Part (Some (str "text/html")) None
       (Some {| data := Some (str "PGI-aGk8L2I-"); size := Some 9%N |}) None.
Definition html_only : part :=
  Part (Some (str "multipart/alternative")) None
       (Some {| data := None; size := Some 0%N |}) (Some [html_part]).

(** A listing of two pages, the second without a [messages] field. *)
Definition first_mail : message_ref := {| ref_id := str "m1"; threadId := str "t1" |}.
Definition second_mail : message_ref := {| ref_id := str "m2"; threadId := str "t1" |}.

Definition short_listing : jsstring -> option jsstring -> N -> option list_page :=
  fun _ token _ =>
    match token with
    | None => Some (Some [first_mail; second_mail], Some (str "p2"))
    | Some _ => Some (None, None)
    end.

End ArchiveSample.

(** Batches of [size] items, the last one excepted, which holds between
    one item and [size]. *)
Fixpoint full_but_last {A} (size : nat) (bs : list (list A)) : Prop :=
  match bs with
  | [] => True
  | b :: rest =>
      match rest with
      | [] => 1 <= length b <= size
      | _ :: _ => length b = size
      end
      /\ full_but_last size rest
  end.

(** Header names are compared in lower case: the values of the headers
    whose name is [key], in the order of the headers. *)
Definition values_named (toLowerCase : jsstring -> jsstring) (key : jsstring)
  (headers : list GmailArchiver.header) : list jsstring :=
  List.map GmailArchiver.header_value
    (List.filter
       (fun h => jsstring_eqb (toLowerCase (GmailArchiver.header_name h)) key)
       headers).

(** What [getMessage] returns for an identifier. *)
Definition fetched (messages_get : jsstring -> option (option GmailArchiver.full_message))
  (id : jsstring) : option GmailArchiver.full_message :=
  match messages_get id with Some d => d | None => None end.

(** The requests of a batch: each message is asked for once, and a pause of
    200 ms follows. *)
Definition gets (messages : list GmailArchiver.message_ref) : list event :=
  flat_map
    (fun ref => [Fetch "users.messages.get" (GmailArchiver.ref_id ref) None 0; Delay 200])
    messages.

Section Batches.
Variable format : option GmailArchiver.full_message -> option jsstring.
Variable messages_get : jsstring -> option (option GmailArchiver.full_message).
Variable now : jsstring.

(** The message of [ref], if it could be fetched, can be formatted. *)
Definition formats (ref : GmailArchiver.message_ref) : bool :=
  match fetched messages_get (GmailArchiver.ref_id ref) with
  | Some m => match format (Some m) with Some _ => true | None => false end
  | None => true
  end.

(** The records of the messages of a batch that could be fetched. *)
Definition records (messages : list GmailArchiver.message_ref) : list jsstring :=
  flat_map
    (fun ref =>
       match fetched messages_get (GmailArchiver.ref_id ref) with
       | Some m => match format (Some m) with Some r => [r] | None => [] end
       | None => []
       end)
    messages.

(** The events of a batch that is written, and of the batches from the
    index [i] on. *)
Definition batch_events (label : jsstring) (i : nat)
  (batch : list GmailArchiver.message_ref) : list event :=
  gets batch
  ++ [Write (GmailArchiver.batch_file label i)
        (GmailArchiver.batch_header now label i (length batch)
         ++ concat (records batch))].

Fixpoint batches_events (label : jsstring) (i : nat)
  (bs : list (list GmailArchiver.message_ref)) : list event :=
  match bs with
  | [] => []
  | b :: rest => batch_events label i b ++ batches_events label (S i) rest
  end.
End Batches.

Module MailboxSample.
Import GmailArchiver ArchiveSample.

(** [toLowerCase] on ASCII text. *)
Definition lower (s : jsstring) : jsstring :=
  List.map (fun c => if is_upper c then (c + 32)%N else c) s.

(** A message with two [From] headers, in different case, and the payload
    of [PartSample]: the text [ hi] and a PDF. *)
Definition note : full_message :=
  {| msg_id := Some (str "m1");
     msg_threadId := Some (str "t1");
     labelIds := Some [str "INBOX"; str "IMPORTANT"];
     msg_payload :=
       Some (Some [ {| header_name := str "From"; header_value := str "ann@example.org" |};
                    {| header_name := str "Subject"; header_value := str "Hello" |};
                    {| header_name := str "FROM"; header_value := str "bob@example.org" |} ],
             PartSample.payload) |}.

(** A mailbox that hands out [m1] and fails for every other identifier. *)
Definition inbox : jsstring -> option (option full_message) :=
  fun id => if jsstring_eqb id (str "m1") then Some (Some note) else None.

Definition spam : label :=
  {| label_id := str "SPAM"; label_name := str "SPAM"; label_type := Some (str "system") |}.
Definition trash : label :=
  {| label_id := str "TRASH"; label_name := str "TRASH"; label_type := Some (str "system") |}.

End MailboxSample.


(** ** Calendars *)

(** [events.list] for one calendar and one range of time, as a paginated
    listing: a page without [items] is an empty page. *)
Definition events_api
  (events_list : jsstring -> jsstring -> jsstring -> option jsstring
                 -> option CalendarArchiver.events_page)
  (calendarId timeMin timeMax : jsstring) (pageToken : option jsstring)
  : option (list CalendarArchiver.cal_event * option jsstring) :=
  match events_list calendarId timeMin timeMax pageToken with
  | Some (items, next) => Some (default [] items, next)
  | None => None
  end.

(** An event whose start is missing or is no date. *)
Definition undated (date_parse : option jsstring -> option Z)
  (e : CalendarArchiver.cal_event) : bool :=
  match CalendarArchiver.eventDate date_parse e with
  | Some _ => false
  | None => true
  end.

Module YearSample.
Import CalendarArchiver CalendarSample.

(** A calendar with two events in 2024, listed in one page, whose listing
    fails for 2023 and is empty for other years.  The years stand for the
    bounds of their ranges of time. *)
Definition year_events : jsstring -> jsstring -> jsstring -> option jsstring
                         -> option events_page :=
  fun _ timeMin _ _ =>
    if jsstring_eqb timeMin (str "2024") then Some (Some [kickoff; review], None)
    else if jsstring_eqb timeMin (str "2023") then None
    else Some (None, None).

Definition untimed : cal_event := {| summary := Some (str "someday"); start := None |}.

Definition primary : calendar := {| cal_id := str "primary"; cal_summary := None |}.
Definition team : calendar := {| cal_id := str "team"; cal_summary := Some (str "Team") |}.

End YearSample.

Section YearFiles.
Variable date_parse : option jsstring -> option Z.
Variable getFullYear : Z -> Z.
Variable getMonth : Z -> Z.
Variable formatEvent : CalendarArchiver.cal_event -> jsstring.
Variable monthName : jsstring -> jsstring.
Variable now : jsstring.

(** The file that [saveCalendarEvents] writes. *)
Definition calendar_written (calendarName : jsstring)
  (events : list CalendarArchiver.cal_event) (year : option Z) : event :=
  Write (CalendarArchiver.calendar_file calendarName year)
    (CalendarArchiver.calendar_header now calendarName (length events) year
     ++ concat (List.map (CalendarArchiver.section_text formatEvent monthName)
                  (CalendarArchiver.month_sections date_parse getFullYear getMonth
                     events))).
End YearFiles.


(** ** The shape of normalised text *)

(** No white space where a line starts; [at_start] tells whether a line
    starts here. *)
Fixpoint no_lead (at_start : bool) (s : jsstring) : bool :=
  match s with
  | [] => true
  | c :: s' => negb (at_start && is_space c) && no_lead (is_line_terminator c) s'
  end.

(** Two code units that may follow one another: a line terminator is not
    next to white space. *)
Definition apart (p c : N) : bool :=
  negb (is_line_terminator p && is_space c)
  && negb (is_space p && is_line_terminator c).

(** Text in which every line terminator stands between two code units that
    are no white space, and that neither starts nor ends with white space;
    [prev] is the code unit before the text. *)
Fixpoint tight (prev : option N) (s : jsstring) : bool :=
  match s with
  | [] => match prev with Some p => negb (is_space p) | None => true end
  | c :: s' =>
      match prev with Some p => apart p c | None => negb (is_space c) end
      && tight (Some c) s'
  end.

(** What is left after the longest run of white space that ends where a
    line ends, if there is such a run: the greedy match of [\s*$]. *)
Fixpoint trail_rest (s : jsstring) : option jsstring :=
  match s with
  | c :: s' =>
      if is_space c
      then first_of (trail_rest s') (if at_eol true s then Some s else None)
      else if at_eol true s then Some s else None
  | [] => Some []
  end.

(** A line that is not empty and neither starts nor ends with white
    space. *)
Definition solid (l : jsstring) : bool := truthy l && is_trimmed l.

(** A prefix under the [i] flag: [word] starts [s], case apart. *)
Fixpoint starts_with_i (word s : jsstring) : bool :=
  match word, s with
  | [], _ => true
  | a :: word', c :: s' => (upcase c =? upcase a)%N && starts_with_i word' s'
  | _ :: _, [] => false
  end.

(** The words with which a line that the filter drops may start. *)
Definition css_words : list jsstring :=
  [str "font-"; str "color:"; str "background"; str "margin"; str "padding";
   str "border"; str "width:"; str "height:"; str "display:"; str "position:";
   str "text-"].

(** * Properties *)

(** ** The text normaliser *)

Section Normaliser.
Import GmailArchiver.

Lemma trim_start_head s c t : trim_start s = c :: t -> is_space c = false.
Proof.
induction s as [|a s IH]; simpl; [discriminate|].
destruct (is_space a) eqn:E; [exact IH|].
intros [= <- _]. exact E.
Qed.

Lemma trim_start_suffix s : exists p, s = p ++ trim_start s.
Proof.
induction s as [|a s [p IH]]; simpl.
- exists []. reflexivity.
- destruct (is_space a).
  + exists (a :: p). simpl. congruence.
  + exists []. reflexivity.
Qed.

Lemma trim_is_trimmed s : is_trimmed (trim s) = true.
Proof.
unfold trim, trim_end.
destruct (trim_start_suffix (rev (trim_start s))) as [p Hp].
remember (trim_start (rev (trim_start s))) as u eqn:Hu.
assert (Hs : trim_start s = rev u ++ rev p).
{ rewrite <- rev_app_distr, <- Hp, rev_involutive. reflexivity. }
destruct (rev u) as [|c r] eqn:Hr; [reflexivity|].
assert (Hc : is_space c = false).
{ simpl in Hs. eapply trim_start_head. exact Hs. }
destruct u as [|d u']; [discriminate|].
assert (Hd : is_space d = false).
{ symmetry in Hu. eapply trim_start_head. exact Hu. }
assert (Hl : List.last (c :: r) c = d).
{ rewrite <- Hr. simpl. apply last_last. }
change (negb (is_space c) && negb (is_space (List.last (c :: r) c)) = true).
rewrite Hl, Hc, Hd. reflexivity.
Qed.

(** *** The bound on the iterations of a star *)

(** A matcher depends on its continuation only through its results. *)
Lemma star_loop_ext (m : cont -> cont) g n :
  (forall k1 k2, (forall p s, k1 p s = k2 p s) -> forall p s, m k1 p s = m k2 p s) ->
  forall k1 k2, (forall p s, k1 p s = k2 p s) ->
  forall p s, star_loop m g k1 n p s = star_loop m g k2 n p s.
Proof.
  intros Hm k1 k2 Hk. induction n as [|n IH]; intros p s; simpl.
  - rewrite Hk. reflexivity.
  - rewrite Hk. destruct g; f_equal; apply Hm; intros p' s';
      destruct (length s' <? length s)%nat; auto.
Qed.

Lemma rmatch_ext r : forall k1 k2,
  (forall p s, k1 p s = k2 p s) -> forall p s, rmatch r k1 p s = rmatch r k2 p s.
Proof.
  induction r as [|cs|r1 IH1 r2 IH2|r1 IH1 r2 IH2|g r IH|m|m|];
    intros k1 k2 Hk p s; simpl.
  - apply Hk.
  - destruct s as [|c s]; [reflexivity|]. destruct (cset_mem cs c); auto.
  - apply IH1. intros p' s'. apply IH2. exact Hk.
  - rewrite (IH1 k1 k2 Hk), (IH2 k1 k2 Hk). reflexivity.
  - apply star_loop_ext; assumption.
  - destruct (at_bol m p); auto.
  - destruct (at_eol m s); auto.
  - destruct (xorb (word_before p) (word_after s)); auto.
Qed.

(** Where the continuation always fails, so does the match. *)
Lemma rmatch_fails r : forall p s, rmatch r (fun _ _ => None) p s = None.
Proof.
  induction r as [|cs|r1 IH1 r2 IH2|r1 IH1 r2 IH2|g r IH|m|m|]; intros p s; simpl.
  - reflexivity.
  - destruct s as [|c s]; [reflexivity|]. destruct (cset_mem cs c); reflexivity.
  - rewrite (rmatch_ext r1 _ (fun _ _ => None)); [apply IH1|]. intros. apply IH2.
  - rewrite IH1, IH2. reflexivity.
  - generalize (length s) at 1. intros n. revert p s.
    induction n as [|n IHn]; intros p s; simpl.
    + destruct g; reflexivity.
    + rewrite (rmatch_ext r _ (fun _ _ => None)).
      * rewrite IH. destruct g; reflexivity.
      * intros p' s'. destruct (length s' <? length s)%nat; auto.
  - destruct (at_bol m p); reflexivity.
  - destruct (at_eol m s); reflexivity.
  - destruct (xorb (word_before p) (word_after s)); reflexivity.
Qed.

(** The bound of [rmatch] on a star loses no iteration: every iteration
    consumes a code unit, so that any larger bound gives the same match. *)
Lemma star_loop_fuel r g k : forall n1 n2 p s,
  length s <= n1 -> length s <= n2 ->
  star_loop (rmatch r) g k n1 p s = star_loop (rmatch r) g k n2 p s.
Proof.
  assert (Hend : forall n p, star_loop (rmatch r) g k n p []
                             = star_loop (rmatch r) g k 0 p []).
  { intros [|n] p; [reflexivity|]. simpl. rewrite rmatch_fails. reflexivity. }
  induction n1 as [|n1 IH]; intros n2 p s H1 H2.
  - destruct s; [|simpl in H1; lia]. symmetry. apply Hend.
  - destruct n2 as [|n2].
    + destruct s; [|simpl in H2; lia]. apply Hend.
    + simpl. destruct g; f_equal; apply rmatch_ext; intros p' s';
        destruct (length s' <? length s)%nat eqn:E; try reflexivity;
        apply Nat.ltb_lt in E; apply IH; lia.
Qed.

(** *** Patterns that cannot match *)

Lemma only_mem a cs c : only a cs = true -> cset_mem cs c = true -> c = a.
Proof.
  destruct cs; simpl; try discriminate.
  - intros H1 H2. apply N.eqb_eq in H1, H2. congruence.
  - intros H1 H2. apply andb_true_iff in H1 as [H1 H3].
    apply N.eqb_eq in H1. subst c0. apply N.eqb_eq in H2.
    unfold upcase in H2. apply negb_true_iff in H3.
    assert (Hl : is_lower a = false).
    { unfold is_alpha in H3. apply orb_false_iff in H3. tauto. }
    rewrite Hl in H2. destruct (is_lower c) eqn:Ec; [|exact H2].
    exfalso. unfold is_alpha, is_upper, is_lower, in_range in *.
    apply orb_false_iff in H3 as [H3 _].
    apply andb_true_iff in Ec as [E1 E2]. apply N.leb_le in E1, E2.
    assert (E3 : (65 <=? a)%N = true) by (apply N.leb_le; lia).
    assert (E4 : (a <=? 90)%N = true) by (apply N.leb_le; lia).
    rewrite E3, E4 in H3. discriminate.
Qed.

Lemma star_loop_consumes a m greedy :
  consumes a false m -> forall n, consumes a false (fun k => star_loop m greedy k n).
Proof.
  intros Hm n k. induction n as [|n IH]; intros prev s res H; simpl in H.
  - exists [], prev, s.
    assert (E : k prev s = Some res).
    { destruct greedy; unfold first_of in H; [exact H|].
      destruct (k prev s); [exact H|discriminate]. }
    repeat split; [exact E|discriminate].
  - assert (Hagain :
      m (fun prev' s' =>
           if (length s' <? length s)%nat then star_loop m greedy k n prev' s'
           else None) prev s = Some res ->
      exists w prev' s', s = w ++ s' /\ k prev' s' = Some res
                         /\ (false = true -> In a w)).
    { intros E. apply Hm in E as (w & p1 & s1 & -> & E & _).
      destruct (length s1 <? length (w ++ s1))%nat; [|discriminate].
      apply IH in E as (w2 & p2 & s2 & -> & E & _).
      exists (w ++ w2), p2, s2. rewrite <- app_assoc.
      repeat split; [exact E|discriminate]. }
    assert (Hstop : k prev s = Some res ->
      exists w prev' s', s = w ++ s' /\ k prev' s' = Some res
                         /\ (false = true -> In a w)).
    { intros E. exists [], prev, s. repeat split; [exact E|discriminate]. }
    unfold first_of in H. destruct greedy.
    + destruct (m _ prev s) eqn:E; [injection H as ->; apply Hagain; reflexivity|].
      apply Hstop, H.
    + destruct (k prev s) eqn:E; [injection H as ->; apply Hstop; reflexivity|].
      apply Hagain, H.
Qed.

Lemma rmatch_consumes a r : consumes a (needs a r) (rmatch r).
Proof.
  induction r as [|cs|r1 IH1 r2 IH2|r1 IH1 r2 IH2|g r IH|m|m|];
    intros k prev s res H; simpl in H.
  - exists [], prev, s. repeat split; [exact H|discriminate].
  - destruct s as [|c s]; [discriminate|].
    destruct (cset_mem cs c) eqn:E; [|discriminate].
    exists [c], (Some c), s. repeat split; [exact H|].
    simpl. intros Ho. left. eapply only_mem; eassumption.
  - apply IH1 in H as (w1 & p1 & s1 & -> & H & N1).
    apply IH2 in H as (w2 & p2 & s2 & -> & H & N2).
    exists (w1 ++ w2), p2, s2. rewrite <- app_assoc. repeat split; [exact H|].
    simpl. intros Ho. apply in_or_app. apply orb_true_iff in Ho as [Ho|Ho]; auto.
  - unfold first_of in H. simpl.
    destruct (rmatch r1 k prev s) eqn:E.
    + injection H as ->. apply IH1 in E as (w & p & s' & -> & E & N1).
      exists w, p, s'. repeat split; [exact E|].
      intros Ho. apply andb_true_iff in Ho as [Ho _]. auto.
    + apply IH2 in H as (w & p & s' & -> & E' & N2).
      exists w, p, s'. repeat split; [exact E'|].
      intros Ho. apply andb_true_iff in Ho as [_ Ho]. auto.
  - assert (Hr : consumes a false (rmatch r)).
    { intros k0 p0 s0 r0 E. apply IH in E as (w & p & s' & -> & E & _).
      exists w, p, s'. repeat split; [exact E|discriminate]. }
    exact (star_loop_consumes a (rmatch r) g Hr (length s) k prev s res H).
  - destruct (at_bol m prev); [|discriminate].
    exists [], prev, s. repeat split; [exact H|discriminate].
  - destruct (at_eol m s); [|discriminate].
    exists [], prev, s. repeat split; [exact H|discriminate].
  - destruct (xorb (word_before prev) (word_after s)); [|discriminate].
    exists [], prev, s. repeat split; [exact H|discriminate].
Qed.

Lemma match_here_without a r prev s :
  needs a r = true -> ~ In a s -> match_here r prev s = None.
Proof.
  intros Hn Hs. unfold match_here.
  destruct (rmatch r (fun _ s' => Some s') prev s) eqn:E; [|reflexivity].
  apply (rmatch_consumes a) in E as (w & p & s' & -> & _ & Hw).
  exfalso. apply Hs, in_or_app. left. apply Hw, Hn.
Qed.

Lemma replace_from_unmatched r rep : forall s prev,
  matches_from r prev s = false -> replace_from r rep 0 prev s = s.
Proof.
  induction s as [|c s IH]; intros prev H; simpl in *;
    destruct (match_here r prev _); try discriminate; [reflexivity|].
  f_equal. apply IH, H.
Qed.

Lemma matches_from_without a r : forall s prev,
  needs a r = true -> ~ In a s -> matches_from r prev s = false.
Proof.
  induction s as [|c s IH]; intros prev Hn Hs; simpl;
    rewrite (match_here_without a) by assumption; [reflexivity|].
  apply IH; [exact Hn|]. intros H. apply Hs. right. exact H.
Qed.

Lemma replace_all_without a r rep s :
  needs a r = true -> ~ In a s -> replace_all r rep s = s.
Proof.
  intros Hn Hs. apply replace_from_unmatched, (matches_from_without a); assumption.
Qed.

(** *** Plain text is left as it is *)

Lemma sep_is_space c : is_sep c = true -> is_space c = true.
Proof.
  unfold is_sep. intros H.
  apply orb_true_iff in H as [H|H]; [apply orb_true_iff in H as [H|H]|];
    apply N.eqb_eq in H; subst; reflexivity.
Qed.

Lemma plain_not_space c : is_plain c = true -> is_space c = false.
Proof.
  unfold is_plain. intros H. apply andb_true_iff in H as [H _].
  apply negb_true_iff in H. exact H.
Qed.

Lemma terminator_is_space c : is_line_terminator c = true -> is_space c = true.
Proof.
  unfold is_line_terminator. intros H.
  repeat (apply orb_true_iff in H as [H|H]); apply N.eqb_eq in H; subst; reflexivity.
Qed.

Lemma plain_not_sep c : is_plain c = true -> is_sep c = false.
Proof.
  intros H. destruct (is_sep c) eqn:E; [|reflexivity].
  apply sep_is_space in E. apply plain_not_space in H. congruence.
Qed.

(** In well spaced text, white space is followed by a code unit of a word. *)
Lemma well_spaced_next b c s :
  well_spaced b (c :: s) = true -> is_space c = true ->
  exists d t, s = d :: t /\ is_plain d = true.
Proof.
  simpl. destruct (is_sep c) eqn:E.
  - intros H _. apply andb_true_iff in H as [_ H].
    destruct s as [|d t]; [discriminate|]. exists d, t. split; [reflexivity|].
    simpl in H. destruct (is_sep d); [discriminate|].
    apply andb_true_iff in H as [H _]. exact H.
  - intros H Hs. apply andb_true_iff in H as [H _].
    apply plain_not_space in H. congruence.
Qed.

Lemma well_spaced_head c s :
  well_spaced true (c :: s) = true -> is_plain c = true.
Proof.
  simpl. destruct (is_sep c); [discriminate|].
  intros H. apply andb_true_iff in H as [H _]. exact H.
Qed.

Lemma well_spaced_tail b c s :
  well_spaced b (c :: s) = true ->
  well_spaced (is_sep c) s = true /\ word_before_ok (is_sep c) (Some c).
Proof.
  simpl. destruct (is_sep c) eqn:E; intros H; apply andb_true_iff in H as [Hc H].
  - split; [exact H|]. intros [=].
  - split; [exact H|]. intros _. exists c. split; [reflexivity|].
    apply plain_not_space, Hc.
Qed.

(** A pattern that matches at no position of well spaced text. *)
Lemma unmatched_in_well_spaced r :
  (forall b prev s, well_spaced b s = true -> word_before_ok b prev ->
                    match_here r prev s = None) ->
  forall s b prev, well_spaced b s = true -> word_before_ok b prev ->
                   matches_from r prev s = false.
Proof.
  intros Hlocal. induction s as [|c s IH]; intros b prev Hw Hp; simpl;
    rewrite (Hlocal b prev) by assumption; [reflexivity|].
  apply well_spaced_tail in Hw as [Hw Hp']. exact (IH _ _ Hw Hp').
Qed.

Lemma replace_all_well_spaced r rep y :
  (forall b prev s, well_spaced b s = true -> word_before_ok b prev ->
                    match_here r prev s = None) ->
  well_spaced true y = true -> replace_all r rep y = y.
Proof.
  intros Hlocal Hw. apply replace_from_unmatched.
  apply (unmatched_in_well_spaced r Hlocal y true None Hw). intros [=].
Qed.

Lemma no_pair_of_spaces cs cs' r b prev s :
  within_space cs -> within_space cs' -> well_spaced b s = true ->
  match_here (Seq (Chr cs) (Seq (Chr cs') r)) prev s = None.
Proof.
  intros Hcs Hcs' Hw. unfold match_here. simpl.
  destruct s as [|c s]; [reflexivity|].
  destruct (cset_mem cs c) eqn:Ec; [|reflexivity].
  destruct (well_spaced_next _ _ _ Hw (Hcs _ Ec)) as (d & t & -> & Hd).
  destruct (cset_mem cs' d) eqn:Ed; [|reflexivity].
  apply Hcs' in Ed. apply plain_not_space in Hd. congruence.
Qed.

Lemma no_leading_space b prev s :
  well_spaced b s = true -> word_before_ok b prev ->
  match_here GmailArchiver.re_lead_ws prev s = None.
Proof.
  intros Hw Hp. unfold match_here, GmailArchiver.re_lead_ws, Plus. simpl.
  destruct b.
  - destruct (at_bol true prev); [|reflexivity].
    destruct s as [|c s]; [reflexivity|].
    apply well_spaced_head, plain_not_space in Hw. rewrite Hw. reflexivity.
  - destruct (Hp eq_refl) as (p & -> & Hs). simpl.
    destruct (is_line_terminator p) eqn:E; [|reflexivity].
    apply terminator_is_space in E. congruence.
Qed.

Lemma no_trailing_space b prev s :
  well_spaced b s = true ->
  match_here GmailArchiver.re_trail_ws prev s = None.
Proof.
  intros Hw. unfold match_here, GmailArchiver.re_trail_ws, Plus. simpl.
  destruct s as [|c s]; [reflexivity|].
  destruct (is_space c) eqn:Ec; [|reflexivity].
  destruct (well_spaced_next _ _ _ Hw Ec) as (d & t & -> & Hd).
  apply plain_not_space in Hd. simpl. rewrite Hd. simpl.
  destruct (is_line_terminator d) eqn:E; [|reflexivity].
  apply terminator_is_space in E. congruence.
Qed.

Lemma within_space_newline : within_space (One NL).
Proof. intros c H. simpl in H. apply N.eqb_eq in H. subst. reflexivity. Qed.

Lemma within_space_blank : within_space Blank.
Proof.
  intros c H. simpl in H. apply orb_true_iff in H as [H|H];
    apply N.eqb_eq in H; subst; reflexivity.
Qed.

Lemma well_spaced_without b s a :
  is_space a = true \/ is_markup a = true ->
  is_sep a = false ->
  well_spaced b s = true -> ~ In a s.
Proof.
  intros Ha Hsep. revert b.
  induction s as [|c s IH]; intros b Hw; [intros []|intros [E|Hin]].
  - subst c. simpl in Hw. rewrite Hsep in Hw.
    apply andb_true_iff in Hw as [Hc _]. unfold is_plain in Hc.
    apply andb_true_iff in Hc as [H1 H2].
    apply negb_true_iff in H1, H2. destruct Ha; congruence.
  - apply well_spaced_tail in Hw as [Hw _]. exact (IH _ Hw Hin).
Qed.

Lemma join_split s : join [NL] (split NL s) = s.
Proof.
  induction s as [|c s IH]; [reflexivity|]. simpl.
  destruct (c =? NL)%N eqn:E.
  - apply N.eqb_eq in E. subst c.
    destruct (split NL s) eqn:Es.
    + simpl in IH. subst s. discriminate Es.
    + simpl. f_equal. exact IH.
  - destruct (split NL s) as [|l ls] eqn:Es.
    + simpl in IH. subst s. discriminate Es.
    + destruct ls; simpl in *; rewrite <- IH; reflexivity.
Qed.

Lemma filter_all {A} (p : A -> bool) l : forallb p l = true -> List.filter p l = l.
Proof.
  induction l as [|x l IH]; simpl; [reflexivity|].
  intros H. apply andb_true_iff in H as [Hx Hl]. rewrite Hx, IH by exact Hl.
  reflexivity.
Qed.

Lemma well_spaced_last b s c :
  well_spaced b (s ++ [c]) = true -> is_space c = false.
Proof.
  revert b. induction s as [|x s IH]; intros b H.
  - simpl in H. destruct (is_sep c); [rewrite andb_false_r in H; discriminate|].
    apply andb_true_iff in H as [H _]. apply plain_not_space, H.
  - apply well_spaced_tail in H as [H _]. exact (IH _ H).
Qed.

Lemma trim_well_spaced s : well_spaced true s = true -> trim s = s.
Proof.
  intros H. unfold trim, trim_end.
  assert (Hs : trim_start s = s).
  { destruct s as [|c s]; [reflexivity|].
    apply well_spaced_head, plain_not_space in H. simpl. rewrite H. reflexivity. }
  rewrite Hs.
  destruct (rev s) as [|c r] eqn:Er.
  - simpl. apply (f_equal (@rev N)) in Er. rewrite rev_involutive in Er. exact (eq_sym Er).
  - assert (Hc : is_space c = false).
    { apply (well_spaced_last true (rev r)).
      apply (f_equal (@rev N)) in Er. rewrite rev_involutive in Er. simpl in Er.
      rewrite <- Er. exact H. }
    simpl. rewrite Hc. rewrite <- Er. apply rev_involutive.
Qed.

Lemma decode_entities_without s :
  ~ In 38%N s -> GmailArchiver.decode_entities s = s.
Proof.
  intros H. unfold GmailArchiver.decode_entities.
  assert (Hall : forallb (fun e => needs 38%N (lit (fst e))) GmailArchiver.entities
                 = true) by reflexivity.
  induction GmailArchiver.entities as [|e l IH]; [reflexivity|].
  simpl in Hall. apply andb_true_iff in Hall as [He Hl].
  simpl. rewrite (replace_all_without 38%N) by assumption. exact (IH Hl).
Qed.

(** The normaliser leaves plain text as it is. *)
Lemma cleanText_plain y : plain y = true -> cleanText (Text y) = y.
Proof.
  destruct y as [|c0 y0]; [reflexivity|].
  set (y := c0 :: y0). unfold plain. fold y. intros H.
  apply andb_true_iff in H as [Hw Hk].
  assert (H38 : ~ In 38%N y) by (apply (well_spaced_without true); auto).
  assert (H60 : ~ In 60%N y) by (apply (well_spaced_without true); auto).
  assert (H61 : ~ In 61%N y) by (apply (well_spaced_without true); auto).
  assert (H123 : ~ In 123%N y) by (apply (well_spaced_without true); auto).
  assert (H58 : ~ In 58%N y) by (apply (well_spaced_without true); auto).
  assert (H13 : ~ In 13%N y) by (apply (well_spaced_without true); auto).
  change (clean_steps y = y). unfold clean_steps. cbv zeta.
  rewrite (replace_all_without 60%N re_style_block [] y) by (reflexivity || assumption).
  rewrite (replace_all_without 61%N re_style_dq [] y) by (reflexivity || assumption).
  rewrite (replace_all_without 61%N re_style_sq [] y) by (reflexivity || assumption).
  rewrite (replace_all_without 60%N re_script_block [] y) by (reflexivity || assumption).
  rewrite (replace_all_without 60%N re_comment [] y) by (reflexivity || assumption).
  rewrite (replace_all_without 60%N re_tag [] y) by (reflexivity || assumption).
  rewrite (replace_all_without 123%N re_css_block [] y) by (reflexivity || assumption).
  rewrite (replace_all_without 58%N re_font [] y) by (reflexivity || assumption).
  rewrite (replace_all_without 58%N re_color [] y) by (reflexivity || assumption).
  rewrite (replace_all_without 58%N re_background [] y) by (reflexivity || assumption).
  rewrite (replace_all_without 58%N re_margin [] y) by (reflexivity || assumption).
  rewrite (replace_all_without 58%N re_padding [] y) by (reflexivity || assumption).
  rewrite (replace_all_without 58%N re_border [] y) by (reflexivity || assumption).
  rewrite (replace_all_without 58%N re_width [] y) by (reflexivity || assumption).
  rewrite (replace_all_without 58%N re_height [] y) by (reflexivity || assumption).
  rewrite (replace_all_without 58%N re_display [] y) by (reflexivity || assumption).
  rewrite (replace_all_without 58%N re_position [] y) by (reflexivity || assumption).
  rewrite (replace_all_without 58%N re_text [] y) by (reflexivity || assumption).
  rewrite (replace_all_without 61%N re_qp_eq (str "=") y) by (reflexivity || assumption).
  rewrite (replace_all_without 61%N re_qp_space (str " ") y) by (reflexivity || assumption).
  rewrite (replace_all_without 61%N re_qp_soft [] y) by (reflexivity || assumption).
  rewrite decode_entities_without by assumption.
  rewrite (replace_all_without 38%N re_num_entity [] y) by (reflexivity || assumption).
  rewrite (replace_all_without 38%N re_hex_entity [] y) by (reflexivity || assumption).
  rewrite (replace_all_without 58%N re_asset_url (str "[removed styling/tracking URL]") y) by (reflexivity || assumption).
  rewrite (replace_all_without 13%N re_crlf [NL] y) by (reflexivity || assumption).
  rewrite (replace_all_without 13%N re_cr [NL] y) by (reflexivity || assumption).
  assert (E1 : replace_all re_blank_lines [NL; NL] y = y).
  { apply replace_all_well_spaced; [|exact Hw].
    intros b prev s Hs _. apply (no_pair_of_spaces _ _ _ b);
      [apply within_space_newline|apply within_space_newline|exact Hs]. }
  assert (E2 : replace_all re_blanks (str " ") y = y).
  { apply replace_all_well_spaced; [|exact Hw].
    intros b prev s Hs _. apply (no_pair_of_spaces _ _ _ b);
      [apply within_space_blank|apply within_space_blank|exact Hs]. }
  assert (E3 : replace_all re_lead_ws [] y = y).
  { apply replace_all_well_spaced; [|exact Hw].
    intros b prev s Hs Hb. apply (no_leading_space b); assumption. }
  assert (E4 : replace_all re_trail_ws [] y = y).
  { apply replace_all_well_spaced; [|exact Hw].
    intros b prev s Hs Hb. apply (no_trailing_space b); assumption. }
  rewrite E1, E2, E3, E4.
  rewrite (filter_all _ _ Hk), join_split.
  apply trim_well_spaced, Hw.
Qed.

(** *** Replacement, step by step *)

Lemma replace_from_keeps (P : N -> Prop) r rep : forall s skip prev,
  Forall P s -> Forall P rep -> Forall P (replace_from r rep skip prev s).
Proof.
  induction s as [|c s IH]; intros skip prev Hs Hr.
  - destruct skip; simpl; [|constructor].
    destruct (match_here r prev []) as [[|k]|]; rewrite ?app_nil_r; auto.
  - inversion Hs as [|? ? Hc Hs']; subst.
    destruct skip; simpl; [|apply IH; assumption].
    destruct (match_here r prev (c :: s)) as [[|k]|].
    + apply Forall_app. split; [exact Hr|]. constructor; [exact Hc|]. apply IH; assumption.
    + apply Forall_app. split; [exact Hr|]. apply IH; assumption.
    + constructor; [exact Hc|]. apply IH; assumption.
Qed.

Lemma replace_from_skip r rep s : forall w prev,
  replace_from r rep (length w) prev (w ++ s)
  = replace_from r rep 0 (prev_after prev w) s.
Proof.
  induction w as [|c w IH]; intros prev; [reflexivity|].
  simpl. rewrite IH. reflexivity.
Qed.

(** A match of the code units [w], not empty, is replaced. *)
Lemma replace_from_match r rep w s prev :
  w <> [] ->
  match_here r prev (w ++ s) = Some (length w) ->
  replace_from r rep 0 prev (w ++ s)
  = rep ++ replace_from r rep 0 (prev_after prev w) s.
Proof.
  intros Hw Hm. destruct w as [|c w]; [contradiction|].
  change (replace_from r rep 0 prev ((c :: w) ++ s))
    with (match match_here r prev ((c :: w) ++ s) with
          | Some (S k) => rep ++ replace_from r rep k (Some c) (w ++ s)
          | Some O => rep ++ c :: replace_from r rep 0 (Some c) (w ++ s)
          | None => c :: replace_from r rep 0 (Some c) (w ++ s)
          end).
  rewrite Hm. change (length (c :: w)) with (S (length w)). cbv iota.
  rewrite (replace_from_skip r rep s w (Some c)). reflexivity.
Qed.

Lemma replace_from_pass r rep c s prev :
  match_here r prev (c :: s) = None ->
  replace_from r rep 0 prev (c :: s) = c :: replace_from r rep 0 (Some c) s.
Proof. intros Hm. simpl. rewrite Hm. reflexivity. Qed.

Lemma replace_from_nil r rep prev :
  match_here r prev [] = None -> replace_from r rep 0 prev [] = [].
Proof. intros Hm. simpl. rewrite Hm. reflexivity. Qed.

Lemma take_drop p s : take_while p s ++ drop_while p s = s.
Proof.
  induction s as [|c s IH]; simpl; [reflexivity|].
  destruct (p c); simpl; [rewrite IH|]; reflexivity.
Qed.

Lemma drop_while_head p s : head_in p (drop_while p s) = false.
Proof.
  induction s as [|c s IH]; simpl; [reflexivity|].
  destruct (p c) eqn:E; [exact IH|]. simpl. exact E.
Qed.

Lemma drop_while_length p s : length (drop_while p s) <= length s.
Proof.
  induction s as [|c s IH]; simpl; [lia|]. destruct (p c); simpl; lia.
Qed.

(** A greedy star over a class, followed by nothing that can fail, takes the
    longest run. *)
Lemma star_takes_run cs : forall s n prev,
  length s <= n ->
  star_loop (rmatch (Chr cs)) true (fun _ s' => Some s') n prev s
  = Some (drop_while (cset_mem cs) s).
Proof.
  induction s as [|c s IH]; intros n prev Hn.
  - destruct n; reflexivity.
  - destruct n as [|n]; [simpl in Hn; lia|].
    change (star_loop (rmatch (Chr cs)) true (fun _ s' => Some s') (S n) prev (c :: s))
      with (first_of
              (if cset_mem cs c
               then (if (length s <? length (c :: s))%nat
                     then star_loop (rmatch (Chr cs)) true (fun _ s' => Some s') n (Some c) s
                     else None)
               else None)
              (Some (c :: s))).
    simpl drop_while. destruct (cset_mem cs c); [|reflexivity].
    assert (E : (length s <? length (c :: s))%nat = true)
      by (apply Nat.ltb_lt; simpl; lia).
    rewrite E, IH by (simpl in Hn; lia). reflexivity.
Qed.

Lemma match_here_rest r prev w s :
  rmatch r (fun _ s' => Some s') prev (w ++ s) = Some s ->
  match_here r prev (w ++ s) = Some (length w).
Proof.
  intros H. unfold match_here. rewrite H. f_equal. rewrite length_app. lia.
Qed.

Lemma unix_cases c :
  is_unix c = true -> is_plain c = true \/ c = 32%N \/ c = 9%N \/ c = 10%N.
Proof.
  unfold is_unix, is_sep. intros H.
  repeat (apply orb_true_iff in H as [H|H]); auto;
    apply N.eqb_eq in H; auto.
Qed.

Lemma plain_not_blank c : is_plain c = true -> is_blank c = false.
Proof.
  intros H. apply plain_not_space in H. unfold is_blank.
  destruct (c =? 32)%N eqn:E1; [apply N.eqb_eq in E1; subst; discriminate|].
  destruct (c =? 9)%N eqn:E2; [apply N.eqb_eq in E2; subst; discriminate|].
  reflexivity.
Qed.

Lemma plain_not_newline c : is_plain c = true -> (c =? 10)%N = false.
Proof.
  intros H. apply plain_not_space in H.
  destruct (c =? 10)%N eqn:E; [apply N.eqb_eq in E; subst; discriminate|reflexivity].
Qed.

Lemma plain_not_terminator c : is_plain c = true -> is_line_terminator c = false.
Proof.
  intros H. destruct (is_line_terminator c) eqn:E; [|reflexivity].
  apply terminator_is_space in E. apply plain_not_space in H. congruence.
Qed.

(** Carriage returns become line feeds. *)
Lemma carriage_returns_replaced : forall s prev,
  forallb is_text s = true ->
  forallb is_unix (replace_from GmailArchiver.re_cr [NL] 0 prev s) = true.
Proof.
  induction s as [|c s IH]; intros prev H; [reflexivity|].
  simpl in H. apply andb_true_iff in H as [Hc Hs].
  unfold GmailArchiver.re_cr.
  assert (Hm : match_here (Chr (One CR)) prev (c :: s)
               = if (c =? CR)%N then Some 1 else None).
  { unfold match_here. simpl. destruct (c =? CR)%N; [|reflexivity].
    f_equal. lia. }
  simpl replace_from. rewrite Hm.
  destruct (c =? CR)%N eqn:E.
  - simpl. apply IH, Hs.
  - simpl. rewrite (IH _ Hs), andb_true_r.
    unfold is_text in Hc. unfold CR in E. rewrite E in Hc.
    rewrite orb_false_r in Hc. exact Hc.
Qed.

Lemma forallb_replace_from p r rep s skip prev :
  forallb p s = true -> forallb p rep = true ->
  forallb p (replace_from r rep skip prev s) = true.
Proof.
  intros Hs Hr. apply forallb_forall. apply List.Forall_forall.
  apply replace_from_keeps; apply List.Forall_forall; apply forallb_forall; assumption.
Qed.

(** Runs of blanks become one space. *)
Lemma match_here_blanks prev s :
  match_here GmailArchiver.re_blanks prev s
  = match s with
    | c :: d :: t =>
        if is_blank c && is_blank d
        then Some (length (c :: d :: take_while is_blank t))
        else None
    | _ => None
    end.
Proof.
  destruct s as [|c [|d t]].
  - reflexivity.
  - unfold match_here. simpl. destruct (_ || _); reflexivity.
  - destruct (is_blank c) eqn:Ec; [destruct (is_blank d) eqn:Ed|]; simpl andb; cbv iota.
    + rewrite <- (take_drop is_blank t) at 1.
      change (c :: d :: take_while is_blank t ++ drop_while is_blank t)
        with ((c :: d :: take_while is_blank t) ++ drop_while is_blank t).
      apply match_here_rest.
      change ((c :: d :: take_while is_blank t) ++ drop_while is_blank t)
        with (c :: d :: take_while is_blank t ++ drop_while is_blank t).
      rewrite take_drop. unfold GmailArchiver.re_blanks, AtLeast2. simpl.
      change (cset_mem Blank c) with (is_blank c). change (cset_mem Blank d) with (is_blank d).
      fold (is_blank c). fold (is_blank d). rewrite Ec, Ed.
      apply (star_takes_run Blank). lia.
    + unfold match_here, GmailArchiver.re_blanks, AtLeast2. simpl.
      fold (is_blank c). fold (is_blank d). rewrite Ec, Ed. reflexivity.
    + unfold match_here, GmailArchiver.re_blanks, AtLeast2. simpl.
      fold (is_blank c). rewrite Ec. reflexivity.
Qed.

Lemma blanks_collapsed n : forall s prev,
  length s <= n ->
  single_blanks (replace_from GmailArchiver.re_blanks (str " ") 0 prev s) = true
  /\ (head_in is_blank s = false ->
      head_in is_blank (replace_from GmailArchiver.re_blanks (str " ") 0 prev s) = false).
Proof.
  induction n as [|n IH]; intros s prev Hn.
  { destruct s; [|simpl in Hn; lia]. split; reflexivity. }
  destruct s as [|c [|d t]].
  - split; reflexivity.
  - rewrite replace_from_pass by (rewrite match_here_blanks; reflexivity).
    rewrite replace_from_nil by (rewrite match_here_blanks; reflexivity).
    split; [|auto]. simpl. rewrite andb_false_r. reflexivity.
  - destruct (is_blank c && is_blank d) eqn:E.
    + assert (Hm : match_here GmailArchiver.re_blanks prev
                     ((c :: d :: take_while is_blank t) ++ drop_while is_blank t)
                   = Some (length (c :: d :: take_while is_blank t))).
      { simpl app. rewrite take_drop, match_here_blanks, E. reflexivity. }
      rewrite <- (take_drop is_blank t).
      change (c :: d :: take_while is_blank t ++ drop_while is_blank t)
        with ((c :: d :: take_while is_blank t) ++ drop_while is_blank t).
      assert (Hne : c :: d :: take_while is_blank t <> []) by discriminate.
      rewrite (replace_from_match _ _ _ _ _ Hne Hm).
      destruct (IH (drop_while is_blank t)
                  (prev_after prev (c :: d :: take_while is_blank t))) as [H1 H2].
      { pose proof (drop_while_length is_blank t). simpl in Hn. lia. }
      specialize (H2 (drop_while_head _ _)). split.
      * set (out := replace_from _ _ _ _ _) in *.
        change (negb (is_blank 32 && head_in is_blank out) && single_blanks out = true).
        rewrite H2, H1. reflexivity.
      * apply andb_true_iff in E as [E _]. simpl. congruence.
    + rewrite replace_from_pass by (rewrite match_here_blanks, E; reflexivity).
      destruct (IH (d :: t) (Some c)) as [H1 H2]; [simpl in *; lia|].
      split.
      * set (out := replace_from _ _ _ _ _) in *.
        change (negb (is_blank c && head_in is_blank out) && single_blanks out = true).
        rewrite H1, andb_true_r.
        destruct (is_blank c) eqn:Ec; [|reflexivity].
        simpl in E. rewrite H2 by exact E. reflexivity.
      * intros Hc. exact Hc.
Qed.

(** White space at the start of a line is removed. *)
Lemma match_here_lead prev s :
  match_here GmailArchiver.re_lead_ws prev s
  = if at_bol true prev && head_in is_space s
    then Some (length (take_while is_space s))
    else None.
Proof.
  unfold GmailArchiver.re_lead_ws, Plus.
  destruct (at_bol true prev) eqn:Eb; simpl andb.
  - destruct s as [|c t]; [unfold match_here; simpl; rewrite Eb; reflexivity|].
    simpl head_in. destruct (is_space c) eqn:Ec.
    + simpl take_while. rewrite Ec.
      rewrite <- (take_drop is_space t) at 1.
      change (c :: take_while is_space t ++ drop_while is_space t)
        with ((c :: take_while is_space t) ++ drop_while is_space t).
      apply match_here_rest.
      change ((c :: take_while is_space t) ++ drop_while is_space t)
        with (c :: take_while is_space t ++ drop_while is_space t).
      rewrite take_drop. simpl. rewrite Eb, Ec.
      apply (star_takes_run Space). lia.
    + unfold match_here. simpl. rewrite Eb, Ec. reflexivity.
  - unfold match_here. simpl. rewrite Eb. reflexivity.
Qed.

Lemma forallb_drop_while (p q : N -> bool) s :
  forallb p s = true -> forallb p (drop_while q s) = true.
Proof.
  induction s as [|c s IH]; simpl; [auto|].
  intros H. apply andb_true_iff in H as [Hc Hs].
  destruct (q c); [apply IH, Hs|]. simpl. rewrite Hc, Hs. reflexivity.
Qed.

Lemma single_blanks_drop_while q s :
  single_blanks s = true -> single_blanks (drop_while q s) = true.
Proof.
  induction s as [|c s IH]; simpl; [auto|].
  intros H. destruct (q c); [|exact H].
  apply andb_true_iff in H as [_ H]. apply IH, H.
Qed.

Lemma lines_start_clean_word b b' c s :
  is_plain c = true ->
  lines_start_clean b (c :: s) = lines_start_clean b' (c :: s).
Proof. intros H. simpl. rewrite H. reflexivity. Qed.

Lemma head_not_space_plain c s :
  forallb is_unix (c :: s) = true -> is_space c = false -> is_plain c = true.
Proof.
  simpl. intros H Hs. apply andb_true_iff in H as [H _].
  destruct (unix_cases c H) as [Hp|[E|[E|E]]]; [exact Hp| | |]; subst c; discriminate Hs.
Qed.

Lemma head_in_hd p (s s' : jsstring) :
  List.hd_error s = List.hd_error s' -> head_in p s = head_in p s'.
Proof. destruct s, s'; simpl; congruence. Qed.

Lemma leading_space_removed n : forall s prev,
  length s <= n -> forallb is_unix s = true -> single_blanks s = true ->
  lines_start_clean (at_bol true prev)
    (replace_from GmailArchiver.re_lead_ws [] 0 prev s) = true
  /\ (at_bol true prev && head_in is_space s = false ->
      List.hd_error (replace_from GmailArchiver.re_lead_ws [] 0 prev s)
      = List.hd_error s).
Proof.
  induction n as [|n IH]; intros s prev Hn Hu Hb.
  { destruct s; [|simpl in Hn; lia].
    rewrite replace_from_nil
      by (rewrite match_here_lead; simpl; rewrite andb_false_r; reflexivity).
    split; reflexivity. }
  destruct s as [|c t].
  { rewrite replace_from_nil
      by (rewrite match_here_lead; simpl; rewrite andb_false_r; reflexivity).
    split; reflexivity. }
  destruct (at_bol true prev && head_in is_space (c :: t)) eqn:E.
  - (* the white space that starts the line is removed *)
    split; [|discriminate].
    apply andb_true_iff in E as [Eb Ec]. simpl in Ec.
    set (w := take_while is_space (c :: t)).
    set (rest := drop_while is_space (c :: t)).
    assert (Hw : w <> []) by (unfold w; simpl; rewrite Ec; discriminate).
    assert (Hm : match_here GmailArchiver.re_lead_ws prev (w ++ rest) = Some (length w)).
    { unfold w, rest. rewrite take_drop, match_here_lead, Eb. simpl head_in.
      rewrite Ec. reflexivity. }
    assert (Hs : w ++ rest = c :: t) by apply take_drop.
    rewrite <- Hs, (replace_from_match _ _ _ _ _ Hw Hm), Eb. simpl app.
    destruct (IH rest (prev_after prev w)) as [H1 H2].
    { unfold rest. simpl. rewrite Ec.
      pose proof (drop_while_length is_space t). simpl in Hn. lia. }
    { apply forallb_drop_while, Hu. }
    { apply single_blanks_drop_while, Hb. }
    assert (Hh : head_in is_space rest = false) by apply drop_while_head.
    rewrite Hh, andb_false_r in H2. specialize (H2 eq_refl).
    destruct rest as [|e rest'] eqn:Er.
    + destruct (replace_from _ _ _ _ _); [reflexivity|discriminate H2].
    + destruct (replace_from _ _ _ _ _) as [|e' out]; [discriminate H2|].
      injection H2 as ->.
      assert (He : is_plain e = true).
      { apply (head_not_space_plain e rest'); [|exact Hh].
        rewrite <- Er. apply forallb_drop_while, Hu. }
      rewrite (lines_start_clean_word true (at_bol true (prev_after prev w)) e out He).
      exact H1.
  - (* nothing to remove here *)
    assert (Hm : match_here GmailArchiver.re_lead_ws prev (c :: t) = None)
      by (rewrite match_here_lead, E; reflexivity).
    rewrite (replace_from_pass _ _ _ _ _ Hm). split; [|reflexivity].
    simpl in Hu. apply andb_true_iff in Hu as [Hc Hu].
    simpl in Hb. apply andb_true_iff in Hb as [Hcb Hb].
    destruct (IH t (Some c)) as [H1 H2]; [simpl in Hn; lia|exact Hu|exact Hb|].
    set (out := replace_from _ _ _ _ _) in *.
    destruct (unix_cases c Hc) as [Hp|Hsep].
    + simpl. rewrite Hp.
      simpl in H1. rewrite (plain_not_terminator c Hp) in H1. exact H1.
    + assert (Hsp : is_space c = true) by (destruct Hsep as [-> | [-> | ->]]; reflexivity).
      simpl in E. rewrite Hsp, andb_true_r in E.
      assert (Hnp : is_plain c = false).
      { unfold is_plain. rewrite Hsp. reflexivity. }
      simpl. rewrite Hnp, E.
      apply negb_true_iff in Hcb.
      destruct Hsep as [-> | [-> | ->]].
      * assert (Hh : head_in is_blank out = head_in is_blank t)
          by (apply head_in_hd, H2; reflexivity).
        change (lines_start_clean false out = true) in H1.
        change (negb (head_in is_blank out) && lines_start_clean false out = true).
        simpl in Hcb. rewrite Hh, Hcb, H1. reflexivity.
      * assert (Hh : head_in is_blank out = head_in is_blank t)
          by (apply head_in_hd, H2; reflexivity).
        change (lines_start_clean false out = true) in H1.
        change (negb (head_in is_blank out) && lines_start_clean false out = true).
        simpl in Hcb. rewrite Hh, Hcb, H1. reflexivity.
      * exact H1.
Qed.

(** White space at the end of a line is removed. *)
Lemma trail_nil prev : match_here GmailArchiver.re_trail_ws prev [] = None.
Proof. reflexivity. Qed.

Lemma trail_word prev c s :
  is_space c = false -> match_here GmailArchiver.re_trail_ws prev (c :: s) = None.
Proof.
  intros Hc. unfold match_here, GmailArchiver.re_trail_ws, Plus. simpl.
  rewrite Hc. reflexivity.
Qed.

Lemma trail_end prev c :
  is_space c = true -> match_here GmailArchiver.re_trail_ws prev [c] = Some 1.
Proof.
  intros Hc. unfold match_here, GmailArchiver.re_trail_ws, Plus. simpl.
  rewrite Hc. reflexivity.
Qed.

Lemma not_space_not_terminator e : is_space e = false -> is_line_terminator e = false.
Proof.
  intros H. destruct (is_line_terminator e) eqn:E; [|reflexivity].
  apply terminator_is_space in E. congruence.
Qed.

Lemma trail_before_word prev c e s :
  is_space e = false ->
  match_here GmailArchiver.re_trail_ws prev (c :: e :: s) = None.
Proof.
  intros He. unfold match_here, GmailArchiver.re_trail_ws, Plus. simpl.
  rewrite He, (not_space_not_terminator e He). simpl.
  destruct (is_space c); reflexivity.
Qed.

Lemma trail_before_last_newline prev c :
  is_space c = true ->
  match_here GmailArchiver.re_trail_ws prev [c; 10%N] = Some 2.
Proof.
  intros Hc. unfold match_here, GmailArchiver.re_trail_ws, Plus. simpl.
  rewrite Hc. reflexivity.
Qed.

Lemma trail_before_newline prev c f s :
  is_space c = true -> is_space f = false ->
  match_here GmailArchiver.re_trail_ws prev (c :: 10%N :: f :: s) = Some 1.
Proof.
  intros Hc Hf. unfold match_here, GmailArchiver.re_trail_ws, Plus. simpl.
  rewrite Hc, Hf, (not_space_not_terminator f Hf). simpl.
  destruct (_ <? _)%nat; simpl; f_equal; lia.
Qed.

Lemma well_spaced_word b b' c s :
  is_plain c = true -> well_spaced b (c :: s) = well_spaced b' (c :: s).
Proof. intros H. simpl. rewrite (plain_not_sep c H). reflexivity. Qed.

Lemma lines_start_clean_head s :
  lines_start_clean true s = true -> s = [] \/ head_in is_plain s = true.
Proof.
  destruct s as [|c s]; [auto|]. simpl. destruct (is_plain c); [auto|].
  destruct (c =? 10)%N; [discriminate|]. rewrite andb_false_r. discriminate.
Qed.

Lemma lines_start_clean_sep b c s :
  is_plain c = false ->
  lines_start_clean b (c :: s)
  = if (c =? 10)%N then negb b && lines_start_clean true s
    else is_blank c && negb b && negb (head_in is_blank s)
         && lines_start_clean false s.
Proof. intros H. simpl. rewrite H. reflexivity. Qed.

Lemma trailing_space_removed n : forall s prev b,
  length s <= n -> forallb is_unix s = true -> lines_start_clean b s = true ->
  well_spaced false (replace_from GmailArchiver.re_trail_ws [] 0 prev s) = true
  /\ (head_in is_plain s = true ->
      List.hd_error (replace_from GmailArchiver.re_trail_ws [] 0 prev s)
      = List.hd_error s)
  /\ (s = [] -> replace_from GmailArchiver.re_trail_ws [] 0 prev s = []).
Proof.
  induction n as [|n IH]; intros s prev b Hn Hu Hl.
  { destruct s; [|simpl in Hn; lia]. repeat split; discriminate. }
  destruct s as [|c s1]; [repeat split; discriminate|].
  assert (Hu' := Hu). simpl in Hu'. apply andb_true_iff in Hu' as [Hc Hu1].
  assert (Hlen : length s1 <= n) by (simpl in Hn; lia).
  destruct (unix_cases c Hc) as [Hp|Hsep].
  - (* a code unit of a word *)
    rewrite (replace_from_pass _ _ _ _ _ (trail_word prev c s1 (plain_not_space c Hp))).
    simpl in Hl. rewrite Hp in Hl.
    destruct (IH s1 (Some c) false Hlen Hu1 Hl) as (H1 & _ & _).
    split; [|split; [reflexivity|discriminate]].
    simpl. rewrite (plain_not_sep c Hp), Hp. exact H1.
  - assert (Hsp : is_space c = true) by (destruct Hsep as [-> | [-> | ->]]; reflexivity).
    assert (Hnp : is_plain c = false) by (unfold is_plain; rewrite Hsp; reflexivity).
    assert (Hhead : head_in is_plain (c :: s1) = true -> False)
      by (simpl; rewrite Hnp; discriminate).
    destruct s1 as [|e s2].
    { (* white space that ends the text *)
      change [c] with ([c] ++ []).
      assert (Hne : [c] <> []) by discriminate.
      rewrite (replace_from_match _ _ [c] [] prev Hne (trail_end prev c Hsp)).
      repeat split; try discriminate. intros H. destruct (Hhead H). }
    assert (Hu2 : forallb is_unix s2 = true).
    { simpl in Hu1. apply andb_true_iff in Hu1 as [_ H]. exact H. }
    assert (He : is_unix e = true).
    { simpl in Hu1. apply andb_true_iff in Hu1 as [H _]. exact H. }
    rewrite (lines_start_clean_sep b c (e :: s2) Hnp) in Hl.
    assert (Hnext : is_plain e = true \/ (e = 10%N /\ is_blank c = true)).
    { destruct (c =? 10)%N eqn:Ec.
      - left. apply andb_true_iff in Hl as [_ Hl].
        destruct (lines_start_clean_head _ Hl) as [|H]; [discriminate|exact H].
      - apply andb_true_iff in Hl as [Hl _]. apply andb_true_iff in Hl as [Hl Hb].
        apply andb_true_iff in Hl as [Hcb _]. simpl in Hb. apply negb_true_iff in Hb.
        destruct (unix_cases e He) as [H|[E|[E|E]]]; auto; subst e; discriminate Hb. }
    destruct Hnext as [Hpe|[-> Hcb]].
    + (* white space before a word stays *)
      rewrite (replace_from_pass _ _ _ _ _
                 (trail_before_word prev c e s2 (plain_not_space e Hpe))).
      assert (Hl1 : lines_start_clean false (e :: s2) = true).
      { destruct (c =? 10)%N.
        - apply andb_true_iff in Hl as [_ Hl].
          rewrite (lines_start_clean_word false true e s2 Hpe). exact Hl.
        - apply andb_true_iff in Hl as [_ Hl]. exact Hl. }
      destruct (IH (e :: s2) (Some c) false Hlen Hu1 Hl1) as (H1 & H2 & _).
      specialize (H2 Hpe).
      destruct (replace_from _ _ _ _ (e :: s2)) as [|e' out]; [discriminate H2|].
      injection H2 as ->.
      split; [|split; [intros H; destruct (Hhead H)|discriminate]].
      change (well_spaced false (c :: e :: out))
        with (if is_sep c then negb false && well_spaced true (e :: out)
              else is_plain c && well_spaced false (e :: out)).
      assert (Hs : is_sep c = true) by (destruct Hsep as [-> | [-> | ->]]; reflexivity).
      rewrite Hs, (well_spaced_word true false e out Hpe). exact H1.
    + (* a blank before a line feed goes *)
      assert (Hl1 : lines_start_clean false (10%N :: s2) = true).
      { destruct (c =? 10)%N eqn:Ec.
        - apply N.eqb_eq in Ec. subst c. discriminate Hcb.
        - apply andb_true_iff in Hl as [_ Hl]. exact Hl. }
      assert (Hl2 : lines_start_clean true s2 = true) by exact Hl1.
      destruct s2 as [|f s3].
      * change [c; 10%N] with ([c; 10%N] ++ []).
        assert (Hne : [c; 10%N] <> []) by discriminate.
        rewrite (replace_from_match _ _ [c; 10%N] [] prev Hne
                   (trail_before_last_newline prev c Hsp)).
        repeat split; try discriminate. intros H. destruct (Hhead H).
      * assert (Hpf : is_plain f = true).
        { destruct (lines_start_clean_head _ Hl2) as [|H]; [discriminate|exact H]. }
        change (c :: 10%N :: f :: s3) with ([c] ++ 10%N :: f :: s3).
        assert (Hne : [c] <> []) by discriminate.
        rewrite (replace_from_match _ _ [c] (10%N :: f :: s3) prev Hne
                   (trail_before_newline prev c f s3 Hsp (plain_not_space f Hpf))).
        destruct (IH (10%N :: f :: s3) (prev_after prev [c]) false Hlen Hu1 Hl1)
          as (H1 & _ & _).
        split; [exact H1|]. split; [intros H; destruct (Hhead H)|discriminate].
Qed.

(** The lines of well spaced text. *)
Lemma split_lines t : forall b,
  well_spaced b t = true ->
  exists l0 ls,
    split NL t = l0 :: ls /\ well_spaced b l0 = true /\ ~ In NL l0
    /\ Forall line_ok ls.
Proof.
  induction t as [|c t IH]; intros b H.
  - exists [], []. simpl in *. repeat split; auto.
  - destruct (well_spaced_tail _ _ _ H) as [Ht _].
    destruct (IH _ Ht) as (l0 & ls & Es & Hl0 & Hn0 & Hls).
    simpl in H. simpl split. rewrite Es.
    destruct (is_sep c) eqn:Esep.
    + apply andb_true_iff in H as [Hb _]. apply negb_true_iff in Hb. subst b.
      destruct (c =? NL)%N eqn:Ec.
      * exists [], (l0 :: ls). repeat split; auto. constructor; [split; assumption|exact Hls].
      * exists (c :: l0), ls. repeat split; auto.
        -- simpl. rewrite Esep, Hl0. reflexivity.
        -- intros [E|Hin]; [|exact (Hn0 Hin)].
           subst c. rewrite N.eqb_refl in Ec. discriminate.
    + apply andb_true_iff in H as [Hc _].
      assert (Ec : (c =? NL)%N = false) by apply (plain_not_newline c Hc).
      rewrite Ec. exists (c :: l0), ls. repeat split; auto.
      * simpl. rewrite Esep, Hc, Hl0. reflexivity.
      * intros [E|Hin]; [|exact (Hn0 Hin)].
        subst c. rewrite N.eqb_refl in Ec. discriminate.
Qed.

Lemma split_one_line l : ~ In NL l -> split NL l = [l].
Proof.
  induction l as [|c l IH]; intros H; [reflexivity|].
  simpl. destruct (c =? NL)%N eqn:E.
  - apply N.eqb_eq in E. exfalso. apply H. left. exact E.
  - rewrite IH; [reflexivity|]. intros Hin. apply H. right. exact Hin.
Qed.

Lemma split_first_line l rest :
  ~ In NL l -> split NL (l ++ NL :: rest) = l :: split NL rest.
Proof.
  induction l as [|c l IH]; intros H.
  - reflexivity.
  - simpl. destruct (c =? NL)%N eqn:E.
    + apply N.eqb_eq in E. exfalso. apply H. left. exact E.
    + rewrite IH; [reflexivity|]. intros Hin. apply H. right. exact Hin.
Qed.

Lemma well_spaced_lines l rest : forall b,
  well_spaced b l = true -> well_spaced true rest = true ->
  well_spaced b (l ++ NL :: rest) = true.
Proof.
  induction l as [|c l IH]; intros b Hl Hr.
  - simpl in *. rewrite Hl, Hr. reflexivity.
  - destruct (well_spaced_tail _ _ _ Hl) as [Ht _]. specialize (IH _ Ht Hr).
    simpl in *. destruct (is_sep c).
    + apply andb_true_iff in Hl as [Hb _]. rewrite Hb, IH. reflexivity.
    + apply andb_true_iff in Hl as [Hc _]. rewrite Hc, IH. reflexivity.
Qed.

Lemma join_lines K :
  K <> [] -> Forall line_ok K ->
  well_spaced true (join [NL] K) = true /\ split NL (join [NL] K) = K.
Proof.
  induction K as [|l K IH]; intros Hne H; [contradiction|].
  inversion H as [|? ? [Hl Hn] HK]; subst.
  destruct K as [|l2 K].
  - simpl. split; [exact Hl|apply split_one_line, Hn].
  - destruct (IH ltac:(discriminate) HK) as [Hw Hs].
    change (join [NL] (l :: l2 :: K)) with (l ++ NL :: join [NL] (l2 :: K)).
    split.
    + apply well_spaced_lines; assumption.
    + rewrite split_first_line by exact Hn. rewrite Hs. reflexivity.
Qed.

Lemma forallb_filter_self {A} (p : A -> bool) l : forallb p (List.filter p l) = true.
Proof.
  induction l as [|x l IH]; simpl; [reflexivity|].
  destruct (p x) eqn:E; [simpl; rewrite E|]; exact IH.
Qed.

Lemma Forall_filter_keep {A} (P : A -> Prop) p l :
  Forall P l -> Forall P (List.filter p l).
Proof.
  induction 1 as [|x l Hx Hl IH]; simpl; [constructor|].
  destruct (p x); [constructor; assumption|exact IH].
Qed.

Lemma text_without a x : is_text a = false -> forallb is_text x = true -> ~ In a x.
Proof.
  intros Ha Hx Hin. rewrite forallb_forall in Hx. specialize (Hx a Hin). congruence.
Qed.

(** The white space of text without markup, after the steps that normalise
    it: nothing is left, or well spaced words. *)
Lemma white_space_normalised x :
  forallb is_text x = true ->
  let t := replace_all re_trail_ws []
             (replace_all re_lead_ws []
                (replace_all re_blanks (str " ")
                   (replace_all re_blank_lines [NL; NL]
                      (replace_all re_cr [NL]
                         (replace_all re_crlf [NL] x))))) in
  t = [] \/ well_spaced true t = true.
Proof.
  intros Hx.
  set (x1 := replace_all re_crlf [NL] x).
  set (x2 := replace_all re_cr [NL] x1).
  set (x3 := replace_all re_blank_lines [NL; NL] x2).
  set (x4 := replace_all re_blanks (str " ") x3).
  set (x5 := replace_all re_lead_ws [] x4).
  assert (H1 : forallb is_text x1 = true)
    by (apply forallb_replace_from; [exact Hx|reflexivity]).
  assert (H2 : forallb is_unix x2 = true)
    by (apply carriage_returns_replaced, H1).
  assert (H3 : forallb is_unix x3 = true)
    by (apply forallb_replace_from; [exact H2|reflexivity]).
  assert (H4 : forallb is_unix x4 = true)
    by (apply forallb_replace_from; [exact H3|reflexivity]).
  assert (H4b : single_blanks x4 = true)
    by (apply (blanks_collapsed (length x3) x3 None); lia).
  assert (H5 : forallb is_unix x5 = true)
    by (apply forallb_replace_from; [exact H4|reflexivity]).
  assert (H5l : lines_start_clean true x5 = true).
  { apply (leading_space_removed (length x4) x4 None); [lia|exact H4|exact H4b]. }
  cbv zeta.
  destruct (trailing_space_removed (length x5) x5 None true (Nat.le_refl _) H5 H5l)
    as (Hw & Hh & Hnil).
  fold (replace_all re_trail_ws [] x5) in Hw, Hh, Hnil.
  destruct (lines_start_clean_head _ H5l) as [E|Hp].
  - left. apply Hnil, E.
  - right. specialize (Hh Hp).
    destruct x5 as [|e x5']; [discriminate Hp|].
    destruct (replace_all re_trail_ws [] (e :: x5')) as [|e' t]; [discriminate Hh|].
    injection Hh as ->. simpl in Hp.
    rewrite (well_spaced_word true false e t Hp). exact Hw.
Qed.

Lemma plain_intro s :
  well_spaced true s = true -> forallb keep_line (split NL s) = true ->
  plain s = true.
Proof.
  intros H1 H2. destruct s; [reflexivity|]. unfold plain. rewrite H1, H2. reflexivity.
Qed.

(** The normal form of text without markup is plain. *)
Lemma cleanText_text_is_plain x :
  forallb is_text x = true -> plain (cleanText (Text x)) = true.
Proof.
  intros Hx. destruct x as [|c0 x0]; [reflexivity|].
  set (x := c0 :: x0) in *.
  assert (H38 : ~ In 38%N x) by (apply text_without; [reflexivity|exact Hx]).
  assert (H60 : ~ In 60%N x) by (apply text_without; [reflexivity|exact Hx]).
  assert (H61 : ~ In 61%N x) by (apply text_without; [reflexivity|exact Hx]).
  assert (H123 : ~ In 123%N x) by (apply text_without; [reflexivity|exact Hx]).
  assert (H58 : ~ In 58%N x) by (apply text_without; [reflexivity|exact Hx]).
  change (plain (clean_steps x) = true). unfold clean_steps. cbv zeta.
  rewrite (replace_all_without 60%N re_style_block [] x) by (reflexivity || assumption).
  rewrite (replace_all_without 61%N re_style_dq [] x) by (reflexivity || assumption).
  rewrite (replace_all_without 61%N re_style_sq [] x) by (reflexivity || assumption).
  rewrite (replace_all_without 60%N re_script_block [] x) by (reflexivity || assumption).
  rewrite (replace_all_without 60%N re_comment [] x) by (reflexivity || assumption).
  rewrite (replace_all_without 60%N re_tag [] x) by (reflexivity || assumption).
  rewrite (replace_all_without 123%N re_css_block [] x) by (reflexivity || assumption).
  rewrite (replace_all_without 58%N re_font [] x) by (reflexivity || assumption).
  rewrite (replace_all_without 58%N re_color [] x) by (reflexivity || assumption).
  rewrite (replace_all_without 58%N re_background [] x) by (reflexivity || assumption).
  rewrite (replace_all_without 58%N re_margin [] x) by (reflexivity || assumption).
  rewrite (replace_all_without 58%N re_padding [] x) by (reflexivity || assumption).
  rewrite (replace_all_without 58%N re_border [] x) by (reflexivity || assumption).
  rewrite (replace_all_without 58%N re_width [] x) by (reflexivity || assumption).
  rewrite (replace_all_without 58%N re_height [] x) by (reflexivity || assumption).
  rewrite (replace_all_without 58%N re_display [] x) by (reflexivity || assumption).
  rewrite (replace_all_without 58%N re_position [] x) by (reflexivity || assumption).
  rewrite (replace_all_without 58%N re_text [] x) by (reflexivity || assumption).
  rewrite (replace_all_without 61%N re_qp_eq (str "=") x) by (reflexivity || assumption).
  rewrite (replace_all_without 61%N re_qp_space (str " ") x) by (reflexivity || assumption).
  rewrite (replace_all_without 61%N re_qp_soft [] x) by (reflexivity || assumption).
  rewrite decode_entities_without by assumption.
  rewrite (replace_all_without 38%N re_num_entity [] x) by (reflexivity || assumption).
  rewrite (replace_all_without 38%N re_hex_entity [] x) by (reflexivity || assumption).
  rewrite (replace_all_without 58%N re_asset_url (str "[removed styling/tracking URL]") x)
    by (reflexivity || assumption).
  destruct (white_space_normalised x Hx) as [E|Hw]; cbv zeta in *.
  - rewrite E. reflexivity.
  - set (t := replace_all re_trail_ws [] _) in *.
    destruct (split_lines t true Hw) as (l0 & ls & Es & Hl0 & Hn0 & Hls).
    assert (HL : Forall line_ok (split NL t)).
    { rewrite Es. constructor; [split; assumption|exact Hls]. }
    set (K := List.filter keep_line (split NL t)).
    assert (HK : Forall line_ok K) by (apply Forall_filter_keep, HL).
    assert (Hkeep : forallb keep_line K = true) by apply forallb_filter_self.
    destruct K as [|l K'] eqn:EK; [reflexivity|].
    destruct (join_lines (l :: K') ltac:(discriminate) HK) as [Hu Hs].
    rewrite (trim_well_spaced _ Hu).
    apply plain_intro; [exact Hu|]. rewrite Hs. exact Hkeep.
Qed.

(** C2, as far as the code goes: the normaliser is idempotent on text
    without markup (no [&], [<], [=], [{] or [:], and no white space but
    spaces, tabs, line feeds and carriage returns), and more generally on
    every input that it turns into plain text, which it then leaves as it
    is. *)
Theorem cleanText_idempotent_on_text x :
  forallb is_text x = true \/ plain (cleanText (Text x)) = true ->
  cleanText (Text (cleanText (Text x))) = cleanText (Text x).
Proof.
  intros [H|H]; apply cleanText_plain; [|exact H].
  apply cleanText_text_is_plain, H.
Qed.

Lemma cleanText_idempotent_on_text_witness :
  (forallb is_text (str "  Hello   world  " ++ [CR; NL; NL] ++ str "margin" ++ [NL; 9%N]
                    ++ str "bye ") = true
   \/ plain (cleanText (Text (str "  Hello   world  " ++ [CR; NL; NL] ++ str "margin"
                               ++ [NL; 9%N] ++ str "bye "))) = true)
  /\ cleanText (Text (cleanText (Text (str "  Hello   world  " ++ [CR; NL; NL]
                                       ++ str "margin" ++ [NL; 9%N] ++ str "bye "))))
     = cleanText (Text (str "  Hello   world  " ++ [CR; NL; NL] ++ str "margin"
                        ++ [NL; 9%N] ++ str "bye ")).
Proof.
  assert (H : forallb is_text (str "  Hello   world  " ++ [CR; NL; NL] ++ str "margin"
                               ++ [NL; 9%N] ++ str "bye ") = true)
    by (vm_compute; reflexivity).
  split; [left; exact H|].
  exact (cleanText_idempotent_on_text _ (or_introl H)).
Defined.

(** The sample above, and a marked up one, run: both normal forms are plain. *)
Example cleanText_samples :
  cleanText (Text (str "  Hello   world  " ++ [CR; NL; NL] ++ str "margin"
                   ++ [NL; 9%N] ++ str "bye "))
  = str "Hello world" ++ [NL] ++ str "bye"
  /\ cleanText (Text (str "<p style='color: red'>Hello   <b>world</b></p>"))
     = str "Hello world"
  /\ plain (str "Hello world") = true.
Proof. vm_compute. repeat split. Qed.

(** C9: on the input [&amp;&lt;&gt;] the normaliser returns exactly [&<>]. *)
Theorem cleanText_decodes_entities :
cleanText (Text (str "&amp;&lt;&gt;")) = str "&<>".
Proof. vm_compute. reflexivity. Qed.

(** C10: [cleanText] returns a string on every argument, the empty string on
  [null], [undefined] and [''], and its result never starts or ends with
  white space. *)
Theorem cleanText_total_trimmed :
cleanText Undefined = [] /\ cleanText Null = [] /\ cleanText (Text []) = []
/\ forall x, exists s, cleanText x = s /\ is_trimmed s = true.
Proof.
repeat split; try reflexivity.
intros x. eexists. split; [reflexivity|].
destruct x as [| |[|c s]]; try reflexivity.
unfold cleanText, clean_steps. apply trim_is_trimmed.
Qed.

(** C2, refuted as stated: normalising [&amp;lt;] gives [&lt;], which a
  second pass decodes to [<]. *)
Lemma cleanText_not_idempotent :
cleanText (Text (str "&amp;lt;")) = str "&lt;"
/\ cleanText (Text (cleanText (Text (str "&amp;lt;")))) = str "<"
/\ ~ (forall x, cleanText (Text (cleanText (Text x))) = cleanText (Text x)).
Proof.
assert (H1 : cleanText (Text (str "&amp;lt;")) = str "&lt;")
  by (vm_compute; reflexivity).
assert (H2 : cleanText (Text (str "&lt;")) = str "<")
  by (vm_compute; reflexivity).
split; [exact H1|]. split; [rewrite H1; exact H2|].
intros H. specialize (H (str "&amp;lt;")).
rewrite H1, H2 in H. discriminate H.
Qed.

End Normaliser.

(** ** Insertion sort *)

Section JsSortFacts.
Context {A : Type} (cmp : A -> A -> Z) (le : A -> A -> Prop).
Hypothesis cmp_le : forall a b, (cmp a b <= 0)%Z -> le a b.
Hypothesis cmp_gt : forall a b, (0 < cmp a b)%Z -> le b a.
Hypothesis le_trans : forall a b c, le a b -> le b c -> le a c.

Lemma sort_insert_perm x l : Permutation (x :: l) (sort_insert cmp x l).
Proof using Type.
  induction l as [|y l IH]; simpl; [reflexivity|].
  destruct (cmp x y <=? 0)%Z; [reflexivity|].
  rewrite perm_swap. constructor. exact IH.
Qed.

Lemma js_sort_perm l : Permutation l (js_sort cmp l).
Proof using Type.
  induction l as [|x l IH]; simpl; [constructor|].
  etransitivity; [|apply sort_insert_perm]. constructor. exact IH.
Qed.

Lemma sort_insert_sorted x l :
  StronglySorted le l -> StronglySorted le (sort_insert cmp x l).
Proof using cmp_le cmp_gt le_trans.
  induction 1 as [|y l Hs IH Hy]; simpl.
  - repeat constructor.
  - destruct (cmp x y <=? 0)%Z eqn:E.
    + apply Z.leb_le in E. apply cmp_le in E.
      constructor; [constructor; assumption|].
      constructor; [exact E|].
      eapply List.Forall_impl; [|exact Hy]. intros z Hz. eapply le_trans; eassumption.
    + apply Z.leb_gt in E. apply cmp_gt in E.
      constructor; [exact IH|].
      eapply Permutation_Forall; [apply sort_insert_perm|].
      constructor; [exact E|exact Hy].
Qed.

Lemma js_sort_sorted l : StronglySorted le (js_sort cmp l).
Proof using cmp_le cmp_gt le_trans.
  induction l as [|x l IH]; simpl; [constructor|].
  apply sort_insert_sorted. exact IH.
Qed.
End JsSortFacts.

(** ** The Slack archiver *)

Section SlackFacts.
Import SlackArchiver.

Variable conversations_list : option jsstring -> option (page conversation).
Variable conversations_history :
  jsstring -> option jsstring -> option (page message).
Variable users_info : identity_service.
Variable parseFloat : jsstring -> Z.
Variable dateStr : jsstring -> option jsstring.
Variable inexact_text : Z -> jsstring.
Variable now : jsstring.
Variable disk_ok : jsstring -> bool.

Lemma logged_nil w : logged w [] = w.
Proof. destruct w. unfold logged. simpl. rewrite app_nil_r. reflexivity. Qed.

Lemma logged_logged w a b : logged (logged w a) b = logged w (a ++ b).
Proof. unfold logged. simpl. rewrite <- app_assoc. reflexivity. Qed.

Lemma history_loop_step fuel ch c acc w :
  history_loop conversations_history (S fuel) ch c acc w =
  match conversations_history ch c with
  | None => Exn (logged w [Fetch "conversations.history" ch c 200])
  | Some (items, next) =>
      let w' := logged w [Fetch "conversations.history" ch c 200; Delay 1000] in
      if more next
      then history_loop conversations_history fuel ch next (acc ++ items) w'
      else Ret (acc ++ items) w'
  end.
Proof.
  simpl. unfold mbind, run_bind, bind, call, emit.
  destruct (conversations_history ch c) as [[items next]|]; simpl; [|reflexivity].
  unfold logged. rewrite <- !app_assoc. simpl.
  destruct (more next); reflexivity.
Qed.

Lemma conversations_loop_step fuel c acc w :
  conversations_loop conversations_list (S fuel) c acc w =
  match conversations_list c with
  | None => Exn (logged w [Fetch "conversations.list" [] c 200])
  | Some (items, next) =>
      let w' := logged w [Fetch "conversations.list" [] c 200] in
      if more next
      then conversations_loop conversations_list fuel next (acc ++ items) w'
      else Ret (acc ++ items) w'
  end.
Proof.
  simpl. unfold mbind, run_bind, bind, call, emit.
  destruct (conversations_list c) as [[items next]|]; simpl; [|reflexivity].
  destruct (more next); reflexivity.
Qed.

Lemma history_loop_serves ch c pages :
  serves (conversations_history ch) c pages ->
  forall fuel acc w, length pages <= fuel ->
  history_loop conversations_history fuel ch c acc w =
  Ret (acc ++ items_of pages)
      (logged w (paced "conversations.history" ch 200 [Delay 1000] c pages)).
Proof.
  induction 1 as [c items next Hapi Hmore|c items next rest Hapi Hmore Hs IH];
    intros [|fuel] acc w Hf; simpl in Hf; try lia;
    rewrite history_loop_step, Hapi; cbv zeta; rewrite Hmore.
  - unfold items_of. simpl. rewrite app_nil_r. reflexivity.
  - rewrite IH by lia. rewrite logged_logged.
    unfold items_of. simpl. rewrite <- app_assoc. reflexivity.
Qed.

Lemma history_loop_breaks ch c pages :
  breaks (conversations_history ch) c pages ->
  forall fuel acc w, length pages < fuel ->
  history_loop conversations_history fuel ch c acc w =
  Exn (logged w (paced "conversations.history" ch 200 [Delay 1000] c pages
                 ++ [Fetch "conversations.history" ch (cursor_after c pages) 200])).
Proof.
  induction 1 as [c Hapi|c items next rest Hapi Hmore Hs IH];
    intros [|fuel] acc w Hf; simpl in Hf; try lia;
    rewrite history_loop_step, Hapi.
  - reflexivity.
  - cbv zeta. rewrite Hmore. rewrite IH by lia. rewrite logged_logged.
    reflexivity.
Qed.

Lemma conversations_loop_serves c pages :
  serves conversations_list c pages ->
  forall fuel acc w, length pages <= fuel ->
  conversations_loop conversations_list fuel c acc w =
  Ret (acc ++ items_of pages)
      (logged w (paced "conversations.list" [] 200 [] c pages)).
Proof.
  induction 1 as [c items next Hapi Hmore|c items next rest Hapi Hmore Hs IH];
    intros [|fuel] acc w Hf; simpl in Hf; try lia;
    rewrite conversations_loop_step, Hapi; cbv zeta; rewrite Hmore.
  - unfold items_of. simpl. rewrite app_nil_r. reflexivity.
  - rewrite IH by lia. rewrite logged_logged.
    unfold items_of. simpl. rewrite <- app_assoc. reflexivity.
Qed.

Lemma getConversationHistory_serves ch pages fuel w :
  serves (conversations_history ch) None pages ->
  length pages <= fuel ->
  getConversationHistory conversations_history parseFloat fuel ch w =
  Ret (js_sort (by_ts parseFloat) (items_of pages))
      (logged w (paced "conversations.history" ch 200 [Delay 1000] None pages)).
Proof.
  intros Hs Hf. unfold getConversationHistory, try_catch, mbind, run_bind, bind.
  rewrite (history_loop_serves _ _ _ Hs) by exact Hf. reflexivity.
Qed.

Lemma getConversationHistory_breaks ch pages fuel w :
  breaks (conversations_history ch) None pages ->
  length pages < fuel ->
  getConversationHistory conversations_history parseFloat fuel ch w =
  Ret []
      (logged w (paced "conversations.history" ch 200 [Delay 1000] None pages
                 ++ [Fetch "conversations.history" ch (cursor_after None pages) 200])).
Proof.
  intros Hs Hf. unfold getConversationHistory, try_catch, mbind, run_bind, bind.
  rewrite (history_loop_breaks _ _ _ Hs) by exact Hf. reflexivity.
Qed.

Lemma paced_fetches {A} endpoint key limit pause c (pages : list (list A * option jsstring)) :
  count is_fetch pause = 0 ->
  count is_fetch (paced endpoint key limit pause c pages) = length pages.
Proof.
  intros Hp. revert c. unfold count in *.
  induction pages as [|[items next] rest IH]; intros c; simpl; [reflexivity|].
  rewrite List.filter_app, length_app, Hp, IH. reflexivity.
Qed.

Lemma paced_delays {A} endpoint key limit ms c (pages : list (list A * option jsstring)) :
  count is_delay (paced endpoint key limit [Delay ms] c pages) = length pages.
Proof.
  revert c. unfold count.
  induction pages as [|[items next] rest IH]; intros c; simpl; [reflexivity|].
  rewrite IH. reflexivity.
Qed.


(** *** Identity resolution *)

Lemma getUserInfo_run id w :
  getUserInfo users_info id w =
  match userCache w !! id with
  | Some u => Ret u w
  | None =>
      match users_info (events w) id with
      | Some u => Ret u (cached (logged w [Lookup id]) id u)
      | None => Ret None (logged w [Lookup id])
      end
  end.
Proof.
  unfold getUserInfo, mbind, run_bind, bind, cache_get.
  destruct (userCache w !! id) as [u|]; [reflexivity|].
  unfold try_catch, call_at, call, emit, cache_set.
  destruct (users_info (events w) id) as [u|]; reflexivity.
Qed.

Lemma getUserInfo_returns id w :
  exists u w' new,
    getUserInfo users_info id w = Ret u w'
    /\ events w' = events w ++ new /\ count is_write new = 0.
Proof.
  rewrite getUserInfo_run.
  destruct (userCache w !! id).
  - exists o, w, []. rewrite app_nil_r. repeat split.
  - destruct (users_info (events w) id).
    + eexists _, _, [Lookup id]. repeat split.
    + eexists _, _, [Lookup id]. repeat split.
Qed.

(** A message whose time stamp gives no valid date is not formatted:
    [toISOString] throws before anything else is done. *)
Lemma formatMessage_undated m w :
  dated dateStr m = false ->
  formatMessage users_info dateStr inexact_text m w = Exn w.
Proof.
  unfold dated. intros E.
  unfold formatMessage, mbind, run_bind, bind.
  destruct (dateStr (ts m)); [discriminate|reflexivity].
Qed.

Lemma formatMessage_stamped m w :
  dated dateStr m = true ->
  exists r w' new,
    formatMessage users_info dateStr inexact_text m w = Ret r w'
    /\ stamped dateStr m r
    /\ events w' = events w ++ new /\ count is_write new = 0.
Proof.
  unfold dated. intros E. destruct (dateStr (ts m)) as [d|] eqn:Ed; [clear E|discriminate].
  unfold formatMessage, mbind, run_bind, bind. rewrite Ed. unfold ret at 1.
  match goal with
  | |- context [match ?userName w with _ => _ end] =>
      assert (Hn : exists n w' new, userName w = Ret n w'
                                    /\ events w' = events w ++ new
                                    /\ count is_write new = 0)
  end.
  { destruct (msg_user m) as [[|c u]|].
    2:{ destruct (getUserInfo_returns (c :: u) w) as (ui & w' & new & E & Ev & Hc).
        rewrite E. eexists _, _, new. repeat split; assumption. }
    all: destruct (bot_id m) as [[|c b]|];
      try (exists (str "Bot (" ++ or_else (username m) (c :: b) ++ str ")"), w, [];
           rewrite app_nil_r; repeat split);
      destruct (username m) as [[|c n]|];
      eexists _, w, []; rewrite app_nil_r; repeat split. }
  destruct Hn as (n & w' & new & -> & Ev & Hc).
  eexists _, w', new. split; [reflexivity|]. split; [|split; assumption].
  exists d, n. cbv zeta.
  destruct (attachments m) as [[|a atts]|], (files m) as [[|f fs]|],
    (reply_count m) as [z|]; try destruct (0 <? z)%Z;
    eexists; (split; [exact Ed|]); rewrite <- ?app_assoc; reflexivity.
Qed.

Lemma count_app p a b : count p (a ++ b) = count p a + count p b.
Proof. unfold count. rewrite List.filter_app, length_app. reflexivity. Qed.

Lemma format_all_stamped msgs : forall content w,
  forallb (dated dateStr) msgs = true ->
  exists records w',
    format_all users_info dateStr inexact_text msgs content w
    = Ret (content ++ concat records) w'
    /\ Forall2 (stamped dateStr) msgs records.
Proof.
  induction msgs as [|m msgs IH]; intros content w Hd; simpl.
  - exists [], w. simpl. rewrite app_nil_r. split; [reflexivity|constructor].
  - simpl in Hd. apply andb_true_iff in Hd as [Hm Hd].
    destruct (formatMessage_stamped m w Hm) as (r & w1 & new & E & Hr & _).
    unfold mbind, run_bind, bind. rewrite E.
    destruct (IH (content ++ r) w1 Hd) as (rs & w2 & E2 & Hrs).
    exists (r :: rs), w2. split.
    + rewrite E2. simpl. rewrite <- app_assoc. reflexivity.
    + constructor; assumption.
Qed.

(** A message without a valid date ends the formatting: the messages
    before it have been formatted, and nothing has been written. *)
Lemma format_all_undated msgs : forall content w,
  forallb (dated dateStr) msgs = false ->
  exists w' new,
    format_all users_info dateStr inexact_text msgs content w = Exn w'
    /\ events w' = events w ++ new /\ count is_write new = 0.
Proof.
  induction msgs as [|m msgs IH]; intros content w Hd; simpl in *; [discriminate|].
  unfold mbind, run_bind, bind.
  destruct (dated dateStr m) eqn:Hm.
  - destruct (formatMessage_stamped m w Hm) as (r & w1 & new & E & _ & Ev & Hc).
    rewrite E. simpl in Hd.
    destruct (IH (content ++ r) w1 Hd) as (w2 & new2 & E2 & Ev2 & Hc2).
    exists w2, (new ++ new2). split; [exact E2|]. split.
    + rewrite Ev2, Ev, <- app_assoc. reflexivity.
    + rewrite count_app, Hc, Hc2. reflexivity.
  - rewrite (formatMessage_undated m w Hm).
    exists w, []. rewrite app_nil_r. repeat split.
Qed.

Lemma saveConversation_run c msgs w :
  forallb (dated dateStr) msgs = true ->
  exists records w',
    Forall2 (stamped dateStr) msgs records
    /\ saveConversation users_info dateStr inexact_text now disk_ok c msgs w
       = if disk_ok (file_of c)
         then Ret tt (logged w' [Write (file_of c)
                                   (file_header now c (length msgs) ++ concat records)])
         else Exn w'.
Proof.
  intros Hd.
  destruct (format_all_stamped msgs (file_header now c (length msgs)) w Hd)
    as (records & w' & E & H).
  exists records, w'. split; [exact H|].
  unfold saveConversation, mbind, run_bind, bind. rewrite E.
  fold (file_of c). destruct (disk_ok (file_of c)); reflexivity.
Qed.

Lemma saveConversation_undated c msgs w :
  forallb (dated dateStr) msgs = false ->
  exists w' new,
    saveConversation users_info dateStr inexact_text now disk_ok c msgs w = Exn w'
    /\ events w' = events w ++ new /\ count is_write new = 0.
Proof.
  intros Hd.
  destruct (format_all_undated msgs (file_header now c (length msgs)) w Hd)
    as (w' & new & E & H).
  exists w', new. split; [|exact H].
  unfold saveConversation, mbind, run_bind, bind. rewrite E. reflexivity.
Qed.

(** C6: the history of a conversation that was enumerated to its last page
    is a permutation of the messages of its pages in ascending order of
    time stamp, whatever the order of the pages, and the file written for
    it holds one record per message, in that order.  (The file is written
    when every time stamp gives a valid date; if one does not,
    [toISOString] throws and no file is written.) *)
Theorem history_saved_in_timestamp_order c pages fuel w :
  serves (conversations_history (conv_id c)) None pages ->
  length pages <= fuel ->
  exists msgs w1,
    getConversationHistory conversations_history parseFloat fuel (conv_id c) w
    = Ret msgs w1
    /\ Permutation (items_of pages) msgs
    /\ StronglySorted (ts_le parseFloat) msgs
    /\ (forallb (dated dateStr) msgs = true ->
        exists records w2,
          Forall2 (stamped dateStr) msgs records
          /\ saveConversation users_info dateStr inexact_text now disk_ok c msgs w1
             = if disk_ok (file_of c)
               then Ret tt (logged w2 [Write (file_of c)
                              (file_header now c (length msgs) ++ concat records)])
               else Exn w2)
    /\ (forallb (dated dateStr) msgs = false ->
        exists w2 new,
          saveConversation users_info dateStr inexact_text now disk_ok c msgs w1
          = Exn w2
          /\ events w2 = events w1 ++ new /\ count is_write new = 0).
Proof.
  intros Hs Hf. eexists _, _. split.
  { apply getConversationHistory_serves; eassumption. }
  split; [apply js_sort_perm|].
  split.
  { apply (js_sort_sorted (by_ts parseFloat)); unfold by_ts, ts_le; intros; lia. }
  split; [apply saveConversation_run|apply saveConversation_undated].
Qed.

(** C4, as the code paces: an enumeration of N pages issues exactly N
    requests; in the history of a conversation every request, the last one
    included, is followed by the pause of 1000 ms, so that N pauses are
    observed, and the log is request, pause, request, pause and so on. *)
Theorem pacing_after_every_fetch ch pages listing fuel w :
  serves (conversations_history ch) None pages -> length pages <= fuel ->
  serves conversations_list None listing -> length listing <= fuel ->
  (exists msgs new,
     getConversationHistory conversations_history parseFloat fuel ch w
     = Ret msgs (logged w new)
     /\ new = paced "conversations.history" ch 200 [Delay 1000] None pages
     /\ count is_fetch new = length pages
     /\ count is_delay new = length pages)
  /\ (exists convs new,
        getConversations conversations_list fuel w = Ret convs (logged w new)
        /\ count is_fetch new = length listing).
Proof.
  intros Hs Hf Hl Hlf. split.
  - eexists _, _. split; [apply getConversationHistory_serves; eassumption|].
    split; [reflexivity|]. split.
    + apply paced_fetches. reflexivity.
    + apply paced_delays.
  - eexists _, _. split.
    + unfold getConversations, try_catch.
      rewrite (conversations_loop_serves _ _ Hl) by exact Hlf. reflexivity.
    + apply paced_fetches. reflexivity.
Qed.

(** *** The cache *)

Lemma jsstring_eqb_true a b : jsstring_eqb a b = true <-> a = b.
Proof. unfold jsstring_eqb. destruct (decide (a = b)); split; congruence. Qed.

Lemma jsstring_eqb_refl a : jsstring_eqb a a = true.
Proof. apply jsstring_eqb_true. reflexivity. Qed.

Lemma jsstring_eqb_false a b : a <> b -> jsstring_eqb a b = false.
Proof. unfold jsstring_eqb. destruct (decide (a = b)); congruence. Qed.

Lemma jsstring_eqb_sym a b : jsstring_eqb a b = jsstring_eqb b a.
Proof. unfold jsstring_eqb. destruct (decide (a = b)), (decide (b = a)); congruence. Qed.

Lemma count_lookup_snoc i id t :
  count (is_lookup_of i) (t ++ [Lookup id])
  = count (is_lookup_of i) t + (if jsstring_eqb id i then 1 else 0).
Proof.
  rewrite count_app. unfold count at 2. simpl.
  destruct (jsstring_eqb id i); reflexivity.
Qed.

Lemma lookups_of_cons i id ids :
  lookups_of i (id :: ids) = (if jsstring_eqb id i then 1 else 0) + lookups_of i ids.
Proof.
  unfold lookups_of. simpl. rewrite (jsstring_eqb_sym i id).
  destruct (jsstring_eqb id i); reflexivity.
Qed.

(** **** The answers that a log holds *)

Lemma answer_in_app t : forall before t2 id,
  answer_in users_info before (t ++ t2) id
  = match answer_in users_info before t id with
    | Some u => Some u
    | None => answer_in users_info (before ++ t) t2 id
    end.
Proof.
  induction t as [|e t IH]; intros before t2 id; simpl.
  - rewrite app_nil_r. reflexivity.
  - destruct (if is_lookup_of id e then users_info before id else None);
      [reflexivity|].
    rewrite IH, <- app_assoc. reflexivity.
Qed.

(** One more query. *)
Lemma answer_in_query t i id :
  answer_in users_info [] (t ++ [Lookup i]) id
  = match answer_in users_info [] t id with
    | Some u => Some u
    | None => if jsstring_eqb i id then users_info t id else None
    end.
Proof.
  rewrite answer_in_app. destruct (answer_in users_info [] t id); [reflexivity|].
  simpl. destruct (jsstring_eqb i id); [|reflexivity].
  destruct (users_info t id); reflexivity.
Qed.

(** Without an answer in the log, every query of the log has failed. *)
Lemma unanswered_queries_failed t id t1 t2 :
  answer_in users_info [] t id = None ->
  t = t1 ++ Lookup id :: t2 ->
  users_info t1 id = None.
Proof.
  intros Ha ->. rewrite answer_in_app in Ha.
  destruct (answer_in users_info [] t1 id); [discriminate|].
  simpl in Ha. rewrite jsstring_eqb_refl in Ha.
  destruct (users_info t1 id); [discriminate|reflexivity].
Qed.

Lemma never_answered i before t :
  (forall t0, users_info t0 i = None) -> answer_in users_info before t i = None.
Proof.
  intros Hn. revert before. induction t as [|e t IH]; intros before; simpl;
    [reflexivity|].
  rewrite Hn. destruct (is_lookup_of i e); apply IH.
Qed.

(** **** A lookup, told by the cache and told by the log *)

Lemma fresh_coherent : coherent users_info fresh.
Proof. intros id. unfold fresh. simpl. apply lookup_empty. Qed.

Lemma lookups_run ids : forall w,
  coherent users_info w ->
  exists w',
    lookups users_info ids w = Ret (fst (looked_up users_info (events w) ids)) w'
    /\ events w' = snd (looked_up users_info (events w) ids)
    /\ coherent users_info w'.
Proof.
  induction ids as [|i ids IH]; intros w Hw.
  - exists w. repeat split. exact Hw.
  - simpl. unfold mbind, run_bind, bind at 1. rewrite getUserInfo_run, (Hw i).
    destruct (answer_in users_info [] (events w) i) as [u|] eqn:Ea.
    + (* an earlier query was answered *)
      destruct (IH w Hw) as (w' & E & Ev & Hc).
      exists w'. unfold bind. rewrite E. repeat split; assumption.
    + destruct (users_info (events w) i) as [u|] eqn:Eu.
      * (* the service answers: the answer is cached *)
        assert (Hs : coherent users_info (cached (logged w [Lookup i]) i u)).
        { intros id. unfold cached, logged. simpl. rewrite answer_in_query.
          destruct (decide (i = id)) as [->|Hne].
          - rewrite lookup_insert_eq, Ea, jsstring_eqb_refl, Eu. reflexivity.
          - rewrite lookup_insert_ne by assumption. rewrite (Hw id).
            rewrite jsstring_eqb_false by assumption.
            destruct (answer_in users_info [] (events w) id); reflexivity. }
        destruct (IH _ Hs) as (w' & E & Ev & Hc).
        exists w'. unfold bind. rewrite E. repeat split; assumption.
      * (* the service fails: nothing is cached *)
        assert (Hs : coherent users_info (logged w [Lookup i])).
        { intros id. unfold logged. simpl. rewrite answer_in_query, (Hw id).
          destruct (answer_in users_info [] (events w) id) eqn:Eid; [reflexivity|].
          destruct (jsstring_eqb i id) eqn:Ei; [|reflexivity].
          apply jsstring_eqb_true in Ei. subst id. rewrite Eu. reflexivity. }
        destruct (IH _ Hs) as (w' & E & Ev & Hc).
        exists w'. unfold bind. rewrite E. repeat split; assumption.
Qed.

(** **** What the log of the lookups holds *)

Lemma looked_up_step t id ids :
  snd (looked_up users_info t (id :: ids))
  = match answer_in users_info [] t id with
    | Some _ => snd (looked_up users_info t ids)
    | None => snd (looked_up users_info (t ++ [Lookup id]) ids)
    end.
Proof. simpl. destruct (answer_in users_info [] t id); reflexivity. Qed.

Lemma looked_up_grows i ids : forall t,
  count (is_lookup_of i) t <= count (is_lookup_of i) (snd (looked_up users_info t ids))
  /\ count (is_lookup_of i) (snd (looked_up users_info t ids))
     <= count (is_lookup_of i) t + lookups_of i ids.
Proof.
  induction ids as [|id ids IH]; intros t.
  - simpl. unfold lookups_of. simpl. lia.
  - rewrite looked_up_step, lookups_of_cons.
    destruct (answer_in users_info [] t id).
    + specialize (IH t). lia.
    + specialize (IH (t ++ [Lookup id])). rewrite count_lookup_snoc in IH. lia.
Qed.

(** The first lookup of an identifier queries the service. *)
Lemma looked_up_queries i ids : forall t,
  In i ids -> answer_in users_info [] t i = None ->
  count (is_lookup_of i) t + 1
  <= count (is_lookup_of i) (snd (looked_up users_info t ids)).
Proof.
  induction ids as [|id ids IH]; intros t Hin Ha; [destruct Hin|].
  rewrite looked_up_step.
  destruct (decide (id = i)) as [->|Hne].
  - rewrite Ha.
    pose proof (proj1 (looked_up_grows i ids (t ++ [Lookup i]))) as H.
    rewrite count_lookup_snoc, jsstring_eqb_refl in H. exact H.
  - destruct Hin as [E|Hin]; [contradiction|].
    destruct (answer_in users_info [] t id); [apply IH; assumption|].
    assert (Ha' : answer_in users_info [] (t ++ [Lookup id]) i = None).
    { rewrite answer_in_query, Ha, jsstring_eqb_false by assumption. reflexivity. }
    specialize (IH _ Hin Ha'). rewrite count_lookup_snoc in IH.
    rewrite jsstring_eqb_false in IH by assumption. lia.
Qed.

(** Once a query was answered, the identifier is not queried again. *)
Lemma looked_up_answered i ids : forall t,
  answer_in users_info [] t i <> None ->
  count (is_lookup_of i) (snd (looked_up users_info t ids))
  = count (is_lookup_of i) t.
Proof.
  induction ids as [|id ids IH]; intros t Ha; [reflexivity|].
  rewrite looked_up_step.
  destruct (answer_in users_info [] t id) eqn:Eid; [apply IH, Ha|].
  assert (Hne : id <> i) by (intros ->; contradiction).
  rewrite IH.
  - rewrite count_lookup_snoc, jsstring_eqb_false by assumption. lia.
  - rewrite answer_in_query. destruct (answer_in users_info [] t i); congruence.
Qed.

Lemma looked_up_settled ids : forall t,
  settled users_info t -> settled users_info (snd (looked_up users_info t ids)).
Proof.
  induction ids as [|id ids IH]; intros t Ht; [exact Ht|].
  rewrite looked_up_step.
  destruct (answer_in users_info [] t id) eqn:Ea; [apply IH, Ht|].
  apply IH. intros i t1 t2 E Hu.
  revert E. induction t2 as [|x t2' _] using rev_ind; intros E; [reflexivity|].
  change (t1 ++ Lookup i :: t2' ++ [x]) with (t1 ++ (Lookup i :: t2') ++ [x]) in E.
  rewrite app_assoc in E. apply app_inj_tail in E as [E <-].
  rewrite count_lookup_snoc, (Ht i t1 t2' E Hu).
  rewrite jsstring_eqb_false; [reflexivity|].
  intros ->. apply Hu. exact (unanswered_queries_failed t i t1 t2' Ea E).
Qed.

Lemma looked_up_extends ids : forall t,
  exists new, snd (looked_up users_info t ids) = t ++ new.
Proof.
  induction ids as [|id ids IH]; intros t.
  - exists []. simpl. rewrite app_nil_r. reflexivity.
  - rewrite looked_up_step. destruct (answer_in users_info [] t id); [apply IH|].
    destruct (IH (t ++ [Lookup id])) as (new & E).
    exists (Lookup id :: new). rewrite E, <- app_assoc. reflexivity.
Qed.

(** As long as no query for an identifier was answered, every lookup of it
    has queried. *)
Lemma looked_up_unanswered i ids : forall t,
  answer_in users_info [] (snd (looked_up users_info t ids)) i = None ->
  count (is_lookup_of i) (snd (looked_up users_info t ids))
  = count (is_lookup_of i) t + lookups_of i ids.
Proof.
  induction ids as [|id ids IH]; intros t.
  - intros _. simpl. unfold lookups_of. simpl. lia.
  - rewrite looked_up_step, lookups_of_cons.
    destruct (answer_in users_info [] t id) eqn:Ea; intros Hn.
    + assert (Hne : id <> i).
      { intros ->. destruct (looked_up_extends ids t) as (new & E).
        rewrite E, answer_in_app, Ea in Hn. discriminate. }
      rewrite jsstring_eqb_false by assumption. apply IH, Hn.
    + rewrite IH by exact Hn. rewrite count_lookup_snoc. lia.
Qed.

(** An identifier for which the service always answers is queried once,
    and one for which it never answers at every lookup. *)
Lemma looked_up_always i ids : forall t,
  (forall t0, users_info t0 i <> None) ->
  answer_in users_info [] t i = None ->
  count (is_lookup_of i) (snd (looked_up users_info t ids))
  = count (is_lookup_of i) t + Nat.min 1 (lookups_of i ids).
Proof.
  induction ids as [|id ids IH]; intros t Hall Ha.
  - simpl. unfold lookups_of. simpl. lia.
  - rewrite looked_up_step, lookups_of_cons.
    destruct (decide (id = i)) as [->|Hne].
    + rewrite Ha, jsstring_eqb_refl. rewrite looked_up_answered.
      * rewrite count_lookup_snoc, jsstring_eqb_refl. lia.
      * rewrite answer_in_query, Ha, jsstring_eqb_refl. apply Hall.
    + rewrite (jsstring_eqb_false id i) by assumption.
      destruct (answer_in users_info [] t id); [apply IH; assumption|].
      rewrite IH; [|exact Hall|].
      * rewrite count_lookup_snoc, jsstring_eqb_false by assumption. lia.
      * rewrite answer_in_query, Ha, jsstring_eqb_false by assumption. reflexivity.
Qed.

Lemma looked_up_never i ids : forall t,
  (forall t0, users_info t0 i = None) ->
  count (is_lookup_of i) (snd (looked_up users_info t ids))
  = count (is_lookup_of i) t + lookups_of i ids.
Proof.
  induction ids as [|id ids IH]; intros t Hn.
  - simpl. unfold lookups_of. simpl. lia.
  - rewrite looked_up_step, lookups_of_cons.
    destruct (answer_in users_info [] t id) eqn:Ea.
    + assert (Hne : id <> i).
      { intros ->. rewrite (never_answered i [] t Hn) in Ea. discriminate. }
      rewrite jsstring_eqb_false by assumption. apply IH, Hn.
    + rewrite IH by exact Hn. rewrite count_lookup_snoc. lia.
Qed.

(** C3, as the code caches: over the lookups of a run, a lookup queries the
    identity service exactly when the service has answered no earlier query
    for the identifier.  The first lookup of an identifier queries; an
    answer is cached, and every later lookup of the identifier returns it
    and asks nothing, so that no query follows an answered one; a failure is
    not cached, and the next lookup of the identifier queries again, so
    that every lookup of an identifier has queried as long as no query for
    it was answered.  An identifier for which the service always answers is
    thus queried once, and one for which it never answers at every lookup.
    A message whose sender does not resolve is rendered with the raw
    identifier. *)
Theorem identity_cached_after_success ids m id d w w' :
  msg_user m = Some id -> truthy id = true ->
  dateStr (ts m) = Some d ->
  getUserInfo users_info id w = Ret None w' ->
  (exists w1,
     lookups users_info ids fresh = Ret (fst (looked_up users_info [] ids)) w1
     /\ events w1 = snd (looked_up users_info [] ids)
     /\ coherent users_info w1
     /\ settled users_info (events w1)
     /\ (forall i, count (is_lookup_of i) (events w1) <= lookups_of i ids)
     /\ (forall i, In i ids -> 1 <= count (is_lookup_of i) (events w1))
     /\ (forall i, answer_in users_info [] (events w1) i = None ->
                   count (is_lookup_of i) (events w1) = lookups_of i ids)
     /\ (forall i, (forall t, users_info t i <> None) ->
                   count (is_lookup_of i) (events w1) = Nat.min 1 (lookups_of i ids))
     /\ (forall i, (forall t, users_info t i = None) ->
                   count (is_lookup_of i) (events w1) = lookups_of i ids))
  /\ exists rest,
       formatMessage users_info dateStr inexact_text m w
       = Ret (str "[" ++ d ++ str "] " ++ id ++ str ":" ++ [NL] ++ rest) w'.
Proof.
  intros Hm Hid Hd Hu. split.
  - destruct (lookups_run ids fresh fresh_coherent) as (w1 & E & Ev & Hc).
    exists w1. split; [exact E|]. split; [exact Ev|]. split; [exact Hc|].
    rewrite Ev. change (events fresh) with (@nil event).
    split; [|split; [|split; [|split; [|split]]]].
    + apply looked_up_settled. intros i t1 t2 Ht.
      destruct t1; discriminate Ht.
    + intros i. exact (proj2 (looked_up_grows i ids [])).
    + intros i Hin. exact (looked_up_queries i ids [] Hin eq_refl).
    + intros i Hn. exact (looked_up_unanswered i ids [] Hn).
    + intros i Hall. exact (looked_up_always i ids [] Hall eq_refl).
    + intros i Hn. exact (looked_up_never i ids [] Hn).
  - unfold formatMessage, mbind, run_bind, bind. rewrite Hd, Hm. unfold ret at 1.
    destruct id as [|c u]; [discriminate|]. rewrite Hu.
    unfold mret, run_ret, ret, display_name. cbv zeta.
    destruct (attachments m) as [[|a atts]|], (files m) as [[|f fs]|],
      (reply_count m) as [z|]; try destruct (0 <? z)%Z;
      eexists; rewrite <- ?app_assoc; reflexivity.
Qed.

End SlackFacts.

Section SlackSamples.
Import SlackArchiver Sample.

Lemma two_pages_serves ch : serves (two_pages ch) None two_pages_served.
Proof.
  apply serves_more; [reflexivity|reflexivity|].
  apply serves_last; reflexivity.
Defined.

Lemma one_listing_serves : serves one_listing None [([general], None)].
Proof. apply serves_last; reflexivity. Defined.

(** C6 on the scenario of three messages stamped 3, 1 and 2. *)
Lemma history_saved_in_timestamp_order_witness :
  serves (two_pages (conv_id general)) None two_pages_served
  /\ length two_pages_served <= 2
  /\ exists msgs w1,
      getConversationHistory two_pages whole_seconds 2 (conv_id general) fresh
      = Ret msgs w1
      /\ Permutation (items_of two_pages_served) msgs
      /\ StronglySorted (ts_le whole_seconds) msgs
      /\ (forallb (dated iso) msgs = true ->
          exists records w2,
            Forall2 (stamped iso) msgs records
            /\ saveConversation knows_ann iso no_inexact (str "now") (fun _ => true)
                 general msgs w1
               = if (fun _ : jsstring => true) (file_of general)
                 then Ret tt (logged w2 [Write (file_of general)
                                (file_header (str "now") general (length msgs)
                                 ++ concat records)])
                 else Exn w2)
      /\ (forallb (dated iso) msgs = false ->
          exists w2 new,
            saveConversation knows_ann iso no_inexact (str "now") (fun _ => true)
              general msgs w1
            = Exn w2
            /\ events w2 = events w1 ++ new /\ count is_write new = 0).
Proof.
  split; [apply two_pages_serves|]. split; [simpl; lia|].
  apply (history_saved_in_timestamp_order two_pages knows_ann whole_seconds iso
           no_inexact (str "now") (fun _ => true) general two_pages_served 2 fresh).
  - apply two_pages_serves.
  - simpl. lia.
Defined.

(** The same scenario, run: the messages are written in the order 1, 2, 3
    and the one sender is looked up once. *)
Example three_messages_one_sender :
  let run := archive one_listing two_pages knows_ann whole_seconds iso no_inexact
               (str "now") (fun _ => true) 2 fresh in
  List.map (fun e => match e with Write _ _ => Write [] [] | _ => e end) (log_of run)
  = [Fetch "conversations.list" [] None 200;
     Fetch "conversations.history" (str "C1") None 200; Delay 1000;
     Fetch "conversations.history" (str "C1") (Some (str "c2")) 200; Delay 1000;
     Lookup (str "U1"); Write [] []]
  /\ List.last (log_of run) (Delay 0)
     = Write (str "general.txt")
         (file_header (str "now") general 3
          ++ str "[1970-01-01 00:00:01] Ann:" ++ [NL] ++ str "hi" ++ [NL; NL]
          ++ str "[1970-01-01 00:00:02] Ann:" ++ [NL] ++ str "hi" ++ [NL; NL]
          ++ str "[1970-01-01 00:00:03] Ann:" ++ [NL] ++ str "hi" ++ [NL; NL]).
Proof. vm_compute. split; reflexivity. Qed.

(** C4, refuted as stated: an enumeration of one page is followed by a
    pause, where N - 1 pauses would be none. *)
Lemma pause_follows_last_fetch :
  serves (one_page (str "C1")) None [([msg "1" "U1"], None)]
  /\ let log := log_of (getConversationHistory one_page whole_seconds 1
                          (str "C1") fresh) in
     log = [Fetch "conversations.history" (str "C1") None 200; Delay 1000]
     /\ count is_fetch log = 1
     /\ count is_delay log = 1
     /\ count is_delay log <> 1 - 1.
Proof.
  split; [apply serves_last; reflexivity|].
  vm_compute. repeat split; try reflexivity. discriminate.
Qed.

Lemma pacing_after_every_fetch_witness :
  serves (two_pages (str "C1")) None two_pages_served
  /\ length two_pages_served <= 2
  /\ serves one_listing None [([general], None)]
  /\ length [([general], @None jsstring)] <= 2
  /\ (exists msgs new,
        getConversationHistory two_pages whole_seconds 2 (str "C1") fresh
        = Ret msgs (logged fresh new)
        /\ new = paced "conversations.history" (str "C1") 200 [Delay 1000] None
                   two_pages_served
        /\ count is_fetch new = length two_pages_served
        /\ count is_delay new = length two_pages_served)
     /\ (exists convs new,
           getConversations one_listing 2 fresh = Ret convs (logged fresh new)
           /\ count is_fetch new = length [([general], @None jsstring)]).
Proof.
  split; [apply two_pages_serves|]. split; [simpl; lia|].
  split; [apply one_listing_serves|]. split; [simpl; lia|].
  apply (pacing_after_every_fetch one_listing two_pages whole_seconds (str "C1")
           two_pages_served [([general], None)] 2 fresh).
  - apply two_pages_serves.
  - simpl. lia.
  - apply one_listing_serves.
  - simpl. lia.
Defined.

(** C3, refuted as stated: with the identity service down, two lookups of
    one identifier query it twice. *)
Lemma failed_lookup_is_repeated :
  log_of (lookups service_down [str "U1"; str "U1"] fresh)
  = [Lookup (str "U1"); Lookup (str "U1")]
  /\ count (is_lookup_of (str "U1"))
       (log_of (lookups service_down [str "U1"; str "U1"] fresh)) = 2
  /\ ~ count (is_lookup_of (str "U1"))
         (log_of (lookups service_down [str "U1"; str "U1"] fresh)) <= 1.
Proof.
  assert (E : log_of (lookups service_down [str "U1"; str "U1"] fresh)
              = [Lookup (str "U1"); Lookup (str "U1")])
    by (vm_compute; reflexivity).
  rewrite E. split; [reflexivity|]. split; [reflexivity|].
  vm_compute. lia.
Qed.

(** A service that fails the first query and answers from then on: four
    lookups of one identifier query it twice, and the last two reuse the
    answer. *)
Example answer_after_a_failure_is_cached :
  let run := lookups wakes_up [str "U1"; str "U1"; str "U1"; str "U1"] fresh in
  value_of [] run = [None; Some ann; Some ann; Some ann]
  /\ log_of run = [Lookup (str "U1"); Lookup (str "U1")].
Proof. vm_compute. split; reflexivity. Qed.

Lemma identity_cached_after_success_witness :
  msg_user (msg "1" "U1") = Some (str "U1")
  /\ truthy (str "U1") = true
  /\ iso (ts (msg "1" "U1")) = Some (str "1970-01-01 00:00:01")
  /\ getUserInfo wakes_up (str "U1") fresh = Ret None (logged fresh [Lookup (str "U1")])
  /\ ((exists w1,
        lookups wakes_up some_lookups fresh = Ret (fst (looked_up wakes_up [] some_lookups)) w1
        /\ events w1 = snd (looked_up wakes_up [] some_lookups)
        /\ coherent wakes_up w1
        /\ settled wakes_up (events w1)
        /\ (forall i, count (is_lookup_of i) (events w1) <= lookups_of i some_lookups)
        /\ (forall i, In i some_lookups -> 1 <= count (is_lookup_of i) (events w1))
        /\ (forall i, answer_in wakes_up [] (events w1) i = None ->
                      count (is_lookup_of i) (events w1) = lookups_of i some_lookups)
        /\ (forall i, (forall t, wakes_up t i <> None) ->
                      count (is_lookup_of i) (events w1) = Nat.min 1 (lookups_of i some_lookups))
        /\ (forall i, (forall t, wakes_up t i = None) ->
                      count (is_lookup_of i) (events w1) = lookups_of i some_lookups))
     /\ (exists rest,
          formatMessage wakes_up iso no_inexact (msg "1" "U1") fresh
          = Ret (str "[" ++ str "1970-01-01 00:00:01" ++ str "] " ++ str "U1"
                 ++ str ":" ++ [NL] ++ rest)
                (logged fresh [Lookup (str "U1")])))
  /\ looked_up wakes_up [] some_lookups
     = ([None; None; Some ann; Some ann],
        [Lookup (str "U1"); Lookup (str "U9"); Lookup (str "U1")]).
Proof.
  assert (H : getUserInfo wakes_up (str "U1") fresh
              = Ret None (logged fresh [Lookup (str "U1")])) by reflexivity.
  split; [reflexivity|]. split; [reflexivity|]. split; [reflexivity|].
  split; [exact H|]. split; [|vm_compute; reflexivity].
  apply (identity_cached_after_success wakes_up iso no_inexact
           some_lookups (msg "1" "U1") (str "U1") (str "1970-01-01 00:00:01")
           fresh (logged fresh [Lookup (str "U1")]));
    [reflexivity|reflexivity|reflexivity|exact H].
Defined.

End SlackSamples.

(** ** Listing mail *)

Section MailFacts.
Import GmailArchiver.

Variable messages_list : jsstring -> option jsstring -> N -> option list_page.

Lemma messages_loop_step fuel q k token acc total t :
  messages_loop messages_list (S fuel) q k token acc total t =
  let request := Fetch "users.messages.list" q token (page_limit k total) in
  match messages_list q token (page_limit k total) with
  | None => Exn (t ++ [request])
  | Some pg =>
      if reached k (total + page_size pg) then Ret (acc ++ page_items pg) (t ++ [request])
      else if more (snd pg)
           then messages_loop messages_list fuel q k (snd pg)
                  (acc ++ page_items pg) (total + page_size pg)
                  (t ++ [request; Delay 100])
           else Ret (acc ++ page_items pg) (t ++ [request; Delay 100])
  end.
Proof.
  simpl. unfold mbind, run_bind, bind, log_call, log_emit.
  destruct (messages_list q token (page_limit k total)) as [[ms next]|];
    [|reflexivity].
  unfold page_size, page_items. simpl.
  destruct ms as [ms|]; simpl.
  - destruct (reached k (total + N.of_nat (length ms))); [reflexivity|].
    rewrite <- app_assoc. simpl. destruct (more next); reflexivity.
  - rewrite N.add_0_r, app_nil_r.
    destruct (reached k total); [reflexivity|].
    rewrite <- app_assoc. simpl. destruct (more next); reflexivity.
Qed.

Lemma messages_loop_goes_on q k token total pages token' total' :
  goes_on (messages_list q) k token total pages token' total' ->
  forall fuel acc t,
    messages_loop messages_list (length pages + fuel) q k token acc total t
    = messages_loop messages_list fuel q k token' (acc ++ mail_items pages) total'
        (t ++ mail_paced q k token total pages).
Proof.
  induction 1 as [token total|token total pg rest token' total' Hapi Hr Hm Hg IH];
    intros fuel acc t.
  - simpl. unfold mail_items. simpl. rewrite !app_nil_r. reflexivity.
  - change (length (pg :: rest) + fuel) with (S (length rest + fuel)).
    rewrite messages_loop_step. cbv zeta. rewrite Hapi, Hr, Hm, IH.
    unfold mail_items. simpl. rewrite <- !app_assoc. reflexivity.
Qed.

Lemma mail_paced_fetches q k token total pages :
  count is_fetch (mail_paced q k token total pages) = length pages.
Proof.
  revert token total. unfold count.
  induction pages as [|pg rest IH]; intros token total; simpl; [reflexivity|].
  rewrite IH. reflexivity.
Qed.

Lemma mail_paced_delays q k token total pages :
  count is_delay (mail_paced q k token total pages) = length pages.
Proof.
  revert token total. unfold count.
  induction pages as [|pg rest IH]; intros token total; simpl; [reflexivity|].
  rewrite IH. reflexivity.
Qed.

Lemma goes_on_total q k token total pages token' total' :
  goes_on (messages_list q) k token total pages token' total' ->
  total' = (total + N.of_nat (length (mail_items pages)))%N.
Proof.
  induction 1 as [token total|token total pg rest token' total' Hapi Hr Hm Hg IH].
  - unfold mail_items. simpl. lia.
  - rewrite IH. unfold mail_items, page_size. simpl. rewrite length_app. lia.
Qed.

Lemma goes_on_below q k token total pages token' total' :
  goes_on (messages_list q) (Some k) token total pages token' total' ->
  (total < k)%N -> (total' < k)%N.
Proof.
  induction 1 as [token total|token total pg rest token' total' Hapi Hr Hm Hg IH];
    intros Hlt; [exact Hlt|].
  apply IH. unfold reached in Hr.
  destruct (k =? 0)%N eqn:Ek; [apply N.eqb_eq in Ek; lia|].
  simpl in Hr. apply N.leb_gt in Hr. exact Hr.
Qed.


Lemma getMessages_breaks q k pages token total fuel t :
  goes_on (messages_list q) k None 0 pages token total ->
  messages_list q token (page_limit k total) = None ->
  length pages < fuel ->
  getMessages messages_list fuel q k t
  = Ret [] (t ++ mail_paced q k None 0 pages
              ++ [Fetch "users.messages.list" q token (page_limit k total)]).
Proof.
  intros Hg Hapi Hf. unfold getMessages, try_catch.
  replace fuel with (length pages + S (fuel - S (length pages))) by lia.
  rewrite (messages_loop_goes_on _ _ _ _ _ _ _ Hg).
  rewrite messages_loop_step. cbv zeta. rewrite Hapi.
  unfold ret. rewrite <- app_assoc. reflexivity.
Qed.

End MailFacts.

Section MailSamples.
Import GmailArchiver MailSample.



End MailSamples.

(** ** A fetch that fails *)

Section FailureFacts.
Import SlackArchiver.

Variable conversations_history :
  jsstring -> option jsstring -> option (page message).
Variable users_info : identity_service.
Variable parseFloat : jsstring -> Z.
Variable dateStr : jsstring -> option jsstring.
Variable inexact_text : Z -> jsstring.
Variable now : jsstring.
Variable disk_ok : jsstring -> bool.
Variable messages_list :
  jsstring -> option jsstring -> N -> option GmailArchiver.list_page.

(** C1, as the code handles a failure: when a request for a page fails,
    the enumeration of that collection is given up and returns the empty
    list, the items of the pages fetched before being dropped with it; the
    log holds the requests made, the failed one last.  The run of the
    Slack archiver then writes no file for that conversation and goes on
    with the next. *)
Theorem failed_fetch_returns_nothing
  c rest pages successCount errorCount q k mail token total fuel w t :
  breaks (conversations_history (conv_id c)) None pages ->
  length pages < fuel ->
  goes_on (messages_list q) k None 0 mail token total ->
  messages_list q token (GmailArchiver.page_limit k total) = None ->
  length mail < fuel ->
  (exists w',
     getConversationHistory conversations_history parseFloat fuel (conv_id c) w
     = Ret [] w'
     /\ w' = logged w
               (paced "conversations.history" (conv_id c) 200 [Delay 1000] None pages
                ++ [Fetch "conversations.history" (conv_id c)
                      (cursor_after None pages) 200])
     /\ archive_loop conversations_history users_info parseFloat dateStr
          inexact_text now disk_ok fuel (c :: rest) successCount errorCount w
        = archive_loop conversations_history users_info parseFloat dateStr
            inexact_text now disk_ok fuel rest successCount errorCount w')
  /\ GmailArchiver.getMessages messages_list fuel q k t
     = Ret [] (t ++ mail_paced q k None 0 mail
                 ++ [Fetch "users.messages.list" q token
                       (GmailArchiver.page_limit k total)]).
Proof.
  intros Hb Hf Hg Hapi Hmf. split.
  - eexists. split.
    { exact (getConversationHistory_breaks conversations_history parseFloat
               (conv_id c) pages fuel w Hb Hf). }
    split; [reflexivity|].
    simpl. unfold mbind, run_bind, bind at 1. unfold try_catch at 1.
    unfold bind at 1.
    rewrite (getConversationHistory_breaks conversations_history parseFloat
               (conv_id c) pages fuel w Hb Hf).
    reflexivity.
  - apply getMessages_breaks; assumption.
Qed.

End FailureFacts.

Section FailureSamples.
Import SlackArchiver Sample.

(** C1, refuted as stated: the first page holds a message, the second
    request fails, and the caller is handed the empty list. *)
Lemma partial_history_is_dropped :
  breaks (second_fails (str "C1")) None [([msg "3" "U1"], Some (str "c2"))]
  /\ getConversationHistory second_fails whole_seconds 2 (str "C1") fresh
     = Ret [] (logged fresh
                 [Fetch "conversations.history" (str "C1") None 200; Delay 1000;
                  Fetch "conversations.history" (str "C1") (Some (str "c2")) 200])
  /\ value_of [] (getConversationHistory second_fails whole_seconds 2 (str "C1") fresh)
     <> [msg "3" "U1"].
Proof.
  split.
  { apply breaks_later; [reflexivity|reflexivity|]. apply breaks_now. reflexivity. }
  split; [reflexivity|]. vm_compute. discriminate.
Qed.

Lemma failed_fetch_returns_nothing_witness :
  breaks (second_fails (conv_id general)) None [([msg "3" "U1"], Some (str "c2"))]
  /\ length [([msg "3" "U1"], Some (str "c2"))] < 2
  /\ goes_on (MailSample.list_then_fail (str "in:inbox")) None None 0
       [(Some [MailSample.mail], Some (str "p2"))] (Some (str "p2")) 1
  /\ MailSample.list_then_fail (str "in:inbox") (Some (str "p2"))
       (GmailArchiver.page_limit None 1) = None
  /\ length [(Some [MailSample.mail], Some (str "p2"))] < 2
  /\ (exists w',
        getConversationHistory second_fails whole_seconds 2 (conv_id general) fresh
        = Ret [] w'
        /\ w' = logged fresh
                  (paced "conversations.history" (conv_id general) 200 [Delay 1000]
                     None [([msg "3" "U1"], Some (str "c2"))]
                   ++ [Fetch "conversations.history" (conv_id general)
                         (cursor_after None [([msg "3" "U1"], Some (str "c2"))]) 200])
        /\ archive_loop second_fails knows_ann whole_seconds iso no_inexact
             (str "now") (fun _ => true) 2 [general; general] 0 0 fresh
           = archive_loop second_fails knows_ann whole_seconds iso no_inexact
               (str "now") (fun _ => true) 2 [general] 0 0 w')
     /\ GmailArchiver.getMessages MailSample.list_then_fail 2 (str "in:inbox") None []
        = Ret [] ([] ++ mail_paced (str "in:inbox") None None 0
                          [(Some [MailSample.mail], Some (str "p2"))]
                     ++ [Fetch "users.messages.list" (str "in:inbox")
                           (Some (str "p2")) (GmailArchiver.page_limit None 1)]).
Proof.
  assert (H1 : breaks (second_fails (conv_id general)) None
                 [([msg "3" "U1"], Some (str "c2"))]).
  { apply breaks_later; [reflexivity|reflexivity|]. apply breaks_now. reflexivity. }
  assert (H2 : length [([msg "3" "U1"], Some (str "c2"))] < 2) by (simpl; lia).
  assert (H3 : goes_on (MailSample.list_then_fail (str "in:inbox")) None None 0
                 [(Some [MailSample.mail], Some (str "p2"))] (Some (str "p2")) 1).
  { eapply goes_on_cons; [reflexivity|reflexivity|reflexivity|]. apply goes_on_nil. }
  assert (H4 : MailSample.list_then_fail (str "in:inbox") (Some (str "p2"))
                 (GmailArchiver.page_limit None 1) = None) by reflexivity.
  assert (H5 : length [(Some [MailSample.mail], Some (str "p2"))] < 2)
    by (simpl; lia).
  repeat (split; [assumption|]).
  exact (failed_fetch_returns_nothing second_fails knows_ann whole_seconds iso
           no_inexact (str "now") (fun _ => true) MailSample.list_then_fail
           general [general] _ 0 0 (str "in:inbox") None _ _ _ 2 fresh []
           H1 H2 H3 H4 H5).
Defined.

End FailureSamples.

(** ** Message parts *)

Section PartFacts.
Import GmailArchiver.

Variable buffer_base64_utf8 : jsstring -> jsstring.
Variable includeMarkup : bool.

Local Abbreviation decode := (decodeBase64 buffer_base64_utf8).
Local Abbreviation body_text := (extractBody buffer_base64_utf8 includeMarkup).
Local Abbreviation chunk := (part_chunk buffer_base64_utf8 includeMarkup body_text).
Local Abbreviation attached := (extractAttachments).

(** Induction over a part and the parts below it. *)
Lemma part_nested_ind (P : part -> Prop) :
  (forall m f b, P (Part m f b None)) ->
  (forall m f b l, Forall P l -> P (Part m f b (Some l))) ->
  forall p, P p.
Proof.
  intros Hleaf Hnode.
  fix rec 1. intros [m f b [l|]]; [|apply Hleaf].
  apply Hnode. induction l as [|c l IH]; constructor; [apply rec|exact IH].
Qed.

Lemma fold_left_chunks {A} (f : A -> jsstring) l : forall body,
  fold_left (fun body p => body ++ f p) l body = body ++ concat (List.map f l).
Proof.
  induction l as [|p l IH]; intros body; simpl.
  - rewrite app_nil_r. reflexivity.
  - rewrite IH, <- app_assoc. reflexivity.
Qed.

Lemma extractBody_unfold m f b ps :
  body_text (Part m f b ps) =
  let raw :=
    match body_data b with Some d => decode (Some d) | None => [] end
    ++ match ps with Some l => concat (List.map chunk l) | None => [] end in
  if includeMarkup then raw else cleanText (Text raw).
Proof.
  cbv zeta. destruct ps as [l|]; simpl.
  - rewrite fold_left_chunks. reflexivity.
  - rewrite app_nil_r. reflexivity.
Qed.

Lemma chunk_plain_text p d :
  mime_is (mimeType_of p) "text/plain" = true ->
  body_data (body_of p) = Some d ->
  chunk p = decode (Some d).
Proof.
  destruct p as [m f b ps]. simpl. intros Hm Hd. rewrite Hd, Hm. reflexivity.
Qed.

Lemma fold_left_attachments (step : part -> list attachment) l : forall acc,
  Forall (fun p =>
            (own ← own_attachment p;
             nested ← match parts_of p with
                      | Some _ => attached p
                      | None => Some []
                      end;
             Some (own ++ nested)) = Some (step p)) l ->
  fold_left
    (fun acc p =>
       attachments ← acc;
       own ← own_attachment p;
       nested ← match parts_of p with
                | Some _ => attached p
                | None => Some []
                end;
       Some (attachments ++ own ++ nested))
    l (Some acc)
  = Some (acc ++ flat_map step l).
Proof.
  induction l as [|p l IH]; intros acc H; simpl.
  - rewrite app_nil_r. reflexivity.
  - inversion H as [|? ? Hp Hl]; subst.
    destruct (own_attachment p) as [own|]; [|discriminate Hp]. simpl in *.
    destruct (match parts_of p with Some _ => attached p | None => Some [] end)
      as [nested|]; [|discriminate Hp]. simpl in *.
    injection Hp as <-. rewrite IH by exact Hl.
    rewrite <- !app_assoc. reflexivity.
Qed.

Lemma extractAttachments_present p :
  bodies_present p = true -> attached p = Some (attachments_below p).
Proof.
  induction p as [m f b|m f b l IH] using part_nested_ind; intros Hp.
  - reflexivity.
  - simpl in Hp. apply andb_true_iff in Hp as [_ Hl].
    change (attached (Part m f b (Some l)))
      with (fold_left
              (fun acc p =>
                 attachments ← acc;
                 own ← own_attachment p;
                 nested ← match parts_of p with
                          | Some _ => attached p
                          | None => Some []
                          end;
                 Some (attachments ++ own ++ nested))
              l (Some [])).
    rewrite (fold_left_attachments
               (fun c => default [] (own_attachment c)
                         ++ match parts_of c with
                            | Some _ => attachments_below c
                            | None => []
                            end)).
    + reflexivity.
    + rewrite forallb_forall in Hl.
      rewrite List.Forall_forall in IH. apply List.Forall_forall.
      intros c Hc. specialize (IH c Hc (Hl c Hc)). specialize (Hl c Hc).
      destruct c as [cm cf cb cps]. simpl in Hl. apply andb_true_iff in Hl as [Hown _].
      assert (Ho : exists own, own_attachment (Part cm cf cb cps) = Some own).
      { simpl. destruct cf as [[|x fname]|], cb; try discriminate; eauto. }
      destruct Ho as [own Ho]. rewrite Ho. simpl.
      destruct cps as [cl|]; simpl.
      * simpl in IH. rewrite IH. reflexivity.
      * reflexivity.
Qed.

Local Abbreviation texts := (gathered buffer_base64_utf8 includeMarkup).
Local Abbreviation texts_at := (gathered_at buffer_base64_utf8 includeMarkup).
Local Abbreviation texts_of := (gathered_parts buffer_base64_utf8 includeMarkup).

Lemma gathered_unfold m f b ps :
  texts (Part m f b ps)
  = own_text buffer_base64_utf8 (Part m f b ps)
    ++ match ps with Some l => texts_of l | None => [] end.
Proof.
  unfold own_text, has_data, part_text. simpl.
  destruct (body_data b); reflexivity.
Qed.

Lemma concat_own_text p :
  concat (own_text buffer_base64_utf8 p)
  = match body_data (body_of p) with Some d => decode (Some d) | None => [] end.
Proof.
  unfold own_text, has_data, part_text.
  destruct (body_data (body_of p)); simpl; [apply app_nil_r|reflexivity].
Qed.

Lemma concat_flat_map {A B} (g : A -> list (list B)) l :
  concat (flat_map g l) = concat (List.map (fun c => concat (g c)) l).
Proof.
  induction l as [|c l IH]; simpl; [reflexivity|].
  rewrite concat_app, IH. reflexivity.
Qed.

(** What a part adds to the body is the concatenation of what is gathered
    from it, once that holds of its own extraction. *)
Lemma chunk_gathered c :
  body_text c = (if includeMarkup then concat (texts c)
                 else cleanText (Text (concat (texts c)))) ->
  chunk c = concat (texts_at c (texts c)).
Proof.
  intros IH. destruct c as [m f b ps].
  unfold part_chunk, gathered_at, is_plain_text, is_html, has_data, part_text.
  cbn [mimeType_of body_of parts_of].
  destruct (body_data b) as [d|] eqn:Ed.
  - destruct (mime_is m "text/plain"); cbn [andb].
    { simpl. rewrite app_nil_r. reflexivity. }
    rewrite andb_true_r.
    destruct (includeMarkup && mime_is m "text/html").
    { simpl. rewrite app_nil_r. reflexivity. }
    destruct ps as [l|]; [|reflexivity].
    rewrite IH. destruct includeMarkup; [reflexivity|].
    simpl. rewrite app_nil_r. reflexivity.
  - rewrite !andb_false_r.
    destruct ps as [l|]; [|reflexivity].
    rewrite IH. destruct includeMarkup; [reflexivity|].
    simpl. rewrite app_nil_r. reflexivity.
Qed.

(** The body is the concatenation of the texts gathered below the payload
    when markup is kept, and the normaliser applied to it otherwise. *)
Lemma extractBody_gathered p :
  body_text p = if includeMarkup then concat (texts p)
                else cleanText (Text (concat (texts p))).
Proof.
  induction p as [m f b|m f b l IH] using part_nested_ind;
    rewrite extractBody_unfold, gathered_unfold, concat_app, concat_own_text;
    cbv zeta; cbn [body_of].
  - reflexivity.
  - assert (E : concat (List.map chunk l) = concat (texts_of l)).
    { unfold gathered_parts. rewrite (@concat_flat_map part N). f_equal.
      apply List.map_ext_in. intros c Hc.
      apply chunk_gathered. rewrite List.Forall_forall in IH. apply IH, Hc. }
    rewrite E. reflexivity.
Qed.

Lemma gathered_parts_plain l :
  forallb is_plain_text l = true ->
  texts_of l = List.map (part_text buffer_base64_utf8) l.
Proof.
  unfold gathered_parts.
  induction l as [|c l IH]; intros H; simpl in *; [reflexivity|].
  apply andb_true_iff in H as [Hc Hl].
  unfold gathered_at at 1. rewrite Hc, IH by exact Hl. reflexivity.
Qed.

Lemma starts_with_app n b : starts_with n (n ++ b) = true.
Proof.
  induction n as [|c n IH]; simpl; [reflexivity|].
  rewrite N.eqb_refl. exact IH.
Qed.

Lemma contains_app a n b : contains n (a ++ n ++ b) = true.
Proof.
  induction a as [|x a IH].
  - simpl. destruct (n ++ b) eqn:E; simpl; rewrite <- E, starts_with_app; reflexivity.
  - simpl. rewrite IH. apply orb_true_r.
Qed.

(** C8, as the code extracts: for a payload one of whose parts is a
    plain-text part with data, itself holding a part with a file name, the
    body is the concatenation of the texts gathered below the payload when
    markup is kept, and the normaliser applied to that concatenation
    otherwise.  The texts gathered are, in the order of the traversal, the
    decoded data of the payload and what each part adds: the decoded text of
    a plain-text part with data, the delimited block of an HTML part with
    data when markup is kept, and for any other part that holds parts the
    texts gathered below it (normalised as one text when markup is not
    kept).  The text of the plain-text part is among them, in its place
    between what the parts before and after it add, and the body contains it
    when markup is kept; where all the other parts are plain text with data
    too, the texts gathered are the decoded texts of the parts in order.
    The attachments, when every part with a file name has a body, hold the
    file name of the inner part. *)
Theorem nested_part_extraction top sub inner l1 l2 s1 s2 d f :
  parts_of top = Some (l1 ++ sub :: l2) ->
  mime_is (mimeType_of sub) "text/plain" = true ->
  body_data (body_of sub) = Some d ->
  parts_of sub = Some (s1 ++ inner :: s2) ->
  filename_of inner = Some f -> truthy f = true ->
  bodies_present top = true ->
  body_text top
  = (if includeMarkup then concat (texts top)
     else cleanText (Text (concat (texts top))))
  /\ texts top
     = own_text buffer_base64_utf8 top
       ++ texts_of l1 ++ decode (Some d) :: texts_of l2
  /\ (forallb is_plain_text (l1 ++ l2) = true ->
      texts top
      = own_text buffer_base64_utf8 top
        ++ List.map (part_text buffer_base64_utf8) (l1 ++ sub :: l2))
  /\ (includeMarkup = true -> contains (decode (Some d)) (body_text top) = true)
  /\ exists atts,
       attached top = Some atts /\ In f (List.map att_filename atts).
Proof.
  intros Htop Hmime Hdata Hsub Hf Hft Hwf.
  assert (Hsubtext : texts_at sub (texts sub) = [decode (Some d)]).
  { unfold gathered_at, is_plain_text, has_data, part_text.
    rewrite Hmime, Hdata. reflexivity. }
  assert (Htexts : texts top
                   = own_text buffer_base64_utf8 top
                     ++ texts_of l1 ++ decode (Some d) :: texts_of l2).
  { destruct top as [m tf b ps]. simpl in Htop. subst ps.
    rewrite gathered_unfold. unfold gathered_parts.
    rewrite flat_map_app. cbn [flat_map]. rewrite Hsubtext. reflexivity. }
  split; [apply extractBody_gathered|]. split; [exact Htexts|].
  split; [|split].
  - intros Hall. rewrite Htexts. f_equal.
    rewrite forallb_app in Hall. apply andb_true_iff in Hall as [H1 H2].
    rewrite !gathered_parts_plain by assumption.
    assert (Hpt : part_text buffer_base64_utf8 sub = decode (Some d))
      by (unfold part_text; rewrite Hdata; reflexivity).
    rewrite map_app. cbn [List.map]. rewrite Hpt. reflexivity.
  - intros Hmarkup. rewrite extractBody_gathered, Htexts, Hmarkup.
    rewrite !concat_app. cbn [concat]. rewrite app_assoc. apply contains_app.
  - exists (attachments_below top). split.
    + apply extractAttachments_present, Hwf.
    + assert (Hsubwf : bodies_present sub = true).
      { destruct top as [m tf b ps]. simpl in Htop. subst ps. simpl in Hwf.
        apply andb_true_iff in Hwf as [_ Hl]. rewrite forallb_forall in Hl.
        apply Hl. apply in_or_app. right. left. reflexivity. }
      assert (Hin : In f (List.map att_filename (attachments_below sub))).
      { destruct sub as [m sf b ps]. simpl in Hsub. subst ps. simpl in Hsubwf.
        apply andb_true_iff in Hsubwf as [_ Hl]. rewrite forallb_forall in Hl.
        assert (Hi : In inner (s1 ++ inner :: s2))
          by (apply in_or_app; right; left; reflexivity).
        specialize (Hl inner Hi).
        simpl. rewrite flat_map_app, map_app. apply in_or_app. right.
        simpl. rewrite !map_app. apply in_or_app. left. apply in_or_app. left.
        destruct inner as [im ifn ib ips]. simpl in Hf. subst ifn.
        destruct f as [|c fname]; [discriminate|].
        simpl in Hl. destruct ib as [ib|]; [|discriminate].
        simpl. left. reflexivity. }
      destruct top as [m tf b ps]. simpl in Htop. subst ps.
      simpl. rewrite flat_map_app, map_app. apply in_or_app. right.
      simpl. rewrite !map_app. apply in_or_app. left. apply in_or_app. right.
      rewrite Hsub. exact Hin.
Qed.

End PartFacts.

Section PartSamples.
Import GmailArchiver PartSample.

(** C8, refuted as stated: the text part decodes to [ hi]; with markup left
    out the body is the normalised [hi], in which the decoded text does not
    occur. *)
Lemma normalised_body_differs_from_decoded_text :
  decodeBase64 ascii_base64 (Some (str "IGhp")) = str " hi"
  /\ extractBody ascii_base64 false payload = str "hi"
  /\ contains (decodeBase64 ascii_base64 (Some (str "IGhp")))
       (extractBody ascii_base64 false payload) = false
  /\ extractAttachments payload
     = Some [{| att_filename := str "a.pdf";
                att_mimeType := Some (str "application/pdf");
                att_size := Some 3%N |}].
Proof. vm_compute. repeat split. Qed.

(** With markup kept, an HTML part adds its delimited block; without, the
    text below a part that is not plain text is normalised where it is
    gathered and again with the whole body, so that [&amp;lt;] ends as [<]
    where the normaliser applied to the decoded texts gives [&lt;]. *)
Example html_block_and_nested_text :
  extractBody ascii_base64 true rich_payload
  = [NL] ++ str "--- HTML Content ---" ++ [NL] ++ str "<b>" ++ [NL]
    ++ str "--- End HTML ---" ++ [NL] ++ str " hi" ++ str "&amp;lt; hi"
  /\ gathered ascii_base64 false rich_payload = [str " hi"; str "&lt; hi"]
  /\ extractBody ascii_base64 false rich_payload = str "hi< hi"
  /\ cleanText (Text (str " hi" ++ str "&amp;lt; hi")) = str "hi&lt; hi".
Proof. vm_compute. repeat split. Qed.

Lemma nested_part_extraction_witness :
  parts_of rich_payload = Some ([html_alternative] ++ text_part :: [forwarded])
  /\ mime_is (mimeType_of text_part) "text/plain" = true
  /\ body_data (body_of text_part) = Some (str "IGhp")
  /\ parts_of text_part = Some ([] ++ pdf :: [])
  /\ filename_of pdf = Some (str "a.pdf")
  /\ truthy (str "a.pdf") = true
  /\ bodies_present rich_payload = true
  /\ (extractBody ascii_base64 true rich_payload
      = (if true then concat (gathered ascii_base64 true rich_payload)
         else cleanText (Text (concat (gathered ascii_base64 true rich_payload))))
      /\ gathered ascii_base64 true rich_payload
         = own_text ascii_base64 rich_payload
           ++ gathered_parts ascii_base64 true [html_alternative]
           ++ decodeBase64 ascii_base64 (Some (str "IGhp"))
              :: gathered_parts ascii_base64 true [forwarded]
      /\ (forallb is_plain_text ([html_alternative] ++ [forwarded]) = true ->
          gathered ascii_base64 true rich_payload
          = own_text ascii_base64 rich_payload
            ++ List.map (part_text ascii_base64)
                 ([html_alternative] ++ text_part :: [forwarded]))
      /\ (true = true ->
          contains (decodeBase64 ascii_base64 (Some (str "IGhp")))
            (extractBody ascii_base64 true rich_payload) = true)
      /\ exists atts,
           extractAttachments rich_payload = Some atts
           /\ In (str "a.pdf") (List.map att_filename atts))
  /\ extractBody ascii_base64 false payload
     = cleanText (Text (concat (gathered ascii_base64 false payload))).
Proof.
  assert (H1 : parts_of rich_payload
               = Some ([html_alternative] ++ text_part :: [forwarded])) by reflexivity.
  assert (H2 : mime_is (mimeType_of text_part) "text/plain" = true) by reflexivity.
  assert (H3 : body_data (body_of text_part) = Some (str "IGhp")) by reflexivity.
  assert (H4 : parts_of text_part = Some ([] ++ pdf :: [])) by reflexivity.
  assert (H5 : filename_of pdf = Some (str "a.pdf")) by reflexivity.
  assert (H6 : truthy (str "a.pdf") = true) by reflexivity.
  assert (H7 : bodies_present rich_payload = true) by reflexivity.
  repeat (split; [assumption|]).
  split.
  - exact (nested_part_extraction ascii_base64 true rich_payload text_part pdf
             [html_alternative] [forwarded] [] [] (str "IGhp") (str "a.pdf")
             H1 H2 H3 H4 H5 H6 H7).
  - exact (proj1 (nested_part_extraction ascii_base64 false payload text_part pdf
                    [] [] [] [] (str "IGhp") (str "a.pdf")
                    eq_refl H2 H3 H4 H5 H6 eq_refl)).
Defined.

End PartSamples.

(** ** The calendar archiver *)

Section StringOrder.
Import CalendarArchiver.

Lemma str_compare_refl a : str_compare a a = 0%Z.
Proof.
  induction a as [|x a IH]; simpl; [reflexivity|].
  rewrite N.ltb_irrefl. exact IH.
Qed.

Lemma str_compare_eq a : forall b, str_compare a b = 0%Z -> a = b.
Proof.
  induction a as [|x a IH]; intros [|y b]; simpl; try discriminate; [reflexivity|].
  destruct (x <? y)%N eqn:E1; [discriminate|].
  destruct (y <? x)%N eqn:E2; [discriminate|].
  apply N.ltb_ge in E1, E2. intros H. f_equal; [lia|apply IH, H].
Qed.

Lemma str_compare_flip a : forall b, str_compare b a = (- str_compare a b)%Z.
Proof.
  induction a as [|x a IH]; intros [|y b]; simpl; try reflexivity.
  destruct (x <? y)%N eqn:E1, (y <? x)%N eqn:E2; try reflexivity.
  - apply N.ltb_lt in E1, E2. lia.
  - apply IH.
Qed.

Lemma str_compare_range a : forall b, (-1 <= str_compare a b <= 1)%Z.
Proof.
  induction a as [|x a IH]; intros [|y b]; simpl; try lia.
  destruct (x <? y)%N; [lia|]. destruct (y <? x)%N; [lia|]. apply IH.
Qed.

Lemma str_le_trans a : forall b c, str_le a b -> str_le b c -> str_le a c.
Proof.
  unfold str_le.
  induction a as [|x a IH]; intros [|y b] [|z c]; simpl; try lia.
  destruct (N.lt_trichotomy x y) as [H1|[H1|H1]],
           (N.lt_trichotomy y z) as [H2|[H2|H2]];
    repeat match goal with
           | |- context [(?u <? ?v)%N] =>
               (rewrite (proj2 (N.ltb_lt u v)) by lia)
               || (rewrite (proj2 (N.ltb_ge u v)) by lia)
           end;
    try lia.
  apply IH.
Qed.

Lemma sorted_nodup_strict l :
  StronglySorted str_le l -> NoDup l -> StronglySorted str_lt l.
Proof.
  induction 1 as [|x l Hs IH Hx]; intros Hn; [constructor|].
  inversion Hn as [|? ? Hnotin Hn']; subst.
  constructor; [apply IH, Hn'|].
  rewrite List.Forall_forall in *. intros y Hy.
  specialize (Hx y Hy). unfold str_le, str_lt in *.
  destruct (Z.eq_dec (str_compare x y) 0%Z) as [E|E]; [|lia].
  apply str_compare_eq in E. subst. apply list_elem_of_In in Hy. contradiction.
Qed.

End StringOrder.

(** Month keys of four-digit years are ordered as the months are. *)
Lemma four_digits_checked :
  forallb four_digits_ok (seq (N.to_nat 1000) (N.to_nat 9000)) = true.
Proof. vm_compute. reflexivity. Qed.

Lemma two_digits_checked : forallb two_digits_ok (seq 1 12) = true.
Proof. vm_compute. reflexivity. Qed.

Lemma decimalZ_positive z : (0 < z)%Z -> decimalZ z = decimal (Z.to_N z).
Proof. destruct z; [lia|reflexivity|lia]. Qed.

Lemma year_digits y :
  (1000 <= y <= 9999)%Z ->
  exists a3 a2 a1 a0 : N,
    decimalZ y = [48 + a3; 48 + a2; 48 + a1; 48 + a0]%N
    /\ (a3 < 10 /\ a2 < 10 /\ a1 < 10 /\ a0 < 10)%N
    /\ y = (1000 * Z.of_N a3 + 100 * Z.of_N a2 + 10 * Z.of_N a1 + Z.of_N a0)%Z.
Proof.
  intros Hy.
  assert (Hin : In (Z.to_nat y) (seq (N.to_nat 1000) (N.to_nat 9000)))
    by (apply in_seq; lia).
  pose proof (proj1 (forallb_forall _ _) four_digits_checked _ Hin) as H.
  unfold four_digits_ok in H. cbv zeta in H.
  replace (N.of_nat (Z.to_nat y)) with (Z.to_N y) in H by lia.
  repeat (apply andb_true_iff in H as [H ?]).
  apply jsstring_eqb_true in H.
  repeat match goal with
         | E : (_ <? _)%N = true |- _ => apply N.ltb_lt in E
         | E : (_ =? _)%N = true |- _ => apply N.eqb_eq in E
         end.
  eexists _, _, _, _. split.
  - rewrite decimalZ_positive by lia. exact H.
  - split; [repeat split; assumption|]. lia.
Qed.

Lemma month_digits m :
  (0 <= m <= 11)%Z ->
  exists b1 b0 : N,
    CalendarArchiver.padStart2 (decimalZ (m + 1)) = [48 + b1; 48 + b0]%N
    /\ (b1 < 10 /\ b0 < 10)%N
    /\ (m + 1 = 10 * Z.of_N b1 + Z.of_N b0)%Z.
Proof.
  intros Hm.
  assert (Hin : In (Z.to_nat (m + 1)) (seq 1 12)) by (apply in_seq; lia).
  pose proof (proj1 (forallb_forall _ _) two_digits_checked _ Hin) as H.
  unfold two_digits_ok in H. cbv zeta in H.
  replace (N.of_nat (Z.to_nat (m + 1))) with (Z.to_N (m + 1)) in H by lia.
  repeat (apply andb_true_iff in H as [H ?]).
  apply jsstring_eqb_true in H.
  repeat match goal with
         | E : (_ <? _)%N = true |- _ => apply N.ltb_lt in E
         | E : (_ =? _)%N = true |- _ => apply N.eqb_eq in E
         end.
  eexists _, _. split.
  - rewrite decimalZ_positive by lia. exact H.
  - split; [split; assumption|]. lia.
Qed.

Lemma digit_ltb (a b : N) : ((48 + a <? 48 + b) = (a <? b))%N.
Proof.
  destruct (a <? b)%N eqn:E.
  - apply N.ltb_lt in E. apply N.ltb_lt. lia.
  - apply N.ltb_ge in E. apply N.ltb_ge. lia.
Qed.

Lemma month_key_order (a3 a2 a1 a0 b1 b0 c3 c2 c1 c0 d1 d0 : N) :
  (a3 < 10 /\ a2 < 10 /\ a1 < 10 /\ a0 < 10 /\ b1 < 10 /\ b0 < 10)%N ->
  (c3 < 10 /\ c2 < 10 /\ c1 < 10 /\ c0 < 10 /\ d1 < 10 /\ d0 < 10)%N ->
  str_lt ([48 + a3; 48 + a2; 48 + a1; 48 + a0] ++ str "-" ++ [48 + b1; 48 + b0])%N
         ([48 + c3; 48 + c2; 48 + c1; 48 + c0] ++ str "-" ++ [48 + d1; 48 + d0])%N
  <-> (100 * (1000 * a3 + 100 * a2 + 10 * a1 + a0) + (10 * b1 + b0)
       < 100 * (1000 * c3 + 100 * c2 + 10 * c1 + c0) + (10 * d1 + d0))%N.
Proof.
  intros Ha Hc. unfold str_lt.
  change (str "-") with [45%N]. cbn [app CalendarArchiver.str_compare].
  rewrite !digit_ltb, N.ltb_irrefl.
  repeat match goal with
         | |- context [(?u <? ?v)%N] =>
             let E := fresh "E" in
             destruct (u <? v)%N eqn:E;
             [apply N.ltb_lt in E|apply N.ltb_ge in E]
         end; lia.
Qed.

Section CalendarListing.
Import CalendarArchiver.

Variable events_list :
  jsstring -> jsstring -> jsstring -> option jsstring -> option events_page.

Lemma events_loop_step fuel cal tmin tmax token acc t :
  events_loop events_list (S fuel) cal tmin tmax token acc t =
  match events_api events_list cal tmin tmax token with
  | None => Exn (t ++ [Fetch "events.list" cal token 250])
  | Some (items, next) =>
      let t' := t ++ [Fetch "events.list" cal token 250; Delay 100] in
      if more next
      then events_loop events_list fuel cal tmin tmax next (acc ++ items) t'
      else Ret (acc ++ items) t'
  end.
Proof.
  simpl. unfold mbind, run_bind, bind, log_call, log_emit, events_api.
  destruct (events_list cal tmin tmax token) as [[[items|] next]|]; simpl;
    try reflexivity.
  - rewrite <- app_assoc. simpl. destruct (more next); reflexivity.
  - rewrite <- app_assoc, app_nil_r. simpl. destruct (more next); reflexivity.
Qed.

Lemma events_loop_serves cal tmin tmax c pages :
  serves (events_api events_list cal tmin tmax) c pages ->
  forall fuel acc t, length pages <= fuel ->
  events_loop events_list fuel cal tmin tmax c acc t
  = Ret (acc ++ items_of pages) (t ++ paced "events.list" cal 250 [Delay 100] c pages).
Proof.
  induction 1 as [c items next Hapi Hmore|c items next rest Hapi Hmore Hs IH];
    intros [|fuel] acc t Hf; simpl in Hf; try lia;
    rewrite events_loop_step, Hapi; cbv zeta; rewrite Hmore.
  - unfold items_of. simpl. rewrite app_nil_r. reflexivity.
  - rewrite IH by lia. unfold items_of. simpl.
    rewrite <- !app_assoc. reflexivity.
Qed.

Lemma events_loop_breaks cal tmin tmax c pages :
  breaks (events_api events_list cal tmin tmax) c pages ->
  forall fuel acc t, length pages < fuel ->
  events_loop events_list fuel cal tmin tmax c acc t
  = Exn (t ++ paced "events.list" cal 250 [Delay 100] c pages
           ++ [Fetch "events.list" cal (cursor_after c pages) 250]).
Proof.
  induction 1 as [c Hapi|c items next rest Hapi Hmore Hs IH];
    intros [|fuel] acc t Hf; simpl in Hf; try lia;
    rewrite events_loop_step, Hapi.
  - reflexivity.
  - cbv zeta. rewrite Hmore. rewrite IH by lia. simpl.
    rewrite <- !app_assoc. reflexivity.
Qed.

Lemma getEvents_serves cal tmin tmax c pages fuel t :
  serves (events_api events_list cal tmin tmax) c pages -> length pages <= fuel ->
  getEvents events_list fuel cal tmin tmax c t
  = Ret (items_of pages) (t ++ paced "events.list" cal 250 [Delay 100] c pages).
Proof.
  intros Hs Hf. unfold getEvents, try_catch.
  rewrite (events_loop_serves _ _ _ _ _ Hs) by exact Hf. reflexivity.
Qed.

Lemma getEvents_breaks cal tmin tmax c pages fuel t :
  breaks (events_api events_list cal tmin tmax) c pages -> length pages < fuel ->
  getEvents events_list fuel cal tmin tmax c t
  = Ret [] (t ++ paced "events.list" cal 250 [Delay 100] c pages
              ++ [Fetch "events.list" cal (cursor_after c pages) 250]).
Proof.
  intros Hb Hf. unfold getEvents, try_catch.
  rewrite (events_loop_breaks _ _ _ _ _ Hb) by exact Hf. reflexivity.
Qed.

End CalendarListing.

Section CalendarFacts.
Import CalendarArchiver.

Variable date_parse : option jsstring -> option Z.
Variable getFullYear : Z -> Z.
Variable getMonth : Z -> Z.

Local Abbreviation key := (monthKey date_parse getFullYear getMonth).
Local Abbreviation in_month k := (fun e => jsstring_eqb (key e) k).

Lemma lookup_push k k' e acc :
  lookup_month k (push_event k' e acc)
  = if jsstring_eqb k' k then lookup_month k acc ++ [e] else lookup_month k acc.
Proof.
  induction acc as [|[k0 es] acc IH]; simpl.
  - destruct (jsstring_eqb k' k); reflexivity.
  - destruct (jsstring_eqb k0 k') eqn:E0; simpl.
    + apply jsstring_eqb_true in E0. subst k0.
      destruct (jsstring_eqb k' k); reflexivity.
    + destruct (jsstring_eqb k0 k) eqn:E1; [|exact IH].
      apply jsstring_eqb_true in E1. subst k0.
      rewrite jsstring_eqb_false; [reflexivity|].
      intros ->. rewrite jsstring_eqb_refl in E0. discriminate.
Qed.

Lemma keys_push k' e acc :
  List.map fst (push_event k' e acc)
  = if existsb (jsstring_eqb k') (List.map fst acc) then List.map fst acc
    else List.map fst acc ++ [k'].
Proof.
  induction acc as [|[k0 es] acc IH]; simpl; [reflexivity|].
  destruct (jsstring_eqb k0 k') eqn:E0; simpl.
  - apply jsstring_eqb_true in E0. subst k0. rewrite jsstring_eqb_refl. reflexivity.
  - assert (E1 : jsstring_eqb k' k0 = false).
    { apply jsstring_eqb_false. intros ->. rewrite jsstring_eqb_refl in E0. discriminate. }
    rewrite E1, IH. simpl.
    destruct (existsb (jsstring_eqb k') (List.map fst acc)); reflexivity.
Qed.

Lemma existsb_eqb_in k l : existsb (jsstring_eqb k) l = true <-> In k l.
Proof.
  rewrite existsb_exists. split.
  - intros (x & Hx & E). apply jsstring_eqb_true in E. subst. exact Hx.
  - intros H. exists k. split; [exact H|apply jsstring_eqb_refl].
Qed.

Lemma group_fold events : forall acc,
  NoDup (List.map fst acc) ->
  let g := fold_left (fun byMonth e => push_event (key e) e byMonth) events acc in
  NoDup (List.map fst g)
  /\ (forall k, lookup_month k g = lookup_month k acc ++ List.filter (in_month k) events)
  /\ (forall k, In k (List.map fst g)
                <-> In k (List.map fst acc) \/ In k (List.map key events)).
Proof.
  induction events as [|e events IH]; intros acc Hn; simpl.
  - split; [exact Hn|]. split; [intros; rewrite app_nil_r; reflexivity|tauto].
  - assert (Hn' : NoDup (List.map fst (push_event (key e) e acc))).
    { rewrite keys_push.
      destruct (existsb (jsstring_eqb (key e)) (List.map fst acc)) eqn:E; [exact Hn|].
      apply NoDup_app. split; [exact Hn|]. split.
      - intros x Hx [<-|[]]%list_elem_of_In.
        apply list_elem_of_In in Hx.
        apply existsb_eqb_in in Hx. congruence.
      - repeat constructor. intros []%list_elem_of_In. }
    destruct (IH _ Hn') as (H1 & H2 & H3). split; [exact H1|]. split.
    + intros k. rewrite H2, lookup_push.
      destruct (jsstring_eqb (key e) k); [rewrite <- app_assoc|]; reflexivity.
    + intros k. rewrite H3, keys_push.
      destruct (existsb (jsstring_eqb (key e)) (List.map fst acc)) eqn:E.
      * apply existsb_eqb_in in E. split; [tauto|].
        intros [H|[<-|H]]; tauto.
      * rewrite in_app_iff. simpl. tauto.
Qed.

Lemma group_by_month_spec events :
  let g := group_by_month date_parse getFullYear getMonth events in
  NoDup (List.map fst g)
  /\ (forall k, lookup_month k g = List.filter (in_month k) events)
  /\ (forall k, In k (List.map fst g) <-> In k (List.map key events)).
Proof.
  destruct (group_fold events [] (NoDup_nil_2 : NoDup (List.map fst []))) as (H1 & H2 & H3).
  split; [exact H1|]. split; [exact H2|].
  intros k. rewrite (H3 k). simpl. tauto.
Qed.

Lemma filter_sorted {A} (R : A -> A -> Prop) p l :
  StronglySorted R l -> StronglySorted R (List.filter p l).
Proof.
  induction 1 as [|x l Hs IH Hx]; simpl; [constructor|].
  destruct (p x); [|exact IH].
  constructor; [exact IH|].
  rewrite List.Forall_forall in *. intros y Hy.
  apply List.filter_In in Hy as [Hy _]. apply Hx, Hy.
Qed.

Lemma months_cover_cons e events ks :
  NoDup ks -> In (key e) ks ->
  Permutation (flat_map (fun k => List.filter (in_month k) (e :: events)) ks)
              (e :: flat_map (fun k => List.filter (in_month k) events) ks).
Proof.
  induction 1 as [|k ks Hk Hn IH]; intros Hin; [destruct Hin|].
  simpl. destruct (jsstring_eqb (key e) k) eqn:E.
  - apply jsstring_eqb_true in E. subst k. simpl. constructor.
    apply Permutation_app_head.
    clear IH Hin Hn. induction ks as [|k ks IH]; simpl; [reflexivity|].
    rewrite jsstring_eqb_false.
    + apply Permutation_app_head. apply IH. intros H. apply Hk. right. exact H.
    + intros <-. apply Hk. left.
  - destruct Hin as [->|Hin]; [rewrite jsstring_eqb_refl in E; discriminate|].
    rewrite (IH Hin). symmetry. apply Permutation_middle.
Qed.

Lemma months_cover events : forall ks,
  NoDup ks -> (forall e, In e events -> In (key e) ks) ->
  Permutation (flat_map (fun k => List.filter (in_month k) events) ks) events.
Proof.
  induction events as [|e events IH]; intros ks Hn Hall.
  - simpl. induction ks as [|k ks IHk]; simpl; [constructor|].
    apply IHk; [inversion Hn; assumption|intros ? []].
  - rewrite months_cover_cons; [|exact Hn|apply Hall; left; reflexivity].
    constructor. apply IH; [exact Hn|]. intros x Hx. apply Hall. right. exact Hx.
Qed.

Lemma month_keys_chronological a b y1 m1 y2 m2 :
  year_month date_parse getFullYear getMonth a y1 m1 ->
  year_month date_parse getFullYear getMonth b y2 m2 ->
  (1000 <= y1 <= 9999)%Z -> (1000 <= y2 <= 9999)%Z ->
  (0 <= m1 <= 11)%Z -> (0 <= m2 <= 11)%Z ->
  str_lt (key a) (key b) <-> (y1 < y2 \/ (y1 = y2 /\ m1 < m2))%Z.
Proof.
  intros (d1 & Ed1 & <- & <-) (d2 & Ed2 & <- & <-) Hy1 Hy2 Hm1 Hm2.
  unfold monthKey. rewrite Ed1, Ed2.
  change (str_lt
            (decimalZ (getFullYear d1) ++ str "-"
             ++ padStart2 (decimalZ (getMonth d1 + 1)))
            (decimalZ (getFullYear d2) ++ str "-"
             ++ padStart2 (decimalZ (getMonth d2 + 1)))
          <-> (getFullYear d1 < getFullYear d2
               \/ (getFullYear d1 = getFullYear d2 /\ getMonth d1 < getMonth d2))%Z).
  destruct (year_digits _ Hy1) as (a3 & a2 & a1 & a0 & -> & Ha & Ey1).
  destruct (year_digits _ Hy2) as (c3 & c2 & c1 & c0 & -> & Hc & Ey2).
  destruct (month_digits _ Hm1) as (b1 & b0 & -> & Hb & Em1).
  destruct (month_digits _ Hm2) as (e1 & e0 & -> & He & Em2).
  rewrite month_key_order by (repeat split; tauto). lia.
Qed.

Variable formatEvent : cal_event -> jsstring.
Variable monthName : jsstring -> jsstring.
Variable now : jsstring.

Lemma sortedMonths_spec events :
  let g := group_by_month date_parse getFullYear getMonth events in
  StronglySorted str_lt (sortedMonths g)
  /\ NoDup (sortedMonths g)
  /\ forall k, In k (sortedMonths g) <-> In k (List.map key events).
Proof.
  intros g. destruct (group_by_month_spec events) as (Hn & _ & Hk). fold g in Hn, Hk.
  assert (Hp : Permutation (List.map fst g) (sortedMonths g)) by apply js_sort_perm.
  assert (Hn' : NoDup (sortedMonths g)).
  { apply NoDup_ListNoDup. eapply Permutation_NoDup; [exact Hp|].
    apply NoDup_ListNoDup. exact Hn. }
  split; [|split; [exact Hn'|]].
  - apply sorted_nodup_strict; [|exact Hn'].
    apply (js_sort_sorted str_compare str_le).
    + intros a b H. exact H.
    + intros a b H. unfold str_le. rewrite str_compare_flip. lia.
    + intros a b c. apply str_le_trans.
  - intros k. rewrite <- Hk. split; apply Permutation_in; [symmetry|]; exact Hp.
Qed.

(** The sections of a calendar file: one per month key, in strictly
    ascending order of the keys, each with the events of its key in the
    order in which they were supplied. *)
Lemma month_sections_spec calendarName events year t :
  let sections := month_sections date_parse getFullYear getMonth events in
  StronglySorted str_lt (List.map fst sections)
  /\ Forall (fun sec =>
               snd sec = List.filter (in_month (fst sec)) events /\ snd sec <> [])
       sections
  /\ Permutation (concat (List.map snd sections)) events
  /\ (StronglySorted (starts_by date_parse) events ->
      Forall (fun sec => StronglySorted (starts_by date_parse) (snd sec)) sections)
  /\ (forall a b y1 m1 y2 m2,
        year_month date_parse getFullYear getMonth a y1 m1 ->
        year_month date_parse getFullYear getMonth b y2 m2 ->
        (1000 <= y1 <= 9999)%Z -> (1000 <= y2 <= 9999)%Z ->
        (0 <= m1 <= 11)%Z -> (0 <= m2 <= 11)%Z ->
        str_lt (key a) (key b) <-> (y1 < y2 \/ (y1 = y2 /\ m1 < m2))%Z)
  /\ exists fileName header,
       saveCalendarEvents date_parse getFullYear getMonth formatEvent monthName now
         calendarName events year t
       = Ret tt (t ++ [Write fileName
                         (header ++ concat (List.map (section_text formatEvent monthName)
                                              sections))]).
Proof.
  intros sections.
  destruct (group_by_month_spec events) as (_ & Hlook & _).
  destruct (sortedMonths_spec events) as (Hs & Hn & Hk).
  set (g := group_by_month date_parse getFullYear getMonth events) in *.
  assert (Hkeys : List.map fst sections = sortedMonths g).
  { unfold sections, month_sections. fold g. rewrite List.map_map. simpl.
    apply List.map_id. }
  assert (Hgroups : List.map snd sections
                    = List.map (fun k => List.filter (in_month k) events) (sortedMonths g)).
  { unfold sections, month_sections. fold g. rewrite List.map_map. simpl.
    apply List.map_ext. intros k. apply Hlook. }
  split; [rewrite Hkeys; exact Hs|]. split; [|split; [|split]].
  - unfold sections, month_sections. fold g.
    apply List.Forall_forall. intros sec Hsec.
    apply List.in_map_iff in Hsec as (k & <- & Hin). simpl.
    rewrite Hlook. split; [reflexivity|].
    apply Hk in Hin. apply List.in_map_iff in Hin as (e & He & Hine).
    intros Hnil.
    assert (Hf : In e (List.filter (in_month k) events)).
    { apply List.filter_In. split; [exact Hine|].
      rewrite He. apply jsstring_eqb_refl. }
    rewrite Hnil in Hf. destruct Hf.
  - rewrite Hgroups, <- flat_map_concat_map.
    apply months_cover.
    + exact Hn.
    + intros e He. apply Hk. apply List.in_map. exact He.
  - intros Hsorted. unfold sections, month_sections. fold g.
    apply List.Forall_forall. intros sec Hsec.
    apply List.in_map_iff in Hsec as (k & <- & Hin). simpl.
    rewrite Hlook. apply filter_sorted. exact Hsorted.
  - split; [apply month_keys_chronological|].
    exists (calendar_file calendarName year),
           (calendar_header now calendarName (length events) year).
    reflexivity.
Qed.


Variable events_list :
  jsstring -> jsstring -> jsstring -> option jsstring -> option events_page.

Lemma month_key_of_year_month a b y m :
  year_month date_parse getFullYear getMonth a y m ->
  year_month date_parse getFullYear getMonth b y m ->
  key a = key b.
Proof.
  intros (d1 & E1 & Y1 & M1) (d2 & E2 & Y2 & M2).
  unfold monthKey. rewrite E1, E2. simpl. rewrite Y1, Y2, M1, M2. reflexivity.
Qed.

Lemma year_month_unique a y1 m1 y2 m2 :
  year_month date_parse getFullYear getMonth a y1 m1 ->
  year_month date_parse getFullYear getMonth a y2 m2 ->
  y1 = y2 /\ m1 = m2.
Proof.
  intros (d1 & E1 & Y1 & M1) (d2 & E2 & Y2 & M2).
  rewrite E1 in E2. injection E2 as <-. split; congruence.
Qed.

Lemma str_lt_irrefl k : ~ str_lt k k.
Proof. unfold str_lt. rewrite str_compare_refl. lia. Qed.

(** Events of four-digit years that bear one key start in one month. *)
Lemma same_key_same_month a b :
  in_four_digit_year date_parse getFullYear getMonth a ->
  in_four_digit_year date_parse getFullYear getMonth b ->
  key a = key b ->
  same_month date_parse getFullYear getMonth a b.
Proof.
  intros (y1 & m1 & Ha & Hy1 & Hm1) (y2 & m2 & Hb & Hy2 & Hm2) Hk.
  pose proof (month_keys_chronological a b y1 m1 y2 m2 Ha Hb Hy1 Hy2 Hm1 Hm2) as H1.
  pose proof (month_keys_chronological b a y2 m2 y1 m1 Hb Ha Hy2 Hy1 Hm2 Hm1) as H2.
  rewrite Hk in H1, H2.
  assert (E : y1 = y2 /\ m1 = m2).
  { destruct (Z.lt_trichotomy y1 y2) as [L|[L|L]].
    - exfalso. apply (str_lt_irrefl (key b)), H1. left. exact L.
    - destruct (Z.lt_trichotomy m1 m2) as [L'|[L'|L']].
      + exfalso. apply (str_lt_irrefl (key b)), H1. right. split; assumption.
      + split; assumption.
      + exfalso. apply (str_lt_irrefl (key b)), H2. right. split; [symmetry|]; assumption.
    - exfalso. apply (str_lt_irrefl (key b)), H2. left. exact L. }
  destruct E as [<- <-]. exists y1, m1. split; assumption.
Qed.

Lemma sorted_by_key {A B} (f : A -> B) (R : B -> B -> Prop) (Q : A -> A -> Prop)
  (P : A -> Prop) l :
  (forall x y, P x -> P y -> R (f x) (f y) -> Q x y) ->
  StronglySorted R (List.map f l) -> Forall P l -> StronglySorted Q l.
Proof.
  intros HQ. induction l as [|x l IH]; intros Hs Hp; [constructor|].
  simpl in Hs. inversion Hs as [|? ? Hs' Hx]; subst.
  inversion Hp as [|? ? Px Pl]; subst.
  constructor; [apply IH; assumption|].
  rewrite List.Forall_forall in *. intros y Hy.
  apply HQ; [exact Px|apply Pl, Hy|].
  apply Hx. apply List.in_map. exact Hy.
Qed.


End CalendarFacts.

Section CalendarSamples.
Import CalendarArchiver CalendarSample.

(** [saveCalendarEvents] itself sorts the keys of the months only: events
    that it is handed out of order, which [getEvents] does not do, stay so
    within their month. *)
Example month_keeps_supplied_order :
  month_sections parse_day year_of month_of [review; kickoff]
  = [(str "2024-01", [review; kickoff])].
Proof. vm_compute. reflexivity. Qed.

(** The keys are compared as strings, and the year is not padded: a month
    of the year 999 would be written after a month of the year 1000. *)
Example short_year_sorts_last :
  month_sections parse_day year_of month_of [founding; jubilee]
  = [(str "1000-01", [jubilee]); (str "999-12", [founding])].
Proof. vm_compute. reflexivity. Qed.

Lemma quarter_serves cal tmin tmax :
  serves (events_api quarter cal tmin tmax) None quarter_pages.
Proof.
  apply serves_more; [reflexivity|reflexivity|].
  apply serves_last; reflexivity.
Defined.

Lemma quarter_in_order :
  StronglySorted (starts_by parse_day) (items_of quarter_pages).
Proof. repeat constructor; vm_compute; intros E; discriminate E. Defined.

Lemma quarter_in_four_digit_years :
  Forall (in_four_digit_year parse_day year_of month_of) (items_of quarter_pages).
Proof.
  repeat constructor.
  - exists 2024%Z, 0%Z. split; [exists 20240110%Z; repeat split|lia].
  - exists 2024%Z, 0%Z. split; [exists 20240120%Z; repeat split|lia].
  - exists 2024%Z, 1%Z. split; [exists 20240202%Z; repeat split|lia].
Defined.


End CalendarSamples.

(** * Further properties of the code *)

(** ** Runs *)

Section KeepsFacts.
Context {S : Type} (R : S -> S -> Prop).
Hypothesis R_refl : forall s, R s s.
Hypothesis R_trans : forall a b c, R a b -> R b c -> R a c.

Lemma keeps_ret {A} (a : A) : keeps R (ret a).
Proof using R_refl. intros s. apply R_refl. Qed.

Lemma keeps_throw {A} : keeps R (@throw S A).
Proof using R_refl. intros s. apply R_refl. Qed.

Lemma keeps_bind {A B} (m : M S A) (f : A -> M S B) :
  keeps R m -> (forall a, keeps R (f a)) -> keeps R (bind m f).
Proof using R_trans.
  intros Hm Hf s. unfold bind. specialize (Hm s).
  destruct (m s) as [a s'| s' |]; [|exact Hm|exact I].
  specialize (Hf a s'). destruct (f a s'); try exact I; eapply R_trans; eassumption.
Qed.

Lemma keeps_try_catch {A} (m h : M S A) :
  keeps R m -> keeps R h -> keeps R (try_catch m h).
Proof using R_trans.
  intros Hm Hh s. unfold try_catch. specialize (Hm s).
  destruct (m s) as [a s'| s' |]; [exact Hm| |exact I].
  specialize (Hh s'). destruct (h s'); try exact I; eapply R_trans; eassumption.
Qed.
End KeepsFacts.

(** ** The Slack run *)

Section SlackRun.
Import SlackArchiver.

Variable conversations_list : option jsstring -> option (page conversation).
Variable conversations_history :
  jsstring -> option jsstring -> option (page message).
Variable users_info : identity_service.
Variable parseFloat : jsstring -> Z.
Variable dateStr : jsstring -> option jsstring.
Variable inexact_text : Z -> jsstring.
Variable now : jsstring.
Variable disk_ok : jsstring -> bool.

Lemma conversations_loop_breaks c pages :
  breaks conversations_list c pages ->
  forall fuel acc w, length pages < fuel ->
  conversations_loop conversations_list fuel c acc w =
  Exn (logged w (paced "conversations.list" [] 200 [] c pages
                 ++ [Fetch "conversations.list" [] (cursor_after c pages) 200])).
Proof.
  induction 1 as [c Hapi|c items next rest Hapi Hmore Hs IH];
    intros [|fuel] acc w Hf; simpl in Hf; try lia;
    rewrite conversations_loop_step, Hapi.
  - reflexivity.
  - cbv zeta. rewrite Hmore. rewrite IH by lia. rewrite logged_logged.
    reflexivity.
Qed.

(** X1: [getConversations] follows the cursors to the last page: it returns the
    channels of all pages in the order of the pages, after one request per
    page, each with the cursor of the page before, and no pause. *)
Theorem getConversations_lists_every_page listing fuel w :
  serves conversations_list None listing ->
  length listing <= fuel ->
  getConversations conversations_list fuel w
  = Ret (items_of listing)
        (logged w (paced "conversations.list" [] 200 [] None listing)).
Proof.
  intros Hs Hf. unfold getConversations, try_catch.
  rewrite (conversations_loop_serves _ _ _ Hs) by exact Hf. reflexivity.
Qed.

(** X2: When a request of the listing fails, [getConversations] returns no
    conversation at all, and [archive] ends there: the channels of the pages
    already listed are dropped, no history is asked for and no file is
    written. *)
Theorem archive_ends_when_listing_fails pages fuel w :
  breaks conversations_list None pages ->
  length pages < fuel ->
  let failed :=
    logged w (paced "conversations.list" [] 200 [] None pages
              ++ [Fetch "conversations.list" [] (cursor_after None pages) 200]) in
  getConversations conversations_list fuel w = Ret [] failed
  /\ archive conversations_list conversations_history users_info parseFloat
       dateStr inexact_text now disk_ok fuel w
     = Ret (0, 0) failed.
Proof.
  intros Hb Hf failed.
  assert (E : getConversations conversations_list fuel w = Ret [] failed).
  { unfold getConversations, try_catch.
    rewrite (conversations_loop_breaks _ _ Hb) by exact Hf. reflexivity. }
  split; [exact E|].
  unfold archive, mbind, run_bind, bind. rewrite E. reflexivity.
Qed.


(** *** What a record costs *)

Local Abbreviation grows := (grows_unwritten users_info).

Lemma sound_logged w new : sound users_info w -> sound users_info (logged w new).
Proof.
  intros Hs id u Hl. destruct (Hs id u Hl) as (t1 & t2 & E & Hu).
  exists t1, (t2 ++ new). simpl. rewrite E, <- app_assoc. split; [reflexivity|exact Hu].
Qed.

Lemma grows_unwritten_refl w : grows w w.
Proof.
  split; [reflexivity|]. split; [intros H; exact H|].
  exists []. rewrite app_nil_r. split; reflexivity.
Qed.

Lemma grows_unwritten_trans a b c : grows a b -> grows b c -> grows a c.
Proof.
  intros (H1 & S1 & n1 & E1 & C1) (H2 & S2 & n2 & E2 & C2).
  split; [etransitivity; eassumption|]. split; [intros H; apply S2, S1, H|].
  exists (n1 ++ n2). rewrite E2, E1, <- app_assoc. split; [reflexivity|].
  unfold count in *. rewrite List.filter_app, length_app, C1, C2. reflexivity.
Qed.

Lemma grows_unwritten_logged w new :
  count is_write new = 0 -> grows w (logged w new).
Proof.
  intros H. split; [reflexivity|]. split; [apply sound_logged|].
  exists new. split; [reflexivity|exact H].
Qed.

Lemma after_lookup_grows id w : grows w (after_lookup users_info id w).
Proof.
  unfold after_lookup. destruct (userCache w !! id) as [u|] eqn:E.
  - apply grows_unwritten_refl.
  - destruct (users_info (events w) id) as [u|] eqn:Eu.
    + split; [|split].
      * simpl. apply insert_subseteq. exact E.
      * intros Hs j v. simpl. intros Hl.
        destruct (decide (id = j)) as [->|Hne].
        -- rewrite lookup_insert_eq in Hl. injection Hl as <-.
           exists (events w), []. split; [reflexivity|exact Eu].
        -- rewrite lookup_insert_ne in Hl by assumption.
           destruct (Hs j v Hl) as (t1 & t2 & Et & Hu).
           exists t1, (t2 ++ [Lookup id]). rewrite Et, <- app_assoc.
           split; [reflexivity|exact Hu].
      * exists [Lookup id]. split; reflexivity.
    + apply grows_unwritten_logged. reflexivity.
Qed.

Lemma getUserInfo_effect id w :
  exists u, getUserInfo users_info id w = Ret u (after_lookup users_info id w).
Proof.
  rewrite getUserInfo_run. unfold after_lookup.
  destruct (userCache w !! id); [eauto|].
  destruct (users_info (events w) id); eauto.
Qed.

Lemma formatMessage_effect m w :
  match dateStr (ts m) with
  | None => formatMessage users_info dateStr inexact_text m w = Exn w
  | Some _ =>
      exists r,
        formatMessage users_info dateStr inexact_text m w
        = Ret r (match sender m with
                 | Some id => after_lookup users_info id w
                 | None => w
                 end)
        /\ stamped dateStr m r
  end.
Proof.
  destruct (dateStr (ts m)) as [d|] eqn:Ed.
  2:{ apply formatMessage_undated. unfold dated. rewrite Ed. reflexivity. }
  unfold formatMessage, mbind, run_bind, bind, sender. rewrite Ed. unfold ret at 1.
  match goal with
  | |- context [match ?userName w with _ => _ end] =>
      assert (Hn : exists n, userName w
                             = Ret n (match msg_user m with
                                      | Some (c :: u) => after_lookup users_info (c :: u) w
                                      | _ => w
                                      end))
  end.
  { destruct (msg_user m) as [[|c u]|].
    2:{ destruct (getUserInfo_effect (c :: u) w) as (ui & E).
        rewrite E. eexists. reflexivity. }
    all: destruct (bot_id m) as [[|c b]|]; try (eexists; reflexivity);
      destruct (username m) as [[|c n]|]; eexists; reflexivity. }
  destruct Hn as (n & ->).
  eexists. split.
  - destruct (msg_user m) as [[|c u]|]; reflexivity.
  - exists d, n. cbv zeta.
    destruct (attachments m) as [[|a atts]|], (files m) as [[|f fs]|],
      (reply_count m) as [z|]; try destruct (0 <? z)%Z;
      eexists; (split; [exact Ed|]); rewrite <- ?app_assoc; reflexivity.
Qed.

(** X3: [formatMessage] formats no message whose time stamp gives no valid
    date: [toISOString] throws before anything is asked or changed.  For
    any other message it returns a record, which opens with the time stamp
    of the message, and asks the identity service at most one question: for
    the sender of a message that has one ([message.user]) and is not in the
    cache; for a bot or a message without a sender it asks nothing.  No
    cache entry is changed. *)
Theorem formatMessage_asks_for_uncached_sender_only m w :
  match dateStr (ts m) with
  | None => formatMessage users_info dateStr inexact_text m w = Exn w
  | Some _ =>
      exists r w',
        formatMessage users_info dateStr inexact_text m w = Ret r w'
        /\ stamped dateStr m r
        /\ userCache w ⊆ userCache w'
        /\ events w'
           = events w
             ++ match sender m with
                | Some id => match userCache w !! id with
                             | Some _ => []
                             | None => [Lookup id]
                             end
                | None => []
                end
  end.
Proof.
  pose proof (formatMessage_effect m w) as H.
  destruct (dateStr (ts m)) as [d|]; [|exact H].
  destruct H as (r & E & Hr).
  eexists r, _. split; [exact E|]. split; [exact Hr|].
  destruct (sender m) as [id|].
  - split; [apply after_lookup_grows|].
    unfold after_lookup. destruct (userCache w !! id).
    + rewrite app_nil_r. reflexivity.
    + destruct (users_info (events w) id); reflexivity.
  - split; [reflexivity|]. rewrite app_nil_r. reflexivity.
Qed.


(** *** The run as a whole *)

Lemma format_all_grows msgs : forall content w,
  match format_all users_info dateStr inexact_text msgs content w with
  | Ret _ w' => grows w w'
  | Exn w' => grows w w'
  | Timeout => False
  end.
Proof.
  induction msgs as [|m msgs IH]; intros content w; simpl.
  - apply grows_unwritten_refl.
  - unfold mbind, run_bind, bind.
    pose proof (formatMessage_effect m w) as H.
    destruct (dateStr (ts m)) as [d|].
    + destruct H as (r & E & _). rewrite E.
      match goal with |- context [format_all _ _ _ _ _ ?w1] => set (w1' := w1) end.
      assert (Hg : grows w w1').
      { unfold w1'. destruct (sender m);
          [apply after_lookup_grows|apply grows_unwritten_refl]. }
      specialize (IH (content ++ r) w1').
      destruct (format_all _ _ _ _ _ _); try exact IH;
        eapply grows_unwritten_trans; eassumption.
    + rewrite H. apply grows_unwritten_refl.
Qed.

Lemma history_loop_grows fuel : forall ch c acc w,
  match history_loop conversations_history fuel ch c acc w with
  | Ret _ w' => grows w w'
  | Exn w' => grows w w'
  | Timeout => True
  end.
Proof.
  induction fuel as [|fuel IH]; intros ch c acc w; [exact I|].
  rewrite history_loop_step.
  destruct (conversations_history ch c) as [[items next]|].
  - cbv zeta. destruct (more next).
    + specialize (IH ch next (acc ++ items)
                     (logged w [Fetch "conversations.history" ch c 200; Delay 1000])).
      destruct (history_loop _ _ _ _ _ _); try exact I;
        (eapply grows_unwritten_trans; [|exact IH]);
        apply grows_unwritten_logged; reflexivity.
    + apply grows_unwritten_logged. reflexivity.
  - apply grows_unwritten_logged. reflexivity.
Qed.

Lemma conversations_loop_grows fuel : forall c acc w,
  match conversations_loop conversations_list fuel c acc w with
  | Ret _ w' => grows w w'
  | Exn w' => grows w w'
  | Timeout => True
  end.
Proof.
  induction fuel as [|fuel IH]; intros c acc w; [exact I|].
  rewrite conversations_loop_step.
  destruct (conversations_list c) as [[items next]|].
  - cbv zeta. destruct (more next).
    + specialize (IH next (acc ++ items)
                     (logged w [Fetch "conversations.list" [] c 200])).
      destruct (conversations_loop _ _ _ _ _); try exact I;
        (eapply grows_unwritten_trans; [|exact IH]);
        apply grows_unwritten_logged; reflexivity.
    + apply grows_unwritten_logged. reflexivity.
  - apply grows_unwritten_logged. reflexivity.
Qed.

Lemma getConversationHistory_outcome fuel ch w :
  match getConversationHistory conversations_history parseFloat fuel ch w with
  | Ret _ w' => grows w w'
  | Exn _ => False
  | Timeout => True
  end.
Proof.
  unfold getConversationHistory, try_catch, mbind, run_bind, bind.
  pose proof (history_loop_grows fuel ch None [] w) as H.
  destruct (history_loop _ _ _ _ _ _); exact H.
Qed.

Lemma getConversations_outcome fuel w :
  match getConversations conversations_list fuel w with
  | Ret _ w' => grows w w'
  | Exn _ => False
  | Timeout => True
  end.
Proof.
  unfold getConversations, try_catch.
  pose proof (conversations_loop_grows fuel None [] w) as H.
  destruct (conversations_loop _ _ _ _ _); exact H.
Qed.

Lemma saveConversation_outcome c msgs w :
  match saveConversation users_info dateStr inexact_text now disk_ok c msgs w with
  | Ret _ w' => exists w1 content, grows w w1 /\ w' = logged w1 [Write (file_of c) content]
  | Exn w' => grows w w'
  | Timeout => False
  end.
Proof.
  unfold saveConversation, mbind, run_bind, bind.
  pose proof (format_all_grows msgs (file_header now c (length msgs)) w) as H.
  destruct (format_all _ _ _ _ _ _) as [r w1|w1|]; [|exact H|exact H].
  fold (file_of c). destruct (disk_ok (file_of c)).
  - exists w1, r. split; [exact H|reflexivity].
  - exact H.
Qed.

Lemma archive_loop_step fuel c rest s e w :
  archive_loop conversations_history users_info parseFloat dateStr inexact_text now
    disk_ok
    fuel (c :: rest) s e w
  = let continue := archive_loop conversations_history users_info parseFloat
                      dateStr inexact_text now disk_ok fuel rest in
    match getConversationHistory conversations_history parseFloat fuel (conv_id c) w with
    | Ret [] w1 => continue s e w1
    | Ret (m :: ms) w1 =>
        match saveConversation users_info dateStr inexact_text now disk_ok c (m :: ms)
                w1 with
        | Ret _ w2 => continue (S s) e w2
        | Exn w2 => continue s (S e) w2
        | Timeout => Timeout
        end
    | Exn w1 => continue s (S e) w1
    | Timeout => Timeout
    end.
Proof.
  simpl. unfold mbind, run_bind, bind, try_catch.
  destruct (getConversationHistory _ _ _ _ _) as [[|m ms] w1|w1|]; try reflexivity.
  destruct (saveConversation _ _ _ _ _ _ _ _) as [[] w2|w2|]; reflexivity.
Qed.

(** What a stretch of the run does: the successes are the files written. *)
Lemma archive_loop_run fuel convs : forall s e w,
  match archive_loop conversations_history users_info parseFloat dateStr
          inexact_text now disk_ok fuel convs s e w with
  | Ret (s', e') w' =>
      userCache w ⊆ userCache w'
      /\ (sound users_info w -> sound users_info w')
      /\ (exists new, events w' = events w ++ new /\ s' = s + count is_write new)
      /\ e <= e' /\ s' + e' <= s + e + length convs
  | Exn _ => False
  | Timeout => True
  end.
Proof.
  induction convs as [|c rest IH]; intros s e w.
  - simpl. split; [reflexivity|]. split; [intros H; exact H|].
    split; [exists []; rewrite app_nil_r; split; [reflexivity|unfold count; simpl; clear; lia]|].
    clear; lia.
  - rewrite archive_loop_step. cbv zeta.
    pose proof (getConversationHistory_outcome fuel (conv_id c) w) as Hh.
    destruct (getConversationHistory _ _ _ _ _) as [[|m ms] w1|w1|];
      [| |destruct Hh|exact I].
    + (* no message, or no access *)
      specialize (IH s e w1).
      destruct (archive_loop _ _ _ _ _ _ _ _ _ _ _ _) as [[s' e'] w'| |]; try exact IH.
      destruct Hh as (Hc & Hs & n1 & E1 & C1).
      destruct IH as (Hc' & Hs' & (n2 & E2 & C2) & He & Hn).
      split; [etransitivity; eassumption|]. split; [intros H; apply Hs', Hs, H|].
      split.
      * exists (n1 ++ n2). rewrite E2, E1, <- app_assoc. split; [reflexivity|].
        unfold count in *. rewrite List.filter_app, length_app, C1. exact C2.
      * clear - He Hn. simpl. lia.
    + pose proof (saveConversation_outcome c (m :: ms) w1) as Hv.
      destruct (saveConversation _ _ _ _ _ _ _ _) as [[] w2|w2|]; [| |destruct Hv].
      * (* written *)
        specialize (IH (S s) e w2).
        destruct (archive_loop _ _ _ _ _ _ _ _ _ _ _ _) as [[s' e'] w'| |]; try exact IH.
        destruct Hh as (Hc & Hs & n1 & E1 & C1).
        destruct Hv as (w1' & content & (Hc1 & Hs1 & n1' & E1' & C1') & ->).
        destruct IH as (Hc' & Hs' & (n2 & E2 & C2) & He & Hn).
        split; [etransitivity; [exact Hc|etransitivity; [exact Hc1|exact Hc']]|].
        split; [intros H; apply Hs', sound_logged, Hs1, Hs, H|].
        split.
        -- exists (n1 ++ n1' ++ [Write (file_of c) content] ++ n2).
           rewrite E2. simpl. rewrite E1', E1, <- !app_assoc. split; [reflexivity|].
           rewrite C2. unfold count in *.
           rewrite !List.filter_app, !length_app, C1, C1'. simpl. clear. lia.
        -- clear - He Hn. simpl. lia.
      * (* the file could not be written *)
        specialize (IH s (S e) w2).
        destruct (archive_loop _ _ _ _ _ _ _ _ _ _ _ _) as [[s' e'] w'| |]; try exact IH.
        destruct Hh as (Hc & Hs & n1 & E1 & C1).
        destruct Hv as (Hc1 & Hs1 & n1' & E1' & C1').
        destruct IH as (Hc' & Hs' & (n2 & E2 & C2) & He & Hn).
        split; [etransitivity; [exact Hc|etransitivity; [exact Hc1|exact Hc']]|].
        split; [intros H; apply Hs', Hs1, Hs, H|].
        split.
        -- exists (n1 ++ n1' ++ n2).
           rewrite E2, E1', E1, <- !app_assoc. split; [reflexivity|].
           rewrite C2. unfold count in *.
           rewrite !List.filter_app, !length_app, C1, C1'. reflexivity.
        -- clear - He Hn. simpl. lia.
Qed.


(** X4: [archive] catches every failure: whatever the Slack API and the disk
    do, the run does not end in an exception.  When it ends, every
    conversation listed was counted at most once, as a success or as an
    error, and the successes are exactly the files written. *)
Theorem archive_catches_every_failure fuel w :
  match archive conversations_list conversations_history users_info parseFloat
          dateStr inexact_text now disk_ok fuel w with
  | Exn _ => False
  | Timeout => True
  | Ret (successCount, errorCount) w' =>
      exists conversations w0 new,
        getConversations conversations_list fuel w = Ret conversations w0
        /\ successCount + errorCount <= length conversations
        /\ events w' = events w ++ new
        /\ count is_write new = successCount
  end.
Proof.
  unfold archive, mbind, run_bind, bind.
  pose proof (getConversations_outcome fuel w) as Hg.
  destruct (getConversations conversations_list fuel w) as [convs w0|w0|] eqn:E;
    [|destruct Hg|exact I].
  destruct Hg as (_ & _ & n0 & E0 & C0).
  destruct convs as [|c rest].
  - exists [], w0, n0. split; [reflexivity|]. split; [reflexivity|].
    split; [exact E0|exact C0].
  - pose proof (archive_loop_run fuel (c :: rest) 0 0 w0) as Hl.
    destruct (archive_loop _ _ _ _ _ _ _ _ _ _ _ _) as [[s' e'] w'|w'|]; try exact Hl.
    destruct Hl as (_ & _ & (n1 & E1 & C1) & _ & Hn).
    exists (c :: rest), w0, (n0 ++ n1). split; [reflexivity|].
    split; [exact Hn|]. split.
    + rewrite E1, E0, <- app_assoc. reflexivity.
    + unfold count in *. rewrite List.filter_app, length_app, C0. simpl. exact (eq_sym C1).
Qed.

(** X5: The cache is written once per key: over a whole run no entry is changed
    or removed, and a run that starts with an empty cache only ever caches
    answers of the identity service. *)
Theorem cache_entries_are_never_changed fuel w :
  match archive conversations_list conversations_history users_info parseFloat
          dateStr inexact_text now disk_ok fuel w with
  | Ret _ w' => userCache w ⊆ userCache w'
  | _ => True
  end
  /\ match archive conversations_list conversations_history users_info parseFloat
             dateStr inexact_text now disk_ok fuel fresh with
     | Ret _ w' => sound users_info w'
     | _ => True
     end.
Proof.
  assert (H : forall w0,
             match archive conversations_list conversations_history users_info
                     parseFloat dateStr inexact_text now disk_ok fuel w0 with
             | Ret _ w' => userCache w0 ⊆ userCache w'
                           /\ (sound users_info w0 -> sound users_info w')
             | _ => True
             end).
  { intros w0. unfold archive, mbind, run_bind, bind.
    pose proof (getConversations_outcome fuel w0) as Hg.
    destruct (getConversations conversations_list fuel w0) as [convs w1|w1|];
      [|exact I|exact I].
    destruct Hg as (Hc & Hs & _).
    destruct convs as [|c rest]; [split; assumption|].
    pose proof (archive_loop_run fuel (c :: rest) 0 0 w1) as Hl.
    destruct (archive_loop _ _ _ _ _ _ _ _ _ _ _ _) as [[s' e'] w'|w'|]; try exact I.
    destruct Hl as (Hc' & Hs' & _).
    split; [etransitivity; eassumption|intros Hw; apply Hs', Hs, Hw]. }
  split.
  - specialize (H w). destruct (archive _ _ _ _ _ _ _ _ _ _); try exact I. apply H.
  - specialize (H fresh). destruct (archive _ _ _ _ _ _ _ _ _ _); try exact I.
    apply H. intros id u Hl. unfold fresh in Hl. simpl in Hl.
    rewrite lookup_empty in Hl. discriminate.
Qed.


(** *** Ties *)

Lemma sort_insert_ties v x l :
  List.filter (stamped_at parseFloat v) (sort_insert (by_ts parseFloat) x l)
  = List.filter (stamped_at parseFloat v) (x :: l).
Proof.
  induction l as [|y l IH]; [reflexivity|].
  cbn [sort_insert]. destruct (by_ts parseFloat x y <=? 0)%Z eqn:E; [reflexivity|].
  apply Z.leb_gt in E. unfold by_ts in E.
  cbn [List.filter] in *. rewrite IH.
  unfold stamped_at.
  destruct (parseFloat (ts x) =? v)%Z eqn:Ex; [|reflexivity].
  destruct (parseFloat (ts y) =? v)%Z eqn:Ey; [|reflexivity].
  apply Z.eqb_eq in Ex, Ey. clear - E Ex Ey. lia.
Qed.

Lemma js_sort_ties v l :
  List.filter (stamped_at parseFloat v) (js_sort (by_ts parseFloat) l)
  = List.filter (stamped_at parseFloat v) l.
Proof.
  induction l as [|x l IH]; [reflexivity|].
  cbn [js_sort fold_right]. fold (js_sort (by_ts parseFloat) l).
  rewrite sort_insert_ties. cbn [List.filter]. rewrite IH. reflexivity.
Qed.

(** X6: The sort of [getConversationHistory] is stable: the messages that bear
    one and the same time stamp are returned in the order in which the
    pages listed them. *)
Theorem history_keeps_ties_in_listed_order ch pages fuel w v :
  serves (conversations_history ch) None pages ->
  length pages <= fuel ->
  exists msgs w',
    getConversationHistory conversations_history parseFloat fuel ch w = Ret msgs w'
    /\ List.filter (stamped_at parseFloat v) msgs
       = List.filter (stamped_at parseFloat v) (items_of pages).
Proof.
  intros Hs Hf. eexists _, _. split.
  - apply getConversationHistory_serves; eassumption.
  - apply js_sort_ties.
Qed.

End SlackRun.


Section SlackRunSamples.
Import SlackArchiver Sample RunSample.

Lemma getConversations_lists_every_page_witness :
  serves two_listings None [([general], Some (str "c2")); ([random], None)]
  /\ 2 <= 2
  /\ getConversations two_listings 2 fresh
     = Ret [general; random]
           (logged fresh [Fetch "conversations.list" [] None 200;
                          Fetch "conversations.list" [] (Some (str "c2")) 200]).
Proof.
  assert (H : serves two_listings None [([general], Some (str "c2")); ([random], None)]).
  { apply serves_more; [reflexivity|reflexivity|]. apply serves_last; reflexivity. }
  split; [exact H|]. split; [lia|].
  exact (getConversations_lists_every_page two_listings _ 2 fresh H (le_n 2)).
Defined.

Lemma archive_ends_when_listing_fails_witness :
  breaks listing_fails None [([general], Some (str "c2"))]
  /\ 1 < 2
  /\ archive listing_fails two_pages knows_ann whole_seconds iso no_inexact
       (str "now") (fun _ => true) 2 fresh
     = Ret (0, 0)
           (logged fresh [Fetch "conversations.list" [] None 200;
                          Fetch "conversations.list" [] (Some (str "c2")) 200]).
Proof.
  assert (H : breaks listing_fails None [([general], Some (str "c2"))]).
  { apply breaks_later; [reflexivity|reflexivity|]. apply breaks_now. reflexivity. }
  split; [exact H|]. split; [lia|].
  exact (proj2 (archive_ends_when_listing_fails listing_fails two_pages knows_ann
                  whole_seconds iso no_inexact (str "now") (fun _ => true)
                  _ 2 fresh H (le_n 2))).
Defined.

Lemma history_keeps_ties_in_listed_order_witness :
  serves (tied_pages (str "C1")) None
    [([msg "2" "U1"; msg "1" "U2"], Some (str "c2")); ([msg "1" "U1"], None)]
  /\ 2 <= 2
  /\ exists msgs w',
       getConversationHistory tied_pages whole_seconds 2 (str "C1") fresh = Ret msgs w'
       /\ List.filter (stamped_at whole_seconds 1000000) msgs
          = [msg "1" "U2"; msg "1" "U1"].
Proof.
  assert (H : serves (tied_pages (str "C1")) None
                [([msg "2" "U1"; msg "1" "U2"], Some (str "c2")); ([msg "1" "U1"], None)]).
  { apply serves_more; [reflexivity|reflexivity|]. apply serves_last; reflexivity. }
  split; [exact H|]. split; [lia|].
  exact (history_keeps_ties_in_listed_order tied_pages whole_seconds (str "C1") _ 2
           fresh 1000000 H (le_n 2)).
Defined.

(** A run in which the disk refuses the file: the conversation is counted
    as an error, and nothing is written. *)
Example unwritable_file_is_counted :
  let run := archive one_listing two_pages knows_ann whole_seconds iso no_inexact
               (str "now") (fun _ => false) 2 fresh in
  value_of (0, 0) run = (0, 1) /\ count is_write (log_of run) = 0.
Proof. vm_compute. split; reflexivity. Qed.

(** A run in which a time stamp gives no valid date: the message before it
    is formatted, its sender looked up, then [toISOString] throws; the
    conversation is counted as an error and nothing is written. *)
Example undated_message_fails_the_conversation :
  let run := archive one_listing undated_page knows_ann whole_seconds iso no_inexact
               (str "now") (fun _ => true) 1 fresh in
  value_of (0, 0) run = (0, 1)
  /\ log_of run
     = [Fetch "conversations.list" [] None 200;
        Fetch "conversations.history" (str "C1") None 200; Delay 1000;
        Lookup (str "U1")].
Proof. vm_compute. split; reflexivity. Qed.

End SlackRunSamples.

(** ** File names *)

Lemma match_here_chr cs prev c s :
  match_here (Chr cs) prev (c :: s) = if cset_mem cs c then Some 1 else None.
Proof.
  unfold match_here. simpl. destruct (cset_mem cs c); [|reflexivity].
  f_equal. lia.
Qed.

Lemma replace_unsafe_from s : forall prev,
  replace_from re_unsafe (str "_") 0 prev s = List.map sanitised s.
Proof.
  induction s as [|c s IH]; intros prev; [reflexivity|].
  cbn [replace_from]. unfold re_unsafe at 1. rewrite match_here_chr.
  unfold sanitised at 1. cbn [List.map cset_mem].
  destruct (is_alpha c || is_digit c); cbn [negb]; rewrite IH; reflexivity.
Qed.

(** X7: The names of the files ([saveConversation], [saveCalendarEvents]) and of
    the label of a batch ([archiveByLabels]) are sanitised one code unit at a
    time: ASCII letters and digits are kept and every other code unit becomes
    an underscore.  The result has the length of the name, holds nothing but
    letters, digits and underscores, and is left as it is by sanitising it
    again. *)
Theorem unsafe_code_units_become_underscores s :
  let t := replace_all re_unsafe (str "_") s in
  t = List.map sanitised s
  /\ length t = length s
  /\ forallb is_word t = true
  /\ replace_all re_unsafe (str "_") t = t.
Proof.
  cbv zeta. unfold replace_all. rewrite !replace_unsafe_from.
  split; [reflexivity|]. split; [apply length_map|]. split.
  - apply forallb_forall. intros c Hc. apply List.in_map_iff in Hc as (d & <- & _).
    unfold sanitised, is_word. destruct (is_alpha d || is_digit d) eqn:E.
    + rewrite E. reflexivity.
    + reflexivity.
  - rewrite List.map_map. apply List.map_ext. intros c.
    unfold sanitised. destruct (is_alpha c || is_digit c) eqn:E.
    + rewrite E. reflexivity.
    + reflexivity.
Qed.


(** ** Message parts, further *)

Lemma replace_chr_from cs b s : forall prev,
  replace_from (Chr cs) [b] 0 prev s
  = List.map (fun c => if cset_mem cs c then b else c) s.
Proof.
  induction s as [|c s IH]; intros prev; [reflexivity|].
  cbn [replace_from]. rewrite match_here_chr. cbn [List.map].
  destruct (cset_mem cs c); rewrite IH; reflexivity.
Qed.

Section PartMore.
Import GmailArchiver.

Variable buffer_base64_utf8 : jsstring -> jsstring.

Local Abbreviation decode := (decodeBase64 buffer_base64_utf8).

(** X8: [decodeBase64] returns the empty string for missing or empty data.
    Other data reach the decoder in the standard alphabet: every [-] has
    become [+] and every [_] has become [/], nothing else is changed and
    the length is the same. *)
Theorem decodeBase64_reads_the_url_safe_alphabet :
  decode None = [] /\ decode (Some []) = []
  /\ forall c s,
       decode (Some (c :: s))
       = buffer_base64_utf8 (List.map standard_alphabet (c :: s))
       /\ length (List.map standard_alphabet (c :: s)) = length (c :: s)
       /\ Forall (fun a => a <> 45%N /\ a <> 95%N)
            (List.map standard_alphabet (c :: s)).
Proof.
  split; [reflexivity|]. split; [reflexivity|]. intros c s.
  split; [|split; [apply length_map|]].
  - unfold decodeBase64, replace_all.
    change (str "/") with [47%N]. change (str "+") with [43%N].
    rewrite !replace_chr_from, List.map_map.
    f_equal. apply List.map_ext. intros a. unfold standard_alphabet.
    change (cset_mem (One (code "-")) a) with (a =? 45)%N.
    destruct (a =? 45)%N eqn:E1; [reflexivity|].
    change (cset_mem (One (code "_")) a) with (a =? 95)%N.
    destruct (a =? 95)%N; reflexivity.
  - apply List.Forall_forall. intros x Hx.
    apply List.in_map_iff in Hx as (a & <- & _). unfold standard_alphabet.
    destruct (a =? 45)%N eqn:E1; [split; discriminate|].
    destruct (a =? 95)%N eqn:E2; [split; discriminate|].
    apply N.eqb_neq in E1, E2. split; assumption.
Qed.

Lemma fold_attachments_none l :
  fold_left
    (fun acc p =>
       attachments ← acc;
       own ← own_attachment p;
       nested ← match parts_of p with
                | Some _ => extractAttachments p
                | None => Some []
                end;
       Some (attachments ++ own ++ nested))
    l None
  = None.
Proof. induction l as [|p l IH]; [reflexivity|exact IH]. Qed.

Lemma fold_attachments_exact l : forall acc,
  Forall (fun c => extractAttachments c
                   = if named_parts_have_bodies c then Some (attachments_below c)
                     else None) l ->
  fold_left
    (fun acc p =>
       attachments ← acc;
       own ← own_attachment p;
       nested ← match parts_of p with
                | Some _ => extractAttachments p
                | None => Some []
                end;
       Some (attachments ++ own ++ nested))
    l (Some acc)
  = if forallb (fun c => named_with_body c && named_parts_have_bodies c) l
    then Some (acc ++ flat_map
                        (fun c => default [] (own_attachment c)
                                  ++ match parts_of c with
                                     | Some _ => attachments_below c
                                     | None => []
                                     end) l)
    else None.
Proof.
  induction l as [|p l IH]; intros acc H.
  - simpl. rewrite app_nil_r. reflexivity.
  - inversion H as [|? ? Hp Hl]; subst. cbn [fold_left forallb flat_map].
    destruct p as [m f b ps].
    destruct (named_with_body (Part m f b ps)) eqn:En.
    + assert (Ho : exists own, own_attachment (Part m f b ps) = Some own).
      { simpl in *. destruct f as [[|x fname]|], b; try discriminate; eauto. }
      destruct Ho as [own Ho]. rewrite Ho. cbn [mbind option_bind default andb].
      destruct ps as [cl|].
      * cbn [parts_of]. rewrite Hp.
        destruct (named_parts_have_bodies (Part m f b (Some cl))).
        -- cbn [mbind option_bind]. rewrite IH by exact Hl.
           destruct (forallb _ l); [|reflexivity].
           rewrite <- !app_assoc. reflexivity.
        -- cbn [mbind option_bind]. apply fold_attachments_none.
      * cbn [parts_of mbind option_bind named_parts_have_bodies].
        rewrite IH by exact Hl.
        destruct (forallb _ l); [|reflexivity].
        rewrite <- !app_assoc. reflexivity.
    + assert (Ho : own_attachment (Part m f b ps) = None).
      { simpl in *. destruct f as [[|x fname]|], b; try discriminate; reflexivity. }
      rewrite Ho. cbn [mbind option_bind andb]. apply fold_attachments_none.
Qed.

Lemma extractAttachments_exact p :
  extractAttachments p
  = if named_parts_have_bodies p then Some (attachments_below p) else None.
Proof.
  induction p as [m f b|m f b l IH] using part_nested_ind; [reflexivity|].
  change (extractAttachments (Part m f b (Some l)))
    with (fold_left
            (fun acc p =>
               attachments ← acc;
               own ← own_attachment p;
               nested ← match parts_of p with
                        | Some _ => extractAttachments p
                        | None => Some []
                        end;
               Some (attachments ++ own ++ nested))
            l (Some [])).
  rewrite (fold_attachments_exact l [] IH). reflexivity.
Qed.

(** X9: [extractAttachments] lists the parts below the payload that carry a
    file name, in the order of the traversal, a part before the parts it
    holds.  It fails (the TypeError of [part.body.size]) exactly when one of
    them has no body.  The payload itself is not looked at: a message that
    is one single part reports no attachment. *)
Theorem extractAttachments_lists_named_parts_below p :
  extractAttachments p
  = (if named_parts_have_bodies p then Some (attachments_below p) else None)
  /\ (forall m f b, extractAttachments (Part m f b None) = Some []).
Proof. split; [apply extractAttachments_exact|reflexivity]. Qed.

Lemma other_leaf_chunk p :
  other_leaf p = true ->
  part_chunk buffer_base64_utf8 false (extractBody buffer_base64_utf8 false) p = [].
Proof.
  destruct p as [m f b [l|]]; unfold other_leaf; simpl; [discriminate|].
  destruct (body_data b); [|reflexivity].
  destruct (mime_is m "text/plain"); [discriminate|reflexivity].
Qed.

(** X10: Without [includeMarkup], a part that holds no parts adds to the body
    only if it is plain text with data: of a payload whose parts are all
    other leaves (an HTML-only message, say) the body is the normalised text
    of the payload's own data, and the empty string if it has none. *)
Theorem extractBody_skips_parts_that_are_not_plain_text m f b l :
  forallb other_leaf l = true ->
  extractBody buffer_base64_utf8 false (Part m f b (Some l))
  = cleanText (Text (match body_data b with
                     | Some d => decode (Some d)
                     | None => []
                     end))
  /\ (body_data b = None ->
      extractBody buffer_base64_utf8 false (Part m f b (Some l)) = []).
Proof.
  intros Hl.
  assert (E : extractBody buffer_base64_utf8 false (Part m f b (Some l))
              = cleanText (Text (match body_data b with
                                 | Some d => decode (Some d)
                                 | None => []
                                 end))).
  { rewrite extractBody_unfold. cbv zeta.
    assert (Hc : concat (List.map (part_chunk buffer_base64_utf8 false
                                     (extractBody buffer_base64_utf8 false)) l) = []).
    { induction l as [|p l IH]; [reflexivity|]. simpl in Hl.
      apply andb_true_iff in Hl as [Hp Hl]. simpl.
      rewrite (other_leaf_chunk p Hp), (IH Hl). reflexivity. }
    rewrite Hc, app_nil_r. reflexivity. }
  split; [exact E|]. intros Hb. rewrite E, Hb. reflexivity.
Qed.

End PartMore.


Section PartMoreSamples.
Import GmailArchiver PartSample ArchiveSample.

Lemma extractBody_skips_parts_that_are_not_plain_text_witness :
  forallb other_leaf [html_part] = true
  /\ extractBody ascii_base64 false html_only = []
  /\ extractBody ascii_base64 true html_only
     = [NL] ++ str "--- HTML Content ---" ++ [NL] ++ str "<b>hi</b>"
       ++ [NL] ++ str "--- End HTML ---" ++ [NL].
Proof.
  split; [reflexivity|]. split.
  - apply (extractBody_skips_parts_that_are_not_plain_text ascii_base64
             (Some (str "multipart/alternative")) None
             (Some {| data := None; size := Some 0%N |}) [html_part]);
      reflexivity.
  - vm_compute. reflexivity.
Defined.

End PartMoreSamples.


(** ** Listing mail, further *)

Section MailMore.
Import GmailArchiver.

Variable messages_list : jsstring -> option jsstring -> N -> option list_page.

(** X11: Below the maximum, or without one, [getMessages] follows the page
    tokens to the last page: it returns the messages of all pages in the
    order of the pages (a page without messages adds none), after one
    request and one pause of 100 ms per page.  A maximum of [0] counts as
    no maximum: every request then asks for 500 messages and the listing
    never stops early. *)
Theorem getMessages_lists_every_page_below_the_maximum
  q k pages pg token total fuel t :
  goes_on (messages_list q) k None 0 pages token total ->
  messages_list q token (page_limit k total) = Some pg ->
  reached k (total + page_size pg) = false ->
  more (snd pg) = false ->
  length pages < fuel ->
  getMessages messages_list fuel q k t
  = Ret (mail_items (pages ++ [pg])) (t ++ mail_paced q k None 0 (pages ++ [pg]))
  /\ count is_fetch (mail_paced q k None 0 (pages ++ [pg])) = S (length pages)
  /\ count is_delay (mail_paced q k None 0 (pages ++ [pg])) = S (length pages)
  /\ (k = None \/ k = Some 0%N ->
      forall n, page_limit k n = 500%N /\ reached k n = false).
Proof.
  intros Hg Hapi Hr Hm Hf.
  assert (Hp : forall pages0 token0 total0 token1 total1,
             goes_on (messages_list q) k token0 total0 pages0 token1 total1 ->
             mail_paced q k token0 total0 (pages0 ++ [pg])
             = mail_paced q k token0 total0 pages0
               ++ [Fetch "users.messages.list" q token1 (page_limit k total1);
                   Delay 100]).
  { induction 1 as [|? ? ? ? ? ? _ _ _ _ IH]; [reflexivity|].
    simpl. rewrite IH. reflexivity. }
  split; [|split; [|split]].
  - unfold getMessages, try_catch.
    replace fuel with (length pages + S (fuel - S (length pages))) by lia.
    rewrite (messages_loop_goes_on _ _ _ _ _ _ _ _ Hg).
    rewrite messages_loop_step. cbv zeta. rewrite Hapi, Hr, Hm.
    rewrite (Hp _ _ _ _ _ Hg). unfold mail_items.
    rewrite map_app, concat_app. simpl. rewrite app_nil_r, <- app_assoc.
    reflexivity.
  - rewrite mail_paced_fetches, length_app. simpl. lia.
  - rewrite mail_paced_delays, length_app. simpl. lia.
  - intros [-> | ->] n; split; reflexivity.
Qed.

End MailMore.

Section MailMoreSamples.
Import GmailArchiver ArchiveSample.

Lemma getMessages_lists_every_page_below_the_maximum_witness :
  goes_on (short_listing (str "in:inbox")) (Some 5%N) None 0
    [(Some [first_mail; second_mail], Some (str "p2"))] (Some (str "p2")) 2
  /\ getMessages short_listing 2 (str "in:inbox") (Some 5%N) []
     = Ret [first_mail; second_mail]
           [Fetch "users.messages.list" (str "in:inbox") None 5; Delay 100;
            Fetch "users.messages.list" (str "in:inbox") (Some (str "p2")) 500;
            Delay 100].
Proof.
  assert (H : goes_on (short_listing (str "in:inbox")) (Some 5%N) None 0
                [(Some [first_mail; second_mail], Some (str "p2"))]
                (Some (str "p2")) 2).
  { eapply goes_on_cons; [reflexivity|reflexivity|reflexivity|]. apply goes_on_nil. }
  split; [exact H|].
  exact (proj1 (getMessages_lists_every_page_below_the_maximum short_listing
                  (str "in:inbox") (Some 5%N) _ (None, None) _ _ 2 []
                  H eq_refl eq_refl eq_refl (le_n 2))).
Defined.

End MailMoreSamples.


(** ** Batches *)

Lemma ceil_step r : 1 <= r -> S ((r - 100 + 99) / 100) = (r + 99) / 100.
Proof.
  intros H. destruct (le_lt_dec r 100) as [Hr|Hr].
  - replace (r - 100) with 0 by lia. simpl (0 + 99).
    rewrite (Nat.div_small 99 100) by lia.
    apply (Nat.div_unique (r + 99) 100 1 (r - 1)); lia.
  - replace (r + 99) with ((r - 100 + 99) + 1 * 100) by lia.
    rewrite Nat.div_add by lia. lia.
Qed.

Section BatchesFacts.
Import GmailArchiver.
Context {A : Type}.
Implicit Types l : list A.

Lemma batches_from_concat l : forall turns i,
  length l <= i + turns -> concat (batches_from turns i l) = skipn i l.
Proof.
  induction turns as [|turns IH]; intros i H; simpl.
  - rewrite skipn_all2 by lia. reflexivity.
  - destruct (i <? length l)%nat eqn:E.
    + simpl. unfold slice, messagesPerFile. rewrite IH by lia.
      replace (i + 100 - i) with 100 by lia.
      rewrite (Nat.add_comm i 100), <- skipn_skipn. apply firstn_skipn.
    + apply Nat.ltb_ge in E. rewrite skipn_all2 by lia. reflexivity.
Qed.

Lemma batches_from_length l : forall turns i,
  length l <= i + turns ->
  length (batches_from turns i l) = (length l - i + 99) / 100.
Proof.
  induction turns as [|turns IH]; intros i H; simpl.
  - replace (length l - i) with 0 by lia. reflexivity.
  - destruct (i <? length l)%nat eqn:E.
    + apply Nat.ltb_lt in E. simpl. unfold messagesPerFile. rewrite IH by lia.
      replace (length l - (i + 100)) with (length l - i - 100) by lia.
      apply ceil_step. lia.
    + apply Nat.ltb_ge in E. replace (length l - i) with 0 by lia. reflexivity.
Qed.

Lemma batches_from_shape l : forall turns i,
  length l <= i + turns -> full_but_last 100 (batches_from turns i l).
Proof.
  induction turns as [|turns IH]; intros i H; simpl; [exact I|].
  destruct (i <? length l)%nat eqn:E; [|exact I].
  apply Nat.ltb_lt in E. split; [|apply IH; unfold messagesPerFile; lia].
  assert (Hlen : length (slice i (i + messagesPerFile) l) = Nat.min 100 (length l - i)).
  { unfold slice, messagesPerFile. replace (i + 100 - i) with 100 by lia.
    rewrite length_firstn, length_skipn. reflexivity. }
  destruct (batches_from turns (i + messagesPerFile) l) as [|b rest] eqn:Er.
  - rewrite Hlen. lia.
  - rewrite Hlen. destruct turns as [|turns']; [discriminate Er|].
    simpl in Er. unfold messagesPerFile in Er.
    destruct (i + 100 <? length l)%nat eqn:E2; [|discriminate Er].
    apply Nat.ltb_lt in E2. lia.
Qed.

(** X15: [archiveByQuery] cuts the messages into batches of 100
    ([messagesPerFile]): put end to end the batches are the messages, in
    order and without loss; every batch but the last holds 100 messages and
    the last one between 1 and 100; there are as many batches as the number
    of messages divided by 100, rounded up, and none for no message. *)
Theorem batches_cut_the_messages_in_hundreds l :
  concat (batches l) = l
  /\ full_but_last 100 (batches l)
  /\ length (batches l) = (length l + 99) / 100
  /\ Forall (fun b => 1 <= length b <= 100) (batches l).
Proof.
  assert (Hs : full_but_last 100 (batches l)) by (apply batches_from_shape; lia).
  split; [|split; [exact Hs|split]].
  - unfold batches. rewrite batches_from_concat by lia. reflexivity.
  - unfold batches. rewrite batches_from_length by lia.
    rewrite Nat.sub_0_r. reflexivity.
  - induction (batches l) as [|b rest IH]; constructor.
    + destruct Hs as [Hb _]. destruct rest; lia.
    + apply IH. apply Hs.
Qed.

End BatchesFacts.

(** 250 messages make three batches, of 100, 100 and 50 messages. *)
Example two_hundred_and_fifty_messages :
  List.map (@length _) (GmailArchiver.batches (repeat ArchiveSample.first_mail 250))
  = [100; 100; 50].
Proof. vm_compute. reflexivity. Qed.


(** ** Saving mail *)

Section ArchiveFacts.
Import GmailArchiver.

Variable buffer_base64_utf8 : jsstring -> jsstring.
Variable includeMarkup : bool.
Variable excludePromotions : bool.
Variable toLowerCase : jsstring -> jsstring.
Variable inexact_text : Z -> jsstring.
Variable messages_list : jsstring -> option jsstring -> N -> option list_page.
Variable messages_get : jsstring -> option (option full_message).
Variable labels_list : option (option (list label)).
Variable now : jsstring.
Variable disk_ok : jsstring -> bool.

Local Abbreviation format :=
  (formatMessage buffer_base64_utf8 includeMarkup toLowerCase inexact_text).
Local Abbreviation save :=
  (saveMessages buffer_base64_utf8 includeMarkup toLowerCase inexact_text messages_get
     now disk_ok).

Lemma parseHeaders_snoc hs h :
  parseHeaders toLowerCase (hs ++ [h])
  = js_set (parseHeaders toLowerCase hs) (toLowerCase (header_name h)) (header_value h).
Proof. unfold parseHeaders. rewrite fold_left_app. reflexivity. Qed.

(** The own properties of [headerMap]. *)
Lemma parseHeaders_own headers key :
  parseHeaders toLowerCase headers !! key
  = if jsstring_eqb key (str "__proto__") then None
    else last (values_named toLowerCase key headers).
Proof.
  induction headers as [|h hs IH] using rev_ind.
  - unfold parseHeaders. simpl. rewrite lookup_empty.
    destruct (jsstring_eqb key (str "__proto__")); reflexivity.
  - rewrite parseHeaders_snoc. unfold values_named.
    rewrite List.filter_app, List.map_app. simpl.
    unfold js_set.
    destruct (jsstring_eqb (toLowerCase (header_name h)) (str "__proto__")) eqn:Ep.
    + apply jsstring_eqb_true in Ep. rewrite IH.
      destruct (jsstring_eqb key (str "__proto__")) eqn:Ek; [reflexivity|].
      rewrite jsstring_eqb_false.
      * simpl. rewrite app_nil_r. reflexivity.
      * rewrite Ep. intros <-. rewrite jsstring_eqb_refl in Ek. discriminate.
    + destruct (decide (toLowerCase (header_name h) = key)) as [<-|Hne].
      * rewrite lookup_insert_eq, Ep, jsstring_eqb_refl. simpl.
        rewrite last_snoc. reflexivity.
      * rewrite lookup_insert_ne by exact Hne. rewrite IH.
        rewrite (jsstring_eqb_false _ _ Hne). simpl. rewrite app_nil_r. reflexivity.
Qed.

(** None of the keys that [formatMessage] reads is inherited. *)
Lemma header_at_own headers k :
  header_at headers k = headers !! str (key_name k).
Proof.
  unfold header_at, js_get.
  destruct (headers !! str (key_name k)); [reflexivity|].
  destruct k; reflexivity.
Qed.

(** X12: [parseHeaders] files the headers as own properties of an object,
    under their names in lower case, a later header replacing an earlier one
    of the same name: what is read under a key is the value of the last
    header so named.  Where there is none, a key that [Object.prototype]
    has reads as the inherited property and any other key as [undefined].
    A header named [__proto__] is not filed: that key always reads as the
    inherited property. *)
Theorem parseHeaders_keeps_the_last_value headers key :
  js_get (parseHeaders toLowerCase headers) key
  = if jsstring_eqb key (str "__proto__") then Proto key
    else match last (values_named toLowerCase key headers) with
         | Some v => Own v
         | None => if inherited key then Proto key else Missing
         end.
Proof.
  unfold js_get. rewrite parseHeaders_own.
  destruct (jsstring_eqb key (str "__proto__")) eqn:E; [|reflexivity].
  apply jsstring_eqb_true in E. subst key. reflexivity.
Qed.

(** X13: [formatMessage] throws exactly when [extractAttachments] does, that is
    when a part with a file name has no body.  Otherwise the record opens
    with a rule of 80 [=] and the identifier, and closes with the body
    between a rule of 80 [-] and a rule of 80 [=]; an empty body is shown
    as [(No text content)]. *)
Theorem formatMessage_frames_the_body m hs p :
  msg_payload m = Some (hs, p) ->
  match format (Some m) with
  | None => named_parts_have_bodies p = false
  | Some r =>
      named_parts_have_bodies p = true
      /\ exists head,
           r = concat (repeat (str "=") 80) ++ [NL]
               ++ str "Message ID: " ++ tpl (msg_id m) ++ [NL]
               ++ head
               ++ [NL] ++ concat (repeat (str "-") 80) ++ [NL; NL]
               ++ or_else (Some (extractBody buffer_base64_utf8 includeMarkup p))
                    (str "(No text content)" ++ [NL])
               ++ [NL] ++ concat (repeat (str "=") 80) ++ [NL; NL]
  end.
Proof.
  intros Hp. destruct m as [id thread labels pl]. simpl in Hp. subst pl.
  unfold formatMessage. rewrite extractAttachments_exact.
  destruct (named_parts_have_bodies p); [|reflexivity].
  cbn [mbind option_bind msg_id]. cbv zeta. split; [reflexivity|].
  set (headers := parseHeaders toLowerCase (default [] hs)).
  generalize (or_else (Some (extractBody buffer_base64_utf8 includeMarkup p))
                (str "(No text content)" ++ [NL])) as body.
  generalize (concat (repeat (str "=") 80)) as rule.
  generalize (concat (repeat (str "-") 80)) as dashes.
  intros dashes rule body.
  exists (str "Thread ID: " ++ tpl thread ++ [NL]
          ++ str "From: " ++ header_or headers K_from "Unknown" ++ [NL]
          ++ str "To: " ++ header_or headers K_to "Unknown" ++ [NL]
          ++ str "Subject: " ++ header_or headers K_subject "(No Subject)" ++ [NL]
          ++ str "Date: " ++ header_or headers K_date "Unknown" ++ [NL]
          ++ match header_at headers K_cc with
             | Some (c :: cc) => str "CC: " ++ (c :: cc) ++ [NL]
             | _ => []
             end
          ++ match labels with
             | Some (l :: ls) => str "Labels: " ++ join (str ", ") (l :: ls) ++ [NL]
             | _ => []
             end
          ++ match attachments_below p with
             | _ :: _ =>
                 [NL] ++ str "Attachments ("
                 ++ decimal (N.of_nat (length (attachments_below p))) ++ str "):" ++ [NL]
                 ++ concat (List.map (attachment_line inexact_text)
                              (attachments_below p))
             | [] => []
             end).
  destruct (header_at headers K_cc) as [[|c cc]|], labels as [[|l ls]|],
    (attachments_below p) as [|a atts];
    repeat rewrite <- app_assoc; reflexivity.
Qed.

Lemma getMessage_run id t :
  getMessage messages_get id t
  = Ret (fetched messages_get id) (t ++ [Fetch "users.messages.get" id None 0]).
Proof.
  unfold getMessage, try_catch, log_call, fetched.
  destruct (messages_get id); reflexivity.
Qed.

Lemma save_loop_run messages : forall content t,
  forallb (formats format messages_get) messages = true ->
  save_loop buffer_base64_utf8 includeMarkup toLowerCase inexact_text messages_get messages content t
  = Ret (content ++ concat (records format messages_get messages)) (t ++ gets messages).
Proof.
  induction messages as [|ref rest IH]; intros content t H.
  - simpl. unfold ret. rewrite !app_nil_r. reflexivity.
  - simpl in H. apply andb_true_iff in H as [Hf Hr].
    cbn [save_loop]. unfold mbind, run_bind, bind at 1. rewrite getMessage_run.
    unfold formats in Hf. unfold records. cbn [flat_map]. fold (records format messages_get rest).
    unfold gets. cbn [flat_map]. fold (gets rest).
    destruct (fetched messages_get (ref_id ref)) as [m|].
    + destruct (format (Some m)) as [r|]; [|discriminate Hf].
      unfold bind, ret, log_emit. rewrite IH by exact Hr.
      rewrite concat_app. simpl. rewrite <- !app_assoc. reflexivity.
    + unfold bind, ret, log_emit. rewrite IH by exact Hr.
      simpl. rewrite <- !app_assoc. reflexivity.
Qed.

Lemma gets_count messages :
  count is_fetch (gets messages) = length messages
  /\ count is_delay (gets messages) = length messages
  /\ count is_write (gets messages) = 0.
Proof.
  unfold count. induction messages as [|ref rest (IH1 & IH2 & IH3)]; simpl; [auto|].
  rewrite IH1, IH2, IH3. auto.
Qed.

Lemma records_length messages :
  length (records format messages_get messages) <= length messages.
Proof.
  unfold records. induction messages as [|ref rest IH]; [constructor|].
  cbn [flat_map]. rewrite length_app. cbn [length].
  destruct (fetched messages_get (ref_id ref)) as [m|];
    [|cbn [length]; clear - IH; lia].
  destruct (format (Some m)); cbn [length]; clear - IH; lia.
Qed.

Lemma saveMessages_run messages label i t :
  forallb (formats format messages_get) messages = true ->
  save messages label i t
  = if disk_ok (batch_file label i)
    then Ret tt (t ++ batch_events format messages_get now label i messages)
    else Exn (t ++ gets messages).
Proof.
  intros H. unfold saveMessages, mbind, run_bind, bind.
  rewrite save_loop_run by exact H.
  destruct (disk_ok (batch_file label i)); [|reflexivity].
  unfold log_emit, batch_events. rewrite <- app_assoc. reflexivity.
Qed.

(** X14: [saveMessages] asks for every message of the batch once, in order, and
    pauses 200 ms after each, whether the message came or not.  The file
    holds the records of the messages that came, in that order; its header
    counts the messages of the batch, also those that did not come.  If the
    disk refuses the file, the call throws after the requests. *)
Theorem saveMessages_writes_what_it_could_fetch messages label i t :
  forallb (formats format messages_get) messages = true ->
  save messages label i t
  = (if disk_ok (batch_file label i)
     then Ret tt (t ++ gets messages
                    ++ [Write (batch_file label i)
                          (batch_header now label i (length messages)
                           ++ concat (records format messages_get messages))])
     else Exn (t ++ gets messages))
  /\ count is_fetch (gets messages) = length messages
  /\ count is_delay (gets messages) = length messages
  /\ length (records format messages_get messages) <= length messages.
Proof.
  intros H. split; [exact (saveMessages_run messages label i t H)|].
  destruct (gets_count messages) as (H1 & H2 & _).
  split; [exact H1|]. split; [exact H2|apply records_length].
Qed.


Lemma forallb_concat {A} (p : A -> bool) (bs : list (list A)) :
  forallb p (concat bs) = true -> Forall (fun b => forallb p b = true) bs.
Proof.
  induction bs as [|b bs IH]; intros H; constructor; simpl in H;
    rewrite forallb_app in H; apply andb_true_iff in H as [H1 H2]; auto.
Qed.

Lemma save_batches_run label bs : forall i t,
  Forall (fun b => forallb (formats format messages_get) b = true) bs ->
  (forall j, disk_ok (batch_file label j) = true) ->
  save_batches buffer_base64_utf8 includeMarkup toLowerCase inexact_text messages_get now disk_ok
    bs label i t
  = Ret tt (t ++ batches_events format messages_get now label i bs).
Proof.
  induction bs as [|b bs IH]; intros i t Hf Hd.
  - simpl. unfold ret. rewrite app_nil_r. reflexivity.
  - inversion Hf as [|? ? Hb Hbs]; subst.
    cbn [save_batches]. unfold mbind, run_bind, bind.
    rewrite saveMessages_run by exact Hb. rewrite Hd.
    rewrite IH by assumption. simpl. rewrite <- app_assoc. reflexivity.
Qed.

Lemma batches_events_writes label bs : forall i,
  count is_write (batches_events format messages_get now label i bs) = length bs.
Proof.
  unfold count. induction bs as [|b bs IH]; intros i; [reflexivity|].
  simpl. unfold batch_events. rewrite !List.filter_app, !length_app.
  destruct (gets_count b) as (_ & _ & Hw). unfold count in Hw.
  rewrite Hw, IH. reflexivity.
Qed.

(** X16: [archiveByQuery] writes the messages that the query lists batch by
    batch: one file per batch of 100, numbered from 1 in the order of the
    listing, each after the requests for its messages; for no message it
    writes nothing.  (Every message that comes can be formatted, and the
    disk takes the files.) *)
Theorem archiveByQuery_writes_one_file_per_batch fuel query label k messages t t1 :
  getMessages messages_list fuel query k t = Ret messages t1 ->
  forallb (formats format messages_get) messages = true ->
  (forall j, disk_ok (batch_file label j) = true) ->
  archiveByQuery buffer_base64_utf8 includeMarkup toLowerCase inexact_text messages_list
    messages_get now disk_ok fuel query label k t
  = Ret tt (t1 ++ batches_events format messages_get now label 0 (batches messages))
  /\ count is_write (batches_events format messages_get now label 0 (batches messages))
     = (length messages + 99) / 100.
Proof.
  intros Hg Hf Hd.
  assert (Hc : concat (batches messages) = messages).
  { unfold batches. rewrite batches_from_concat by (clear; lia). reflexivity. }
  assert (Hn : length (batches messages) = (length messages + 99) / 100).
  { unfold batches. rewrite batches_from_length by (clear; lia).
    rewrite Nat.sub_0_r. reflexivity. }
  split.
  - unfold archiveByQuery, mbind, run_bind, bind. rewrite Hg.
    destruct messages as [|m ms].
    + unfold ret. rewrite app_nil_r. reflexivity.
    + apply save_batches_run; [|exact Hd].
      apply forallb_concat. rewrite Hc. exact Hf.
  - rewrite batches_events_writes. exact Hn.
Qed.

Lemma getLabels_run t :
  getLabels labels_list t
  = Ret (match labels_list with Some (Some labels) => labels | _ => [] end)
        (t ++ [Fetch "users.labels.list" [] None 0]).
Proof.
  unfold getLabels, try_catch, mbind, run_bind, bind, log_call.
  destruct labels_list as [[labels|]|]; reflexivity.
Qed.

(** X17: [archiveByLabels] passes over the system labels SPAM, TRASH and DRAFT:
    they cause no request and no file, and the run goes on with the labels
    that remain.  When the labels cannot be listed, it archives nothing and
    returns all the same. *)
Theorem archiveByLabels_passes_over_system_folders fuel labels t :
  labels_loop buffer_base64_utf8 includeMarkup toLowerCase inexact_text messages_list
    messages_get now disk_ok fuel labels t
  = labels_loop buffer_base64_utf8 includeMarkup toLowerCase inexact_text messages_list
      messages_get now disk_ok fuel
      (List.filter (fun l => negb (skipped l)) labels) t
  /\ (labels_list = None \/ labels_list = Some None
      \/ (exists ls, labels_list = Some (Some ls) /\ forallb skipped ls = true) ->
      archiveByLabels buffer_base64_utf8 includeMarkup toLowerCase inexact_text messages_list
        messages_get labels_list now disk_ok fuel t
      = Ret tt (t ++ [Fetch "users.labels.list" [] None 0])).
Proof.
  assert (Hskip : forall ls t0,
             labels_loop buffer_base64_utf8 includeMarkup toLowerCase inexact_text messages_list
               messages_get now disk_ok fuel ls t0
             = labels_loop buffer_base64_utf8 includeMarkup toLowerCase inexact_text messages_list
                 messages_get now disk_ok fuel
                 (List.filter (fun l => negb (skipped l)) ls) t0).
  { induction ls as [|l ls IH]; intros t0; [reflexivity|].
    cbn [labels_loop List.filter]. destruct (skipped l) eqn:El; cbn [negb].
    - unfold mbind, run_bind, bind, ret. apply IH.
    - cbn [labels_loop]. rewrite El. unfold mbind, run_bind, bind.
      destruct (archiveByQuery _ _ _ _ _ _ _ _ _ _ _ _); try reflexivity. apply IH. }
  split; [apply Hskip|].
  intros H. unfold archiveByLabels, mbind, run_bind, bind. rewrite getLabels_run.
  destruct H as [-> | [-> | (ls & -> & Hs)]]; try reflexivity.
  rewrite Hskip.
  assert (E : List.filter (fun l => negb (skipped l)) ls = []).
  { induction ls as [|l ls IH]; [reflexivity|]. simpl in *.
    apply andb_true_iff in Hs as [H1 H2]. rewrite H1. simpl. apply IH, H2. }
  rewrite E. reflexivity.
Qed.


End ArchiveFacts.


Section ArchiveSamples.
Import GmailArchiver ArchiveSample MailboxSample.

Local Abbreviation format :=
  (formatMessage PartSample.ascii_base64 false lower Sample.no_inexact).

(** The record of a message: the last [From] header is shown, missing
    headers have their placeholders, and the body is the normalised text. *)
Example record_of_a_message :
  format (Some note)
  = Some (concat (repeat (str "=") 80) ++ [NL]
          ++ str "Message ID: m1" ++ [NL]
          ++ str "Thread ID: t1" ++ [NL]
          ++ str "From: bob@example.org" ++ [NL]
          ++ str "To: Unknown" ++ [NL]
          ++ str "Subject: Hello" ++ [NL]
          ++ str "Date: Unknown" ++ [NL]
          ++ str "Labels: INBOX, IMPORTANT" ++ [NL]
          ++ [NL] ++ str "Attachments (1):" ++ [NL]
          ++ str "  - a.pdf (application/pdf, 3 bytes)" ++ [NL]
          ++ [NL] ++ concat (repeat (str "-") 80) ++ [NL; NL]
          ++ str "hi"
          ++ [NL] ++ concat (repeat (str "=") 80) ++ [NL; NL])
  /\ format None = Some (str "Error: Could not parse message" ++ [NL; NL]).
Proof. vm_compute. split; reflexivity. Qed.

(** The header map is an object: a header named [__proto__] is not filed,
    and a key that [Object.prototype] has reads as the inherited property
    when no header bears it. *)
Example keys_of_the_header_map :
  let headers :=
    parseHeaders lower
      [ {| header_name := str "__proto__"; header_value := str "x" |};
        {| header_name := str "Subject"; header_value := str "Hello" |};
        {| header_name := str "valueOf"; header_value := str "1" |} ] in
  js_get headers (str "__proto__") = Proto (str "__proto__")
  /\ js_get headers (str "constructor") = Proto (str "constructor")
  /\ js_get headers (str "valueof") = Own (str "1")
  /\ js_get headers (str "subject") = Own (str "Hello")
  /\ js_get headers (str "to") = Missing.
Proof. vm_compute. repeat split. Qed.

Lemma formatMessage_frames_the_body_witness :
  msg_payload note
  = Some (Some [ {| header_name := str "From"; header_value := str "ann@example.org" |};
                 {| header_name := str "Subject"; header_value := str "Hello" |};
                 {| header_name := str "FROM"; header_value := str "bob@example.org" |} ],
          PartSample.payload)
  /\ match format (Some note) with
     | None => named_parts_have_bodies PartSample.payload = false
     | Some r =>
         named_parts_have_bodies PartSample.payload = true
         /\ exists head,
              r = concat (repeat (str "=") 80) ++ [NL]
                  ++ str "Message ID: " ++ tpl (msg_id note) ++ [NL]
                  ++ head
                  ++ [NL] ++ concat (repeat (str "-") 80) ++ [NL; NL]
                  ++ or_else (Some (extractBody PartSample.ascii_base64 false
                                      PartSample.payload))
                       (str "(No text content)" ++ [NL])
                  ++ [NL] ++ concat (repeat (str "=") 80) ++ [NL; NL]
     end.
Proof.
  split; [reflexivity|].
  exact (formatMessage_frames_the_body PartSample.ascii_base64 false lower
           Sample.no_inexact note _ PartSample.payload eq_refl).
Defined.

(** The query of [archive] with the defaults of the first menu entry, and
    with spam included and promotions kept. *)
Example queries_of_archive :
  fullQuery true {| opt_query := []; opt_maxResults := None;
                    includeSpam := false; includeTrash := false |}
  = str " -in:spam -in:trash -category:promotions -category:social -category:updates"
  /\ trim (fullQuery false {| opt_query := str "from:ann "; opt_maxResults := None;
                              includeSpam := true; includeTrash := false |})
     = str "from:ann  -in:trash".
Proof. vm_compute. split; reflexivity. Qed.

Lemma saveMessages_writes_what_it_could_fetch_witness :
  forallb (formats format inbox) [first_mail; second_mail] = true
  /\ saveMessages PartSample.ascii_base64 false lower Sample.no_inexact inbox (str "now") (fun _ => true)
       [first_mail; second_mail] (str "all") 0 []
     = Ret tt [Fetch "users.messages.get" (str "m1") None 0; Delay 200;
               Fetch "users.messages.get" (str "m2") None 0; Delay 200;
               Write (str "gmail_archive_batch_1.txt")
                 (batch_header (str "now") (str "all") 0 2
                  ++ concat (records format inbox [first_mail; second_mail]))]
  /\ records format inbox [first_mail; second_mail]
     = match format (Some note) with Some r => [r] | None => [] end.
Proof.
  split; [vm_compute; reflexivity|]. split.
  - exact (proj1 (saveMessages_writes_what_it_could_fetch PartSample.ascii_base64
                    false lower Sample.no_inexact inbox (str "now") (fun _ => true)
                    [first_mail; second_mail] (str "all") 0 [] eq_refl)).
  - vm_compute. reflexivity.
Defined.

Lemma archiveByQuery_writes_one_file_per_batch_witness :
  getMessages short_listing 2 (str "in:inbox") None []
  = Ret [first_mail; second_mail] (mail_paced (str "in:inbox") None None 0
                                     [(Some [first_mail; second_mail], Some (str "p2"));
                                      (None, None)])
  /\ forallb (formats format inbox) [first_mail; second_mail] = true
  /\ archiveByQuery PartSample.ascii_base64 false lower Sample.no_inexact short_listing inbox
       (str "now") (fun _ => true) 2 (str "in:inbox") (str "all") None []
     = Ret tt (mail_paced (str "in:inbox") None None 0
                 [(Some [first_mail; second_mail], Some (str "p2")); (None, None)]
               ++ batches_events format inbox (str "now") (str "all") 0
                    [[first_mail; second_mail]]).
Proof.
  assert (H : getMessages short_listing 2 (str "in:inbox") None []
              = Ret [first_mail; second_mail]
                    (mail_paced (str "in:inbox") None None 0
                       [(Some [first_mail; second_mail], Some (str "p2"));
                        (None, None)])) by reflexivity.
  split; [exact H|]. split; [vm_compute; reflexivity|].
  exact (proj1 (archiveByQuery_writes_one_file_per_batch PartSample.ascii_base64
                  false lower Sample.no_inexact short_listing inbox (str "now") (fun _ => true)
                  2 (str "in:inbox") (str "all") None _ [] _ H eq_refl
                  (fun _ => eq_refl))).
Defined.

Lemma archiveByLabels_passes_over_system_folders_witness :
  (exists ls, Some (Some [spam; trash]) = Some (Some ls) /\ forallb skipped ls = true)
  /\ archiveByLabels PartSample.ascii_base64 false lower Sample.no_inexact short_listing inbox
       (Some (Some [spam; trash])) (str "now") (fun _ => true) 2 []
     = Ret tt [Fetch "users.labels.list" [] None 0].
Proof.
  assert (H : exists ls, Some (Some [spam; trash]) = Some (Some ls)
                         /\ forallb skipped ls = true).
  { exists [spam; trash]. split; reflexivity. }
  split; [exact H|].
  exact (proj2 (archiveByLabels_passes_over_system_folders PartSample.ascii_base64
                  false lower Sample.no_inexact short_listing inbox (Some (Some [spam; trash]))
                  (str "now") (fun _ => true) 2 [spam; trash] [])
               (or_intror (or_intror H))).
Defined.

End ArchiveSamples.


(** ** Calendars, further *)

Section CalendarMore.
Import CalendarArchiver.

Variable events_list :
  jsstring -> jsstring -> jsstring -> option jsstring -> option events_page.

(** X22: [getEvents] follows the page tokens from the token it is given: when
    the listing runs to its last page it returns the events of all pages in
    the order of the pages, after one request for 250 events and one pause
    of 100 ms per page; when a request fails it returns no event at all,
    those of the pages before included. *)
Theorem getEvents_lists_every_page_or_nothing cal tmin tmax c pages fuel t :
  (serves (events_api events_list cal tmin tmax) c pages -> length pages <= fuel ->
   getEvents events_list fuel cal tmin tmax c t
   = Ret (items_of pages) (t ++ paced "events.list" cal 250 [Delay 100] c pages)
   /\ count is_fetch (paced "events.list" cal 250 [Delay 100] c pages) = length pages
   /\ count is_delay (paced "events.list" cal 250 [Delay 100] c pages) = length pages)
  /\ (breaks (events_api events_list cal tmin tmax) c pages -> length pages < fuel ->
      getEvents events_list fuel cal tmin tmax c t
      = Ret [] (t ++ paced "events.list" cal 250 [Delay 100] c pages
                  ++ [Fetch "events.list" cal (cursor_after c pages) 250])).
Proof.
  split.
  - intros Hs Hf. split; [apply getEvents_serves; assumption|].
    split; [apply paced_fetches; reflexivity|apply paced_delays].
  - intros Hb Hf. apply getEvents_breaks; assumption.
Qed.


Variable date_parse : option jsstring -> option Z.
Variable getFullYear : Z -> Z.
Variable getMonth : Z -> Z.
Variable formatEvent : cal_event -> jsstring.
Variable monthName : jsstring -> jsstring.
Variable now : jsstring.
Variable disk_ok : jsstring -> bool.
Variable yearStart : Z -> jsstring.
Variable yearEnd : Z -> jsstring.

Local Abbreviation years :=
  (years_loop events_list date_parse getFullYear getMonth formatEvent monthName now
     disk_ok yearStart yearEnd).
Local Abbreviation written :=
  (calendar_written date_parse getFullYear getMonth formatEvent monthName now).

Lemma years_loop_step fuel turns cal name year t :
  years fuel (S turns) cal name year t
  = match getEvents events_list fuel cal (yearStart year) (yearEnd year) None t with
    | Ret [] t1 => years fuel turns cal name (year + 1) t1
    | Ret (e :: es) t1 =>
        if disk_ok (calendar_file name (Some year))
        then years fuel turns cal name (year + 1)
               (t1 ++ [written name (e :: es) (Some year)])
        else Exn t1
    | Exn t1 => Exn t1
    | Timeout => Timeout
    end.
Proof.
  cbn [years_loop]. unfold mbind, run_bind, bind.
  destruct (getEvents _ _ _ _ _ _ _) as [[|e es] t1|t1|]; try reflexivity.
  unfold save_events. destruct (disk_ok _); reflexivity.
Qed.

(** X23: Archiving year by year, [archiveCalendar] passes over a year without
    events and over a year whose listing fails alike: it writes no file for
    the year, drops what was listed of it, and goes on with the next year.
    When the end is before the start it asks for nothing. *)
Theorem archiveCalendar_passes_over_a_year_without_events
  fuel turns cal name year pages t :
  (breaks (events_api events_list cal (yearStart year) (yearEnd year)) None pages ->
   length pages < fuel ->
   years fuel (S turns) cal name year t
   = years fuel turns cal name (year + 1)
       (t ++ paced "events.list" cal 250 [Delay 100] None pages
          ++ [Fetch "events.list" cal (cursor_after None pages) 250]))
  /\ (serves (events_api events_list cal (yearStart year) (yearEnd year)) None pages ->
      length pages <= fuel -> items_of pages = [] ->
      years fuel (S turns) cal name year t
      = years fuel turns cal name (year + 1)
          (t ++ paced "events.list" cal 250 [Delay 100] None pages))
  /\ (forall startYear endYear startISO endISO,
        (endYear < startYear)%Z ->
        archiveCalendar events_list date_parse getFullYear getMonth formatEvent
          monthName now disk_ok yearStart yearEnd fuel cal name
          startYear endYear startISO endISO true t
        = Ret tt t).
Proof.
  split; [|split].
  - intros Hb Hf. rewrite years_loop_step, (getEvents_breaks _ _ _ _ _ _ _ _ Hb Hf).
    reflexivity.
  - intros Hs Hf He. rewrite years_loop_step, (getEvents_serves _ _ _ _ _ _ _ _ Hs Hf), He.
    reflexivity.
  - intros startYear endYear startISO endISO Hlt. unfold archiveCalendar.
    replace (Z.to_nat (endYear - startYear + 1)) with 0 by (clear - Hlt; lia).
    reflexivity.
Qed.

(** X24: Archiving year by year, [archiveCalendar] writes the events of a year
    that has some into the file of that year, after the requests for them,
    and goes on with the next year; the number of years it goes through is
    [endYear - startYear + 1].  If the disk refuses the file the call throws
    there, and the years that follow are not asked for. *)
Theorem archiveCalendar_writes_the_file_of_a_year
  fuel turns cal name year pages t :
  serves (events_api events_list cal (yearStart year) (yearEnd year)) None pages ->
  length pages <= fuel ->
  items_of pages <> [] ->
  years fuel (S turns) cal name year t
  = (if disk_ok (calendar_file name (Some year))
     then years fuel turns cal name (year + 1)
            (t ++ paced "events.list" cal 250 [Delay 100] None pages
               ++ [written name (items_of pages) (Some year)])
     else Exn (t ++ paced "events.list" cal 250 [Delay 100] None pages))
  /\ (forall startYear endYear startISO endISO,
        archiveCalendar events_list date_parse getFullYear getMonth formatEvent
          monthName now disk_ok yearStart yearEnd fuel cal name
          startYear endYear startISO endISO true t
        = years fuel (Z.to_nat (endYear - startYear + 1)) cal name startYear t).
Proof.
  intros Hs Hf Hne. split; [|reflexivity].
  rewrite years_loop_step, (getEvents_serves _ _ _ _ _ _ _ _ Hs Hf).
  destruct (items_of pages) as [|e es]; [contradiction|].
  rewrite <- app_assoc. reflexivity.
Qed.


Local Abbreviation key := (monthKey date_parse getFullYear getMonth).
Local Abbreviation sections := (month_sections date_parse getFullYear getMonth).

Lemma decimal_head n : exists c s, decimal n = c :: s /\ (c <? 78)%N = true.
Proof.
  unfold decimal. destruct (N.to_uint n) as [|d|d|d|d|d|d|d|d|d|d];
    simpl; eexists _, _; split; reflexivity.
Qed.

Lemma decimalZ_head z : exists c s, decimalZ z = c :: s /\ (c <? 78)%N = true.
Proof.
  destruct z as [|p|p]; simpl; try apply decimal_head.
  eexists _, _. split; reflexivity.
Qed.

Lemma undated_key e : undated date_parse e = true -> key e = str "NaN-NaN".
Proof.
  unfold undated, monthKey. destruct (eventDate date_parse e); [discriminate|].
  reflexivity.
Qed.

Lemma dated_key e :
  undated date_parse e = false ->
  str_lt (key e) (str "NaN-NaN") /\ key e <> str "NaN-NaN".
Proof.
  unfold undated, monthKey. destruct (eventDate date_parse e) as [d|]; [|discriminate].
  intros _. cbn [fmap option_fmap option_map number_string].
  destruct (decimalZ_head (getFullYear d)) as (c & s & -> & Hc).
  change (str "NaN-NaN") with (78%N :: str "aN-NaN").
  split.
  - unfold str_lt. cbn [app str_compare]. rewrite Hc. reflexivity.
  - cbn [app]. intros [= -> _]. discriminate Hc.
Qed.

Lemma sorted_greatest_last M l :
  StronglySorted str_lt l -> In M l ->
  (forall k, In k l -> k <> M -> str_lt k M) ->
  exists l', l = l' ++ [M] /\ ~ In M l'.
Proof.
  induction 1 as [|x l Hs IH Hx]; intros Hin Hmax; [destruct Hin|].
  destruct (decide (x = M)) as [->|Hne].
  - destruct l as [|y l].
    + exists []. split; [reflexivity|intros []].
    + exfalso. inversion Hx as [|? ? Hy _]; subst.
      destruct (decide (y = M)) as [->|Hy'].
      * unfold str_lt in Hy. rewrite str_compare_refl in Hy. clear - Hy. lia.
      * specialize (Hmax y (or_intror (or_introl eq_refl)) Hy').
        unfold str_lt in *. rewrite (str_compare_flip y M) in Hy.
        clear - Hy Hmax. lia.
  - destruct Hin as [->|Hin]; [contradiction|].
    destruct IH as (l' & -> & Hl').
    + exact Hin.
    + intros k Hk. apply Hmax. right. exact Hk.
    + exists (x :: l'). split; [reflexivity|].
      intros [E|E]; [contradiction|exact (Hl' E)].
Qed.

(** X25: Events without a start date are not lost: they are gathered under the
    key [NaN-NaN], and since that key sorts after the key of every month
    their section is the last of the file, in the order in which they were
    supplied; the sections before it hold dated events only. *)
Theorem undated_events_are_written_last events :
  existsb (undated date_parse) events = true ->
  exists dated,
    sections events
    = dated ++ [(str "NaN-NaN", List.filter (undated date_parse) events)]
    /\ Forall (fun sec => snd sec <> []
                          /\ Forall (fun e => undated date_parse e = false) (snd sec))
         dated.
Proof.
  intros Hex. apply existsb_exists in Hex as (u & Hu & Hud).
  destruct (group_by_month_spec date_parse getFullYear getMonth events)
    as (_ & Hlook & _).
  destruct (sortedMonths_spec date_parse getFullYear getMonth events)
    as (Hs & Hn & Hk).
  set (g := group_by_month date_parse getFullYear getMonth events) in *.
  destruct (sorted_greatest_last (str "NaN-NaN") (sortedMonths g) Hs)
    as (l' & El & Hl').
  { apply Hk. rewrite <- (undated_key u Hud). apply List.in_map. exact Hu. }
  { intros k Hin Hne. apply Hk in Hin. apply List.in_map_iff in Hin as (e & <- & He).
    destruct (undated date_parse e) eqn:Ee.
    - rewrite (undated_key e Ee) in Hne. contradiction.
    - apply dated_key. exact Ee. }
  exists (List.map (fun k => (k, lookup_month k g)) l').
  split.
  - unfold month_sections. fold g. rewrite El, List.map_app. simpl. f_equal.
    f_equal. f_equal. rewrite Hlook. apply List.filter_ext. intros e.
    destruct (undated date_parse e) eqn:Ee.
    + rewrite (undated_key e Ee). apply jsstring_eqb_refl.
    + apply jsstring_eqb_false. apply dated_key. exact Ee.
  - apply List.Forall_forall. intros sec Hsec.
    apply List.in_map_iff in Hsec as (k & <- & Hin). simpl. rewrite Hlook.
    assert (Hkne : k <> str "NaN-NaN") by (intros ->; exact (Hl' Hin)).
    assert (Hall : Forall (fun e => undated date_parse e = false)
                     (List.filter (fun e => jsstring_eqb (key e) k) events)).
    { apply List.Forall_forall. intros e He. apply List.filter_In in He as [_ He].
      apply jsstring_eqb_true in He.
      destruct (undated date_parse e) eqn:Ee; [|reflexivity].
      rewrite (undated_key e Ee) in He. symmetry in He. contradiction. }
    split; [|exact Hall].
    assert (Hin' : In k (sortedMonths g)) by (rewrite El; apply List.in_or_app; left; exact Hin).
    apply Hk in Hin'. apply List.in_map_iff in Hin' as (e & He & Hine).
    assert (Hf : In e (List.filter (fun e => jsstring_eqb (key e) k) events)).
    { apply List.filter_In. split; [exact Hine|]. rewrite He. apply jsstring_eqb_refl. }
    intros Hnil. rewrite Hnil in Hf. destruct Hf.
Qed.


End CalendarMore.


(** ** The selection of calendars *)

Section Selection.
Import CalendarArchiver.

(** X26: The calendars that an answer selects are calendars of the list shown:
    a number that is out of range, or a field that is no number, selects
    nothing, and no [undefined] entry is ever selected.  A blank answer and
    the answer [0] select every calendar. *)
Theorem select_calendars_selects_listed_calendars calendars answer :
  Forall (fun x => exists c, x = Some c /\ In c calendars)
    (select_calendars calendars answer)
  /\ (trim answer = [] \/ trim answer = str "0" ->
      select_calendars calendars answer = List.map Some calendars).
Proof.
  split.
  - unfold select_calendars.
    destruct (negb (truthy (trim answer)) || jsstring_eqb (trim answer) (str "0")).
    + apply List.Forall_forall. intros x Hx.
      apply List.in_map_iff in Hx as (c & <- & Hc). exists c. split; [reflexivity|exact Hc].
    + apply List.Forall_forall. intros x Hx.
      apply List.in_map_iff in Hx as (i & <- & Hi).
      apply List.filter_In in Hi as [_ Hi].
      destruct i as [z|]; [|discriminate Hi].
      apply andb_true_iff in Hi as [H0 Hlt].
      apply Z.leb_le in H0. apply Z.ltb_lt in Hlt.
      destruct (nth_error calendars (Z.to_nat z)) as [c|] eqn:E.
      * exists c. split; [reflexivity|]. eapply nth_error_In. exact E.
      * apply nth_error_None in E. lia.
  - unfold select_calendars. intros [-> | ->]; reflexivity.
Qed.

End Selection.

Section SelectionSamples.
Import CalendarArchiver YearSample.

Lemma select_calendars_selects_listed_calendars_witness :
  (trim (str "  ") = [] \/ trim (str "  ") = str "0")
  /\ select_calendars [primary; team] (str "  ") = [Some primary; Some team].
Proof.
  assert (H : trim (str "  ") = [] \/ trim (str "  ") = str "0") by (left; reflexivity).
  split; [exact H|].
  exact (proj2 (select_calendars_selects_listed_calendars [primary; team] (str "  ")) H).
Defined.

(** Fields are read by [parseInt]: white space around a number is ignored,
    [0x2] is the number 2, [1e3] is the number 1, and what is out of range
    or no number is dropped; a calendar named twice is selected twice. *)
Example answers_as_parsed :
  select_calendars [primary; team] (str "2, 7,x,1 ,0x2,1e3,-1,")
  = [Some team; Some primary; Some team; Some primary]
  /\ List.map parseInt [str " 42px"; str "-0"; str "0x"; str "+7"; str ""]
     = [Some 42%Z; Some 0%Z; None; Some 7%Z; None].
Proof. vm_compute. split; reflexivity. Qed.

End SelectionSamples.


Section CalendarMoreSamples.
Import CalendarArchiver CalendarSample YearSample.

Local Abbreviation year_loop :=
  (years_loop year_events parse_day year_of month_of (fun _ => []) (fun k => k)
     (str "now") (fun _ => true) decimalZ decimalZ).
Local Abbreviation file_2024 :=
  (calendar_written parse_day year_of month_of (fun _ => []) (fun k => k) (str "now")
     (str "Team") [kickoff; review] (Some 2024%Z)).

Lemma year_2024_serves :
  serves (events_api year_events (str "team") (str "2024") (str "2024")) None
    [([kickoff; review], None)].
Proof. apply serves_last; reflexivity. Defined.

Lemma year_2023_breaks :
  breaks (events_api year_events (str "team") (str "2023") (str "2023")) None [].
Proof. apply breaks_now. reflexivity. Defined.

Lemma year_2025_serves :
  serves (events_api year_events (str "team") (str "2025") (str "2025")) None
    [([], None)].
Proof. apply serves_last; reflexivity. Defined.

Lemma getEvents_lists_every_page_or_nothing_witness :
  getEvents year_events 1 (str "team") (str "2024") (str "2024") None []
  = Ret [kickoff; review] [Fetch "events.list" (str "team") None 250; Delay 100]
  /\ getEvents year_events 1 (str "team") (str "2023") (str "2023") None []
     = Ret [] [Fetch "events.list" (str "team") None 250].
Proof.
  split.
  - exact (proj1 (proj1 (getEvents_lists_every_page_or_nothing year_events
                           (str "team") (str "2024") (str "2024") None
                           [([kickoff; review], None)] 1 [])
                        year_2024_serves (le_n 1))).
  - exact (proj2 (getEvents_lists_every_page_or_nothing year_events
                    (str "team") (str "2023") (str "2023") None [] 1 [])
                 year_2023_breaks (le_n 1)).
Defined.

Lemma archiveCalendar_passes_over_a_year_without_events_witness :
  year_loop 1 1 (str "team") (str "Team") 2023%Z []
  = year_loop 1 0 (str "team") (str "Team") 2024%Z
      [Fetch "events.list" (str "team") None 250]
  /\ year_loop 1 1 (str "team") (str "Team") 2025%Z []
     = year_loop 1 0 (str "team") (str "Team") 2026%Z
         [Fetch "events.list" (str "team") None 250; Delay 100]
  /\ archiveCalendar year_events parse_day year_of month_of (fun _ => [])
       (fun k => k) (str "now") (fun _ => true) decimalZ decimalZ
       1 (str "team") (str "Team") 2024 2023 (str "a") (str "b") true []
     = Ret tt [].
Proof.
  split; [|split].
  - exact (proj1 (archiveCalendar_passes_over_a_year_without_events year_events
                    parse_day year_of month_of (fun _ => []) (fun k => k) (str "now")
                    (fun _ => true) decimalZ decimalZ
                    1 0 (str "team") (str "Team") 2023%Z [] [])
                 year_2023_breaks (le_n 1)).
  - exact (proj1 (proj2 (archiveCalendar_passes_over_a_year_without_events year_events
                    parse_day year_of month_of (fun _ => []) (fun k => k) (str "now")
                    (fun _ => true) decimalZ decimalZ
                    1 0 (str "team") (str "Team") 2025%Z [([], None)] []))
                 year_2025_serves (le_n 1) eq_refl).
  - apply (proj2 (proj2 (archiveCalendar_passes_over_a_year_without_events year_events
                    parse_day year_of month_of (fun _ => []) (fun k => k) (str "now")
                    (fun _ => true) decimalZ decimalZ
                    1 0 (str "team") (str "Team") 2023%Z [] []))).
    reflexivity.
Defined.

Lemma archiveCalendar_writes_the_file_of_a_year_witness :
  items_of [([kickoff; review], @None jsstring)] <> []
  /\ year_loop 1 1 (str "team") (str "Team") 2024%Z []
     = year_loop 1 0 (str "team") (str "Team") 2025%Z
         [Fetch "events.list" (str "team") None 250; Delay 100; file_2024].
Proof.
  assert (H : items_of [([kickoff; review], @None jsstring)] <> []) by discriminate.
  split; [exact H|].
  exact (proj1 (archiveCalendar_writes_the_file_of_a_year year_events
                  parse_day year_of month_of (fun _ => []) (fun k => k) (str "now")
                  (fun _ => true) decimalZ decimalZ
                  1 0 (str "team") (str "Team") 2024%Z [([kickoff; review], None)] []
                  year_2024_serves (le_n 1) H)).
Defined.

(** Three years of one calendar: the listing of 2023 fails, 2024 has two
    events and 2025 none.  One file is written, for 2024. *)
Example three_years_of_a_calendar :
  archiveCalendar year_events parse_day year_of month_of (fun _ => [])
    (fun k => k) (str "now") (fun _ => true) decimalZ decimalZ
    1 (str "team") (str "Team") 2023 2025 (str "a") (str "b") true []
  = Ret tt [Fetch "events.list" (str "team") None 250;
            Fetch "events.list" (str "team") None 250; Delay 100;
            file_2024;
            Fetch "events.list" (str "team") None 250; Delay 100]
  /\ match file_2024 with
     | Write name _ => name = str "calendar_Team_2024.txt"
     | _ => False
     end.
Proof. vm_compute. split; reflexivity. Qed.

Lemma undated_events_are_written_last_witness :
  existsb (undated parse_day) [untimed; review; kickoff] = true
  /\ (exists dated,
        month_sections parse_day year_of month_of [untimed; review; kickoff]
        = dated ++ [(str "NaN-NaN", [untimed])])
  /\ month_sections parse_day year_of month_of [untimed; review; kickoff]
     = [(str "2024-01", [review; kickoff]); (str "NaN-NaN", [untimed])].
Proof.
  split; [reflexivity|]. split.
  - destruct (undated_events_are_written_last parse_day year_of month_of
                [untimed; review; kickoff] eq_refl) as (dated & E & _).
    exists dated. exact E.
  - vm_compute. reflexivity.
Defined.

End CalendarMoreSamples.


(** ** The shape of normalised text *)

Section TextShape.
Import GmailArchiver.

(** *** Leading white space *)

Lemma lead_removed n : forall s prev,
  length s <= n ->
  no_lead (at_bol true prev) (replace_from re_lead_ws [] 0 prev s) = true.
Proof.
  induction n as [|n IH]; intros s prev Hn.
  - destruct s; [|simpl in Hn; lia].
    rewrite replace_from_nil; [reflexivity|].
    rewrite match_here_lead. simpl. rewrite andb_false_r. reflexivity.
  - destruct s as [|c s].
    { rewrite replace_from_nil; [reflexivity|].
      rewrite match_here_lead. simpl. rewrite andb_false_r. reflexivity. }
    destruct (at_bol true prev && is_space c) eqn:Em.
    + (* the white space at the start of a line goes *)
      apply andb_true_iff in Em as [Eb Ec].
      pose proof (take_drop is_space (c :: s)) as Etd.
      set (w := take_while is_space (c :: s)) in *.
      set (rest := drop_while is_space (c :: s)) in *.
      assert (Hw : w <> []) by (unfold w; simpl; rewrite Ec; discriminate).
      assert (Hlen : length rest < length (c :: s)).
      { rewrite <- Etd, length_app. destruct w; [contradiction|simpl; lia]. }
      rewrite <- Etd.
      rewrite (replace_from_match re_lead_ws [] w rest prev Hw).
      2:{ rewrite Etd, match_here_lead. simpl head_in. rewrite Eb, Ec. reflexivity. }
      simpl app.
      assert (Hh : head_in is_space rest = false) by apply drop_while_head.
      destruct rest as [|d r].
      * rewrite replace_from_nil; [reflexivity|].
        rewrite match_here_lead. simpl. rewrite andb_false_r. reflexivity.
      * simpl in Hh. rewrite replace_from_pass.
        2:{ rewrite match_here_lead. simpl head_in. rewrite Hh, andb_false_r. reflexivity. }
        cbn [no_lead]. rewrite Hh, andb_false_r. cbn [negb andb].
        change (is_line_terminator d) with (at_bol true (Some d)).
        apply IH. simpl in Hlen, Hn. lia.
    + rewrite replace_from_pass.
      2:{ rewrite match_here_lead. simpl head_in. rewrite Em. reflexivity. }
      cbn [no_lead]. rewrite Em. cbn [negb andb].
      change (is_line_terminator c) with (at_bol true (Some c)).
      apply IH. simpl in Hn. lia.
Qed.

(** *** Trailing white space *)

Lemma star_trail : forall s n p,
  length s <= n ->
  star_loop (rmatch (Chr Space)) true (rmatch (Eol true) (fun _ s' => Some s')) n p s
  = trail_rest s.
Proof.
  induction s as [|c s IH]; intros n p Hn.
  - destruct n; reflexivity.
  - destruct n as [|n]; [simpl in Hn; lia|].
    change (star_loop (rmatch (Chr Space)) true
              (rmatch (Eol true) (fun _ s' => Some s')) (S n) p (c :: s))
      with (first_of
              (if is_space c
               then (if (length s <? length (c :: s))%nat
                     then star_loop (rmatch (Chr Space)) true
                            (rmatch (Eol true) (fun _ s' => Some s')) n (Some c) s
                     else None)
               else None)
              (if at_eol true (c :: s) then Some (c :: s) else None)).
    cbn [trail_rest]. destruct (is_space c); [|reflexivity].
    assert (E : (length s <? length (c :: s))%nat = true)
      by (apply Nat.ltb_lt; simpl; lia).
    rewrite E, IH by (simpl in Hn; lia). reflexivity.
Qed.

Lemma match_here_trail prev s :
  match_here re_trail_ws prev s
  = match s with
    | c :: s' =>
        if is_space c
        then match trail_rest s' with
             | Some r => Some (length s - length r)
             | None => None
             end
        else None
    | [] => None
    end.
Proof.
  destruct s as [|c s]; [reflexivity|].
  unfold match_here, re_trail_ws, Plus.
  change (rmatch (Chr Space · Star true (Chr Space) · Eol true)
            (fun _ s' => Some s') prev (c :: s))
    with (if is_space c
          then star_loop (rmatch (Chr Space)) true
                 (rmatch (Eol true) (fun _ s' => Some s')) (length s) (Some c) s
          else None).
  destruct (is_space c); [|reflexivity].
  rewrite star_trail by lia. reflexivity.
Qed.

Lemma trail_rest_suffix s : forall r,
  trail_rest s = Some r ->
  exists w, s = w ++ r
            /\ (r = [] \/ exists t r', r = t :: r' /\ is_line_terminator t = true
                                       /\ trail_rest r' = None).
Proof.
  induction s as [|c s IH]; intros r H.
  - injection H as <-. exists []. split; [reflexivity|left; reflexivity].
  - cbn [trail_rest] in H.
    assert (Heol : (if at_eol true (c :: s) then Some (c :: s) else None) = Some r ->
                   r = c :: s /\ is_line_terminator c = true).
    { simpl. destruct (is_line_terminator c); [|discriminate].
      intros [= <-]. split; reflexivity. }
    destruct (is_space c) eqn:Ec.
    + destruct (trail_rest s) as [r0|] eqn:Er.
      * simpl in H. injection H as <-.
        destruct (IH r0 eq_refl) as (w & -> & Hr). exists (c :: w).
        split; [reflexivity|exact Hr].
      * simpl first_of in H. destruct (Heol H) as [-> Ht]. exists [].
        split; [reflexivity|]. right. exists c, s. repeat split; assumption.
    + destruct (Heol H) as [_ Ht]. apply terminator_is_space in Ht. congruence.
Qed.

Lemma no_lead_suffix w : forall b t r,
  no_lead b (w ++ t :: r) = true -> no_lead (is_line_terminator t) r = true.
Proof.
  induction w as [|c w IH]; intros b t r H; simpl in H;
    apply andb_true_iff in H as [_ H]; [exact H|].
  eapply IH. exact H.
Qed.

Lemma trail_removed n : forall s prev q b,
  length s <= n ->
  no_lead b s = true ->
  match q with
  | None => b = true
  | Some p => if is_space p then trail_rest s = None /\ b = is_line_terminator p
              else b = false
  end ->
  tight q (replace_from re_trail_ws [] 0 prev s) = true.
Proof.
  induction n as [|n IH]; intros s prev q b Hn Hl Hq.
  - destruct s; [|simpl in Hn; lia].
    rewrite replace_from_nil by apply match_here_trail. simpl.
    destruct q as [p|]; [|reflexivity].
    destruct (is_space p); [|reflexivity]. destruct Hq as [Hq _]. discriminate Hq.
  - destruct s as [|c s].
    { rewrite replace_from_nil by apply match_here_trail. simpl.
      destruct q as [p|]; [|reflexivity].
      destruct (is_space p); [|reflexivity]. destruct Hq as [Hq _]. discriminate Hq. }
    cbn [no_lead] in Hl. apply andb_true_iff in Hl as [Hc Hl].
    destruct (is_space c) eqn:Ec.
    + (* white space *)
      rewrite andb_true_r in Hc. apply negb_true_iff in Hc. subst b.
      destruct q as [p|]; [|discriminate Hq].
      destruct (trail_rest s) as [r|] eqn:Er.
      * (* a run that ends the line: it goes *)
        assert (Hp : is_space p = false).
        { destruct (is_space p); [|reflexivity]. destruct Hq as [Hq _].
          cbn [trail_rest] in Hq. rewrite Ec, Er in Hq. discriminate Hq. }
        destruct (trail_rest_suffix s r Er) as (w & -> & Hr).
        change (c :: w ++ r) with ((c :: w) ++ r).
        rewrite (replace_from_match re_trail_ws [] (c :: w) r prev).
        2:{ discriminate. }
        2:{ rewrite match_here_trail. cbn [app]. rewrite Ec, Er. f_equal.
            cbn [length]. rewrite length_app. lia. }
        simpl app. destruct Hr as [->|(t & r' & -> & Ht & Hnone)].
        -- rewrite replace_from_nil by apply match_here_trail. simpl.
           rewrite Hp. reflexivity.
        -- rewrite replace_from_pass.
           2:{ rewrite match_here_trail, (terminator_is_space t Ht), Hnone.
               reflexivity. }
           cbn [tight]. unfold apart at 1. rewrite Hp, (not_space_not_terminator p Hp).
           cbn [andb negb].
           apply (IH r' (Some t) (Some t) (is_line_terminator t)).
           ++ simpl in Hn. rewrite length_app in Hn. simpl in Hn. lia.
           ++ eapply no_lead_suffix. exact Hl.
           ++ rewrite (terminator_is_space t Ht). split; [exact Hnone|reflexivity].
      * (* white space inside a line: it stays *)
        rewrite replace_from_pass by (rewrite match_here_trail, Ec, Er; reflexivity).
        cbn [tight].
        assert (Ha : apart p c = true).
        { unfold apart. rewrite Ec. destruct (is_space p) eqn:Ep.
          - destruct Hq as [Hq Hp]. rewrite <- Hp. cbn [andb negb].
            cbn [trail_rest] in Hq. rewrite Ec, Er in Hq. simpl in Hq.
            destruct (is_line_terminator c); [discriminate Hq|reflexivity].
          - rewrite (not_space_not_terminator p Ep). reflexivity. }
        rewrite Ha. cbn [andb].
        apply (IH s (Some c) (Some c) (is_line_terminator c)).
        -- simpl in Hn. lia.
        -- exact Hl.
        -- rewrite Ec. split; [exact Er|reflexivity].
    + (* a code unit of a word *)
      rewrite replace_from_pass by (rewrite match_here_trail, Ec; reflexivity).
      cbn [tight].
      assert (Ha : match q with Some p => apart p c | None => negb (is_space c) end = true).
      { destruct q as [p|]; [|rewrite Ec; reflexivity].
        unfold apart. rewrite Ec, (not_space_not_terminator c Ec), !andb_false_r.
        reflexivity. }
      rewrite Ha. cbn [andb].
      apply (IH s (Some c) (Some c) (is_line_terminator c)).
      * simpl in Hn. lia.
      * exact Hl.
      * rewrite Ec. apply not_space_not_terminator. exact Ec.
Qed.


(** *** Lines *)

Lemma last_default (l : jsstring) a b : l <> [] -> List.last l a = List.last l b.
Proof.
  induction l as [|c l IH]; intros H; [contradiction|].
  destruct l as [|d l]; [reflexivity|].
  change (List.last (d :: l) a = List.last (d :: l) b). apply IH. discriminate.
Qed.

Lemma last_app_right (a b : jsstring) d : b <> [] -> List.last (a ++ b) d = List.last b d.
Proof.
  intros Hb. induction a as [|c a IH]; [reflexivity|].
  simpl app. destruct (a ++ b) as [|x y] eqn:E.
  - destruct a; [simpl in E; contradiction|discriminate E].
  - change (List.last (x :: y) d = List.last b d). exact IH.
Qed.

Lemma solid_inv l :
  solid l = true ->
  exists c l', l = c :: l' /\ is_space c = false /\ is_space (List.last l c) = false.
Proof.
  unfold solid, is_trimmed. destruct l as [|c l']; [discriminate|].
  intros H. cbn [truthy andb] in H. apply andb_true_iff in H as [H1 H2].
  apply negb_true_iff in H1, H2. exists c, l'. repeat split; assumption.
Qed.

Lemma solid_intro c l' :
  is_space c = false -> is_space (List.last (c :: l') c) = false ->
  solid (c :: l') = true.
Proof.
  intros H1 H2. unfold solid, is_trimmed. cbn [truthy andb]. rewrite H1, H2. reflexivity.
Qed.

Lemma tight_lines s : forall q,
  tight q s = true ->
  exists l0 ls,
    split NL s = l0 :: ls
    /\ Forall (fun l => solid l = true) ls
    /\ match l0 with
       | [] => s = [] \/ exists s', s = NL :: s'
       | d :: _ => List.hd_error s = Some d /\ is_space (List.last l0 d) = false
       end.
Proof.
  induction s as [|c s IH]; intros q H.
  - exists [], []. split; [reflexivity|]. split; [constructor|left; reflexivity].
  - cbn [tight] in H. apply andb_true_iff in H as [Ha Ht].
    destruct (IH (Some c) Ht) as (l0 & ls & E & Hls & Hl0).
    cbn [split]. rewrite E. destruct (c =? NL)%N eqn:Ec.
    + apply N.eqb_eq in Ec. subst c.
      exists [], (l0 :: ls). split; [reflexivity|]. split; [|right; eauto].
      constructor; [|exact Hls].
      destruct l0 as [|d l0'].
      * exfalso. destruct Hl0 as [->|(s' & ->)]; simpl in Ht; discriminate Ht.
      * destruct Hl0 as [Hd Hlast]. destruct s as [|d' s']; [discriminate Hd|].
        injection Hd as ->. cbn [tight] in Ht. apply andb_true_iff in Ht as [Ht _].
        unfold apart in Ht. apply andb_true_iff in Ht as [Ht _].
        change (is_line_terminator NL) with true in Ht.
        cbn [andb] in Ht. apply negb_true_iff in Ht.
        apply solid_intro; assumption.
    + exists (c :: l0), ls. split; [reflexivity|]. split; [exact Hls|].
      split; [reflexivity|].
      destruct l0 as [|d l0'].
      * cbn [List.last]. destruct Hl0 as [->|(s' & ->)].
        -- simpl in Ht. apply negb_true_iff in Ht. exact Ht.
        -- cbn [tight] in Ht. apply andb_true_iff in Ht as [Ht _].
           unfold apart in Ht. apply andb_true_iff in Ht as [_ Ht].
           change (is_line_terminator NL) with true in Ht.
           rewrite andb_true_r in Ht. apply negb_true_iff in Ht. exact Ht.
      * destruct Hl0 as [_ Hlast].
        change (List.last (c :: d :: l0') c) with (List.last (d :: l0') c).
        rewrite (last_default (d :: l0') c d) by discriminate. exact Hlast.
Qed.

Lemma tight_solid_lines s :
  tight None s = true -> s <> [] -> Forall (fun l => solid l = true) (split NL s).
Proof.
  intros H Hne. destruct (tight_lines s None H) as (l0 & ls & E & Hls & Hl0).
  rewrite E. constructor; [|exact Hls].
  destruct s as [|c s']; [contradiction|].
  cbn [tight] in H. apply andb_true_iff in H as [Hc _]. apply negb_true_iff in Hc.
  destruct l0 as [|d l0'].
  - exfalso. destruct Hl0 as [Hl0|(s'' & Hl0)]; [discriminate Hl0|].
    injection Hl0 as -> _. discriminate Hc.
  - destruct Hl0 as [Hd Hlast]. injection Hd as <-. apply solid_intro; assumption.
Qed.

Lemma split_without_separator s : Forall (fun l => ~ In NL l) (split NL s).
Proof.
  induction s as [|c s IH]; [constructor; [intros []|constructor]|].
  cbn [split]. destruct (c =? NL)%N eqn:Ec.
  - constructor; [intros []|exact IH].
  - destruct (split NL s) as [|l ls]; [constructor; [|constructor]|].
    + intros [->|[]]. rewrite N.eqb_refl in Ec. discriminate.
    + inversion IH as [|? ? Hl Hls]; subst. constructor; [|exact Hls].
      intros [->|H]; [rewrite N.eqb_refl in Ec; discriminate|exact (Hl H)].
Qed.

Lemma join_of_lines K :
  K <> [] -> Forall (fun l => ~ In NL l) K -> split NL (join [NL] K) = K.
Proof.
  induction K as [|l K IH]; intros Hne H; [contradiction|].
  inversion H as [|? ? Hl HK]; subst.
  destruct K as [|l2 K'].
  - simpl. apply split_one_line. exact Hl.
  - change (join [NL] (l :: l2 :: K')) with (l ++ NL :: join [NL] (l2 :: K')).
    rewrite split_first_line by exact Hl. rewrite IH; [reflexivity|discriminate|exact HK].
Qed.

Lemma join_solid K :
  K <> [] -> Forall (fun l => solid l = true) K -> solid (join [NL] K) = true.
Proof.
  induction K as [|l K IH]; intros Hne H; [contradiction|].
  inversion H as [|? ? Hl HK]; subst.
  destruct K as [|l2 K']; [exact Hl|].
  change (join [NL] (l :: l2 :: K')) with (l ++ NL :: join [NL] (l2 :: K')).
  destruct (solid_inv l Hl) as (c & l' & -> & Hc & _).
  specialize (IH ltac:(discriminate) HK).
  destruct (solid_inv _ IH) as (d & j & Ej & _ & Hlast).
  rewrite Ej in *. simpl app. apply solid_intro; [exact Hc|].
  change (c :: l' ++ NL :: d :: j) with ((c :: l') ++ NL :: d :: j).
  rewrite last_app_right by discriminate.
  change (List.last (NL :: d :: j) c) with (List.last (d :: j) c).
  rewrite (last_default (d :: j) c d) by discriminate. exact Hlast.
Qed.

Lemma trim_solid s : solid s = true -> trim s = s.
Proof.
  intros H. destruct (solid_inv s H) as (c & s' & -> & Hc & Hlast).
  unfold trim. cbn [trim_start]. rewrite Hc. unfold trim_end.
  rewrite (app_removelast_last c (l := c :: s')) at 1 by discriminate.
  rewrite rev_app_distr. cbn [rev app trim_start]. rewrite Hlast.
  change (List.last (c :: s') c :: rev (removelast (c :: s')))
    with (rev [List.last (c :: s') c] ++ rev (removelast (c :: s'))).
  rewrite <- rev_app_distr, rev_involutive.
  symmetry. apply app_removelast_last. discriminate.
Qed.

(** X18: Whatever the input, the text that [cleanText] returns has no empty
    line and no line that starts or ends with white space: it is the empty
    string, or every one of its lines holds something and is trimmed.
    Blank lines of the input do not survive, and every line is one that
    the line filter keeps. *)
Theorem cleanText_leaves_no_blank_line x :
  cleanText x = []
  \/ (Forall (fun l => solid l = true) (split NL (cleanText x))
      /\ forallb keep_line (split NL (cleanText x)) = true).
Proof.
  destruct x as [| |[|c s]]; try (left; reflexivity).
  unfold cleanText, clean_steps. cbv zeta.
  match goal with
  | |- context [replace_all re_lead_ws [] ?t] => set (T0 := t)
  end.
  set (T1 := replace_all re_lead_ws [] T0).
  set (T2 := replace_all re_trail_ws [] T1).
  assert (H1 : no_lead true T1 = true).
  { exact (lead_removed (length T0) T0 None (le_n _)). }
  assert (H2 : tight None T2 = true).
  { exact (trail_removed (length T1) T1 None None true (le_n _) H1 eq_refl). }
  destruct T2 as [|d T2'] eqn:E2; [left; reflexivity|].
  rewrite <- E2 in *.
  assert (Hsolid : Forall (fun l => solid l = true) (split NL T2)).
  { apply tight_solid_lines; [exact H2|rewrite E2; discriminate]. }
  pose proof (split_without_separator T2) as Hsep.
  set (K := List.filter keep_line (split NL T2)) in *.
  assert (HK1 : Forall (fun l => solid l = true) K) by (apply Forall_filter_keep; exact Hsolid).
  assert (HK2 : Forall (fun l => ~ In NL l) K) by (apply Forall_filter_keep; exact Hsep).
  destruct K as [|l K'] eqn:EK; [left; reflexivity|].
  rewrite <- EK in *.
  assert (HKne : K <> []) by (rewrite EK; discriminate).
  right. rewrite (trim_solid _ (join_solid K HKne HK1)).
  rewrite (join_of_lines K HKne HK2). split; [exact HK1|].
  unfold K. apply forallb_filter_self.
Qed.


(** *** Carriage returns *)

Lemma split_keeps (P : N -> Prop) s :
  Forall P s -> Forall (Forall P) (split NL s).
Proof.
  induction 1 as [|c s Hc Hs IH]; [repeat constructor|].
  cbn [split]. destruct (c =? NL)%N.
  - constructor; [constructor|exact IH].
  - destruct (split NL s) as [|l ls]; [repeat constructor; exact Hc|].
    inversion IH as [|? ? Hl Hls]; subst.
    constructor; [constructor; assumption|exact Hls].
Qed.

Lemma join_keeps (P : N -> Prop) K :
  P NL -> Forall (Forall P) K -> Forall P (join [NL] K).
Proof.
  intros HNL. induction 1 as [|l K Hl HK IH]; [constructor|].
  destruct K as [|l2 K']; [exact Hl|].
  change (join [NL] (l :: l2 :: K')) with (l ++ NL :: join [NL] (l2 :: K')).
  apply Forall_app. split; [exact Hl|]. constructor; [exact HNL|exact IH].
Qed.

Lemma trim_start_keeps (P : N -> Prop) s : Forall P s -> Forall P (trim_start s).
Proof.
  induction 1 as [|c s Hc Hs IH]; [constructor|].
  simpl. destruct (is_space c); [exact IH|constructor; assumption].
Qed.

Lemma trim_keeps (P : N -> Prop) s : Forall P s -> Forall P (trim s).
Proof.
  intros H. unfold trim, trim_end.
  apply Forall_rev. apply trim_start_keeps. apply Forall_rev.
  apply trim_start_keeps. exact H.
Qed.

(** X19: The text that [cleanText] returns holds no carriage return: line ends
    are line feeds only. *)
Theorem cleanText_has_no_carriage_return x :
  Forall (fun a => a <> CR) (cleanText x).
Proof.
  destruct x as [| |[|c s]]; [constructor|constructor|constructor|].
  unfold cleanText, clean_steps. cbv zeta.
  match goal with
  | |- context [replace_all re_cr [NL] ?t] => set (T0 := t)
  end.
  assert (H0 : Forall (fun a => a <> CR) (replace_all re_cr [NL] T0)).
  { unfold replace_all, re_cr. rewrite replace_chr_from.
    apply List.Forall_forall. intros a Ha.
    apply List.in_map_iff in Ha as (b & <- & _).
    change (cset_mem (One CR) b) with (b =? CR)%N.
    destruct (b =? CR)%N eqn:E; [discriminate|].
    apply N.eqb_neq. exact E. }
  assert (H : Forall (fun a => a <> CR)
                (replace_all re_trail_ws []
                   (replace_all re_lead_ws []
                      (replace_all re_blanks (str " ")
                         (replace_all re_blank_lines [NL; NL]
                            (replace_all re_cr [NL] T0)))))).
  { unfold replace_all at 1 2 3 4.
    do 4 (apply replace_from_keeps; [|repeat constructor; discriminate]).
    exact H0. }
  apply trim_keeps. apply join_keeps; [discriminate|].
  apply Forall_filter_keep. apply split_keeps. exact H.
Qed.

(** *** Lines dropped by their first word *)

Lemma lit_i_matches w : forall k prev s,
  w <> [] -> starts_with_i w s = true ->
  exists p, rmatch (lit_i w) k prev s = k p (skipn (length w) s).
Proof.
  induction w as [|a w IH]; intros k prev s Hne H; [contradiction|].
  destruct s as [|c s]; [discriminate H|].
  cbn [starts_with_i] in H. apply andb_true_iff in H as [Hc Hs].
  destruct w as [|b w'].
  - exists (Some c). cbn [lit_i rmatch cset_mem length skipn]. rewrite Hc. reflexivity.
  - change (lit_i (a :: b :: w')) with (Seq (Chr (OneI a)) (lit_i (b :: w'))).
    cbn [rmatch cset_mem]. rewrite Hc.
    destruct (IH k (Some c) s ltac:(discriminate) Hs) as (p & E).
    exists p. rewrite E. reflexivity.
Qed.

Lemma first_of_left {A} (x y : option A) :
  (exists r, x = Some r) -> exists r, first_of x y = Some r.
Proof. intros (r & ->). exists r. reflexivity. Qed.

Lemma first_of_right {A} (x y : option A) :
  (exists r, y = Some r) -> exists r, first_of x y = Some r.
Proof.
  intros (r & ->). destruct x as [r'|]; [exists r'|exists r]; reflexivity.
Qed.

Lemma word_matches w s :
  w <> [] -> starts_with_i w s = true ->
  exists r, rmatch (lit_i w) (fun _ s' => Some s') None s = Some r.
Proof.
  intros Hne H. destruct (lit_i_matches w (fun _ s' => Some s') None s Hne H) as (p & E).
  eexists. exact E.
Qed.

(** X20: The line filter judges a line by how it starts: a line whose first
    word, white space at its start apart and whatever the case of its
    letters, starts with [font-], [color:], [background], [margin],
    [padding], [border], [width:], [height:], [display:], [position:] or
    [text-] is dropped, whatever follows on the line. *)
Theorem keep_line_drops_lines_that_start_like_css word line :
  In word css_words ->
  starts_with_i word (trim line) = true ->
  keep_line line = false.
Proof.
  intros Hw Hs. unfold keep_line. cbv zeta.
  assert (Hne : truthy (trim line) = true).
  { revert Hs. destruct (trim line); intros Hs; [|reflexivity].
    unfold css_words in Hw. simpl in Hw.
    repeat (destruct Hw as [<-|Hw]; [discriminate Hs|]).
    all: try contradiction. }
  rewrite Hne. cbn [negb].
  assert (Hm : matches re_css_line (trim line) = true).
  { unfold matches.
    assert (E : exists n, match_here re_css_line None (trim line) = Some n).
    { unfold match_here, re_css_line.
      assert (Hr : exists r, rmatch
                     (Bol false
                      · (lit_i (str "font-") ∣ lit_i (str "color:")
                         ∣ lit_i (str "background") ∣ lit_i (str "margin")
                         ∣ lit_i (str "padding") ∣ lit_i (str "border")
                         ∣ lit_i (str "width:") ∣ lit_i (str "height:")
                         ∣ lit_i (str "display:") ∣ lit_i (str "position:")
                         ∣ lit_i (str "text-")))
                     (fun _ s' => Some s') None (trim line) = Some r).
      { cbn [rmatch at_bol]. unfold css_words in Hw. simpl in Hw.
        repeat (destruct Hw as [<-|Hw];
                [repeat first
                   [ solve [apply word_matches; [discriminate|exact Hs]]
                   | solve [apply first_of_right; apply word_matches;
                            [discriminate|exact Hs]]
                   | apply first_of_left ]|]).
        all: try contradiction. }
      destruct Hr as (r & ->). eexists. reflexivity. }
    destruct E as (n & E). revert E.
    destruct (trim line) as [|c t]; intros E; cbn [matches_from]; rewrite E;
      reflexivity. }
  rewrite Hm. reflexivity.
Qed.


(** *** Plain text *)

(** X21: [cleanText] leaves plain text as it is: words free of [&], [<], [=],
    [{] and [:], separated by single spaces, tabs or line feeds, on lines
    that the line filter keeps, come back unchanged. *)
Theorem cleanText_leaves_plain_text_alone y :
  plain y = true -> cleanText (Text y) = y.
Proof. apply cleanText_plain. Qed.


End TextShape.


Section TextSamples.
Import GmailArchiver.

Lemma keep_line_drops_lines_that_start_like_css_witness :
  In (str "border") css_words
  /\ starts_with_i (str "border") (trim (str "  Border collies herd sheep. ")) = true
  /\ keep_line (str "  Border collies herd sheep. ") = false.
Proof.
  assert (H : In (str "border") css_words) by (unfold css_words; simpl; tauto).
  split; [exact H|]. split; [reflexivity|].
  exact (keep_line_drops_lines_that_start_like_css (str "border")
           (str "  Border collies herd sheep. ") H eq_refl).
Defined.

Lemma cleanText_leaves_plain_text_alone_witness :
  plain (str "Hello world" ++ [NL] ++ str "see you at 10") = true
  /\ cleanText (Text (str "Hello world" ++ [NL] ++ str "see you at 10"))
     = str "Hello world" ++ [NL] ++ str "see you at 10".
Proof.
  split; [reflexivity|].
  exact (cleanText_leaves_plain_text_alone
           (str "Hello world" ++ [NL] ++ str "see you at 10") eq_refl).
Defined.

(** A paragraph break does not survive, and neither does a line of prose
    that starts like a style declaration. *)
Example paragraphs_run_together :
  cleanText (Text (str "Dear Ann," ++ [NL; NL] ++ str "Border collies herd sheep."
                   ++ [CR; NL; NL; NL] ++ str "  Yours, Bob  " ++ [NL]))
  = str "Dear Ann," ++ [NL] ++ str "Yours, Bob".
Proof. vm_compute. reflexivity. Qed.

End TextSamples.
